(** * MultiWikiServer: the request-handling engine of [packages/server]

    A shallow embedding of [packages/server/src/streamer.ts],
    [packages/server/src/listeners.ts] and [packages/server/src/index.ts],
    and the properties of the engine proved on it.

    Conventions.
    - A JavaScript string is a Rocq [string] holding its UTF-8 form; string
      literals of the source are ASCII.  [startsWith], [slice] after a
      successful [startsWith], concatenation and [includes] do not depend on
      the unit of length.
    - A JavaScript number is a [number]: an integer or [NaN].  Ports, status
      codes, byte lengths and millisecond counts are integers; fractional
      values and infinities are outside the model, and so is the exponent
      notation in which JavaScript prints a number from [10^21] on:
      [number_to_string] gives what JavaScript prints for an integer whose
      absolute value is below that.
    - A method that reads and writes the response, the console or a field of
      [this] is a function in the state monad [M] over [World]; a [throw]
      is the outcome [Throw] and keeps the effects made before it. *)

From Stdlib Require Import ZArith Ascii String List Bool Lia.
From stdpp Require Import base option list gmap strings pretty.

Set Warnings "-register-all".
Local Open Scope Z_scope.

(** ** JavaScript values and built-in functions *)

Module JS.

(** The line feed, ["\n"] in the source, and the double quote. *)
Definition LF : string := String (ascii_of_nat 10) "".
Definition DQUOTE : ascii := ascii_of_nat 34.

(** [String.prototype.startsWith]. *)
Definition startsWith (s p : string) : bool := String.prefix p s.

(** [s.slice(n)] for [0 <= n]. *)
Fixpoint slice (s : string) (n : nat) : string :=
  match n, s with
  | O, _ => s
  | S _, EmptyString => EmptyString
  | S n', String _ s' => slice s' n'
  end.

(** [String.prototype.includes]. *)
Fixpoint includes (s sub : string) : bool :=
  String.prefix sub s ||
  match s with
  | EmptyString => false
  | String _ s' => includes s' sub
  end.

(** [Array.prototype.join] on an array of strings. *)
Definition join (sep : string) (l : list string) : string := String.concat sep l.

(** [String.prototype.toLowerCase] on the ASCII letters (header names are
    ASCII tokens). *)
Definition lower_ascii (c : ascii) : ascii :=
  let n := nat_of_ascii c in
  if ((65 <=? n) && (n <=? 90))%nat then ascii_of_nat (n + 32) else c.

Fixpoint toLowerCase (s : string) : string :=
  match s with
  | EmptyString => EmptyString
  | String c s' => String (lower_ascii c) (toLowerCase s')
  end.

(** Numbers: the integer-valued ones and [NaN]. *)
Inductive number := NaN | Num (z : Z).

Global Instance number_eq_dec : EqDecision number.
Proof. solve_decision. Defined.

(** [`${n}`] and [n.toString()].  The digits are those JavaScript prints
    for an integer whose absolute value is below [10^21]; from there on it
    prints an exponent, which is not modelled. *)
Definition number_to_string (n : number) : string :=
  match n with
  | NaN => "NaN"
  | Num z => pretty z
  end.

(** Truthiness ([!!x]) of a number and of a string. *)
Definition truthy_number (n : number) : bool :=
  match n with
  | NaN => false
  | Num z => negb (z =? 0)
  end.

Definition truthy_string (s : string) : bool :=
  match s with
  | EmptyString => false
  | String _ _ => true
  end.

(** *** [encodeURIComponent] and [decodeURIComponent] *)

Definition hex_digit (n : N) : ascii :=
  ascii_of_N (if (n <? 10)%N then 48 + n else 55 + n)%N.

Definition hex_value (c : ascii) : option N :=
  let n := N_of_ascii c in
  if ((48 <=? n) && (n <=? 57))%N then Some (n - 48)%N
  else if ((65 <=? n) && (n <=? 70))%N then Some (n - 55)%N
  else if ((97 <=? n) && (n <=? 102))%N then Some (n - 87)%N
  else None.

(** The characters [encodeURIComponent] leaves alone:
    letters, digits and [- _ . ! ~ * ' ( )]. *)
Definition uri_unreserved (c : ascii) : bool :=
  let n := N_of_ascii c in
  (((48 <=? n) && (n <=? 57)) || ((65 <=? n) && (n <=? 90)) ||
   ((97 <=? n) && (n <=? 122)) ||
   (n =? 45) || (n =? 95) || (n =? 46) || (n =? 33) || (n =? 126) ||
   (n =? 42) || (n =? 39) || (n =? 40) || (n =? 41))%N.

(** [encodeURIComponent]: every byte of the UTF-8 form that is not
    unreserved becomes [%XX] with upper-case digits. *)
Fixpoint encodeURIComponent (s : string) : string :=
  match s with
  | EmptyString => EmptyString
  | String c s' =>
      if uri_unreserved c then String c (encodeURIComponent s')
      else
        let n := N_of_ascii c in
        String "%" (String (hex_digit (n / 16)) (String (hex_digit (n mod 16))
          (encodeURIComponent s')))
  end.

(** [decodeURIComponent] reads the string as literal characters and
    escapes; [None] is the [URIError] it throws. *)
Inductive uri_token := Lit (c : ascii) | Esc (b : N).

Fixpoint uri_tokens (s : string) : option (list uri_token) :=
  match s with
  | EmptyString => Some []
  | String "%" (String h (String l s')) =>
      match hex_value h, hex_value l, uri_tokens s' with
      | Some x, Some y, Some ts => Some (Esc (16 * x + y)%N :: ts)
      | _, _, _ => None
      end
  | String "%" _ => None
  | String c s' =>
      match uri_tokens s' with
      | Some ts => Some (Lit c :: ts)
      | None => None
      end
  end.

(** A continuation byte [10xxxxxx]. *)
Definition utf8_cont (b : N) : bool := ((128 <=? b) && (b <? 192))%N.

(** The code points of two, three and four byte sequences; a sequence is
    accepted when it is the shortest form of a code point that is neither a
    surrogate nor above U+10FFFF. *)
Definition utf8_ok2 (b b1 : N) : bool :=
  utf8_cont b1 && (128 <=? (b mod 32) * 64 + b1 mod 64)%N.

Definition utf8_ok3 (b b1 b2 : N) : bool :=
  let cp := ((b mod 16) * 4096 + (b1 mod 64) * 64 + b2 mod 64)%N in
  utf8_cont b1 && utf8_cont b2 && (2048 <=? cp)%N &&
  negb ((55296 <=? cp) && (cp <=? 57343))%N.

Definition utf8_ok4 (b b1 b2 b3 : N) : bool :=
  let cp := ((b mod 8) * 262144 + (b1 mod 64) * 4096 + (b2 mod 64) * 64 +
             b3 mod 64)%N in
  utf8_cont b1 && utf8_cont b2 && utf8_cont b3 &&
  (65536 <=? cp)%N && (cp <=? 1114111)%N.

Fixpoint uri_decode (ts : list uri_token) : option string :=
  match ts with
  | [] => Some EmptyString
  | Lit c :: r => String c <$> uri_decode r
  | Esc b :: r =>
      if (b <? 128)%N then String (ascii_of_N b) <$> uri_decode r
      else if ((192 <=? b) && (b <? 224))%N then
        match r with
        | Esc b1 :: r' =>
            if utf8_ok2 b b1
            then (fun s => String (ascii_of_N b) (String (ascii_of_N b1) s))
                   <$> uri_decode r'
            else None
        | _ => None
        end
      else if ((224 <=? b) && (b <? 240))%N then
        match r with
        | Esc b1 :: Esc b2 :: r' =>
            if utf8_ok3 b b1 b2
            then (fun s => String (ascii_of_N b) (String (ascii_of_N b1)
                            (String (ascii_of_N b2) s))) <$> uri_decode r'
            else None
        | _ => None
        end
      else if ((240 <=? b) && (b <? 248))%N then
        match r with
        | Esc b1 :: Esc b2 :: Esc b3 :: r' =>
            if utf8_ok4 b b1 b2 b3
            then (fun s => String (ascii_of_N b) (String (ascii_of_N b1)
                            (String (ascii_of_N b2) (String (ascii_of_N b3) s))))
                   <$> uri_decode r'
            else None
        | _ => None
        end
      else None
  end.

Definition decodeURIComponent (s : string) : option string :=
  uri_tokens s ≫= uri_decode.

(** *** Dynamically typed values and [JSON.stringify] *)

Inductive value :=
| VUndefined
| VNull
| VBool (b : bool)
| VNum (n : number)
| VBigInt (z : Z)
| VStr (s : string)
| VArr (l : list value)
| VObj (props : list (string * value)).

Definition json_escape_char (c : ascii) : string :=
  let n := N_of_ascii c in
  if (n =? 34)%N then String "\" (String DQUOTE "")
  else if (n =? 92)%N then String "\" (String "\" "")
  else if (n =? 8)%N then "\b"
  else if (n =? 12)%N then "\f"
  else if (n =? 10)%N then "\n"
  else if (n =? 13)%N then "\r"
  else if (n =? 9)%N then "\t"
  else if (n <? 32)%N then
    "\u00" +:+ String (lower_ascii (hex_digit (n / 16)))
                 (String (lower_ascii (hex_digit (n mod 16))) "")
  else String c "".

Fixpoint json_escape (s : string) : string :=
  match s with
  | EmptyString => EmptyString
  | String c s' => json_escape_char c +:+ json_escape s'
  end.

Definition json_quote (s : string) : string :=
  String DQUOTE (json_escape s) +:+ String DQUOTE "".

(** The result of [JSON.stringify(v)]: a string or [undefined]. *)
Inductive stringified := Text (s : string) | Undefined.

(** [JSON.stringify(v)]; [None] is the [TypeError] thrown for a BigInt.
    In an array [undefined] prints as [null], in an object a property whose
    value is [undefined] is left out. *)
Fixpoint stringify (v : value) : option stringified :=
  match v with
  | VUndefined => Some Undefined
  | VNull => Some (Text "null")
  | VBool b => Some (Text (if b then "true" else "false"))
  | VNum NaN => Some (Text "null")
  | VNum (Num z) => Some (Text (pretty z))
  | VBigInt _ => None
  | VStr s => Some (Text (json_quote s))
  | VArr l =>
      let elements :=
        (fix elements (l : list value) : option (list string) :=
           match l with
           | [] => Some []
           | x :: r =>
               match stringify x, elements r with
               | Some (Text s), Some ss => Some (s :: ss)
               | Some Undefined, Some ss => Some ("null" :: ss)
               | _, _ => None
               end
           end) l in
      match elements with
      | Some ss => Some (Text ("[" +:+ join "," ss +:+ "]"))
      | None => None
      end
  | VObj props =>
      let members :=
        (fix members (ps : list (string * value)) : option (list string) :=
           match ps with
           | [] => Some []
           | (k, x) :: r =>
               match stringify x, members r with
               | Some (Text s), Some ss => Some ((json_quote k +:+ ":" +:+ s) :: ss)
               | Some Undefined, Some ss => Some ss
               | _, _ => None
               end
           end) props in
      match members with
      | Some ss => Some (Text ("{" +:+ join "," ss +:+ "}"))
      | None => None
      end
  end.

(** [`${JSON.stringify(v)}`]. *)
Definition stringified_to_string (r : stringified) : string :=
  match r with
  | Text s => s
  | Undefined => "undefined"
  end.

End JS.

(** ** Exceptions and the state monad of the engine *)

(** An [Error] object: its message and the stack captured where it was
    created, which names the call site. *)
Record Error := mkError { message : string; stack : string }.

(** What a [throw] carries.  [SendError reason status] has [details = null];
    [STREAM_ENDED] is the sentinel, which is thrown as well as returned.
    [ERR_HTTP_INVALID_STATUS_CODE] and [ERR_SOCKET_BAD_PORT] are the
    [RangeError]s of Node for a status code and for a port, [ReadFileError]
    is what [readFileSync] throws for a file it cannot read, and
    [SecureContextError] what [createSecureServer] throws for options it
    cannot use. *)
Inductive exn :=
| ThrownError (e : Error)
| ERR_HTTP_HEADERS_SENT
| ERR_HTTP_INVALID_STATUS_CODE (status : Z)
| ERR_SOCKET_BAD_PORT
| TypeError
| URIError
| AssertionError (message : string)
| ReadFileError (path : string)
| SecureContextError
| SendError (reason : string) (status : Z)
| ThrownSTREAM_ENDED.

Inductive outcome (A : Type) :=
| Return (a : A)
| Throw (e : exn).
Arguments Return {A} a.
Arguments Throw {A} e.

(** The sentinel [STREAM_ENDED] as a returned value. *)
Inductive sentinel := STREAM_ENDED.

(** ** Node's [http.ServerResponse], as far as the engine calls it

    The contract of the response object of Node's [http] module: staged
    headers are keyed by lower-cased name; [setHeader] and [writeHead] throw
    once the head has been sent ([ERR_HTTP_HEADERS_SENT]); [writeHead] then
    checks the status, which must be from 100 to 999
    ([ERR_HTTP_INVALID_STATUS_CODE] otherwise, with nothing sent); the head is
    handed to the socket by [writeHead], or by the first [write] or [end];
    [end] closes the writable side and a [write] after it adds nothing.
    [chunks] are the chunks the engine hands to [write] and [end]; that Node
    discards them for a status that has no body (204, 304 and the statuses
    below 200) is not modelled.  Node's validation of the characters of
    header names and values is not modelled.  The response object of the
    [http2] compatibility layer names its errors differently
    ([ERR_HTTP2_HEADERS_SENT], [ERR_HTTP2_STATUS_INVALID]) and accepts a
    narrower range of statuses; it is not modelled separately. *)

Module Node.
Import JS.

Inductive BufferEncoding :=
| ascii_enc | utf8 | utf16le | ucs2 | base64 | base64url | latin1 | binary | hex.

(** A header value: [number | string | string[]]; at run time an array can
    hold a number ([appendHeader]). *)
Inductive scalar := SStr (s : string) | SNum (n : number).
Inductive header_value := One (x : scalar) | Many (l : list scalar).

Definition scalar_to_string (x : scalar) : string :=
  match x with
  | SStr s => s
  | SNum n => number_to_string n
  end.

(** [`${v}`] of a header value: an array prints its elements joined by a
    comma. *)
Definition header_value_to_string (v : header_value) : string :=
  match v with
  | One x => scalar_to_string x
  | Many l => join "," (map scalar_to_string l)
  end.

(** Truthiness of what [getHeader] returns. *)
Definition truthy_header (o : option header_value) : bool :=
  match o with
  | None => false
  | Some (One (SStr s)) => truthy_string s
  | Some (One (SNum n)) => truthy_number n
  | Some (Many _) => true
  end.

(** [OutgoingHttpHeaders]: an object, its properties in insertion order. *)
Definition OutgoingHttpHeaders := list (string * header_value).

(** [headers[k] = v]: replaces the value of an own property in place,
    or adds the property at the end. *)
Fixpoint object_set (k : string) (v : header_value) (o : OutgoingHttpHeaders)
  : OutgoingHttpHeaders :=
  match o with
  | [] => [(k, v)]
  | (k', v') :: o' =>
      if decide (k' = k) then (k, v) :: o' else (k', v') :: object_set k v o'
  end.

(** A chunk handed to [write] or [end]. *)
Record Chunk := mkChunk { data : string; encoding : option BufferEncoding }.

Record Response := mkResponse {
  headersSent : bool;
  statusCode : Z;
  staged : gmap string header_value;
  heads : list (Z * gmap string header_value);
  chunks : list Chunk;
  writableEnded : bool
}.

(** A response as the server hands it to the request listener. *)
Definition fresh : Response :=
  mkResponse false 200 ∅ [] [] false.

Definition getHeader (name : string) (r : Response) : option header_value :=
  staged r !! toLowerCase name.

Definition setHeader (name : string) (v : header_value) (r : Response)
  : outcome unit * Response :=
  if headersSent r then (Throw ERR_HTTP_HEADERS_SENT, r)
  else (Return (),
        mkResponse false (statusCode r) (<[toLowerCase name := v]> (staged r))
                   (heads r) (chunks r) (writableEnded r)).

(** The staged headers after the properties of [hs] have been set in
    order. *)
Definition merge_headers (m : gmap string header_value) (hs : OutgoingHttpHeaders)
  : gmap string header_value :=
  foldl (fun m kv => <[toLowerCase kv.1 := kv.2]> m) m hs.

(** The statuses [writeHead] accepts. *)
Definition valid_status (status : Z) : bool := (100 <=? status) && (status <=? 999).

(** What the response object keeps as staged headers after [writeHead]:
    when headers have been staged, the headers of the call are set like
    them; when none has been, the headers of the call go into the head only
    and nothing is kept. *)
Definition kept (before merged : gmap string header_value) : gmap string header_value :=
  match map_to_list before with
  | [] => before
  | _ :: _ => merged
  end.

(** [writeHead(status, headers)]: the check for a head already sent comes
    first, then the check of the status. *)
Definition writeHead (status : Z) (hs : OutgoingHttpHeaders) (r : Response)
  : outcome unit * Response :=
  if headersSent r then (Throw ERR_HTTP_HEADERS_SENT, r)
  else if negb (valid_status status) then (Throw (ERR_HTTP_INVALID_STATUS_CODE status), r)
  else
    let m := merge_headers (staged r) hs in
    (Return (),
     mkResponse true status (kept (staged r) m) (heads r ++ [(status, m)]) (chunks r)
                (writableEnded r)).

(** The head sent implicitly by the first [write] or [end]. *)
Definition implicitHeader (r : Response) : Response :=
  if headersSent r then r
  else mkResponse true (statusCode r) (staged r)
                  (heads r ++ [(statusCode r, staged r)]) (chunks r)
                  (writableEnded r).

Definition write (c : Chunk) (r : Response) : Response :=
  if writableEnded r then r
  else
    let r' := implicitHeader r in
    mkResponse (headersSent r') (statusCode r') (staged r') (heads r')
               (chunks r' ++ [c]) false.

Definition end_ (c : option Chunk) (r : Response) : Response :=
  if writableEnded r then r
  else
    let r' := implicitHeader r in
    mkResponse (headersSent r') (statusCode r') (staged r') (heads r')
               (chunks r' ++ option_list c) true.

End Node.

(** ** The host platform

    Built-in and library functions that the engine calls and whose code is
    not part of the repository: Node's [Buffer.byteLength], [trim], the WHATWG
    [URL] parser, [Date.prototype.toUTCString], the conversion of a string to
    a number ([+port]), [existsSync] and [readFileSync] of [node:fs],
    [createSecureServer] of [node:http2], and the functions of
    [@mjackson/multipart-parser]. *)

Class Platform := {
  Buffer_byteLength : string → Node.BufferEncoding → N;
  String_trim : string → string;
  URL : Type;
  (** [new URL(s)]; [None] is the [TypeError] for an invalid URL. *)
  URL_new : string → option URL;
  URL_searchParams : URL → list (string * string);
  Date : Type;
  Date_toUTCString : Date → string;
  ToNumber : string → JS.number;
  existsSync : string → bool;
  (** The content of a file; [None] when [readFileSync] throws (a directory,
      a file that cannot be read). *)
  readFileSync : string → option string;
  (** Whether [createSecureServer] returns a server: for the options the
      caller gave ([None]), or for the key and the certificate read from the
      two files; [false] when it throws (a key that is not PEM). *)
  createSecureServer : option (string * string) → bool;
  MultipartPart : Type;
  isMultipartRequestHeader : string → bool;
  (** [null] is [None]. *)
  getMultipartBoundary : string → option string;
  (** The parts found in a body with the given boundary, each with the
      chunks of its content, in stream order. *)
  parseNodeMultipartStream : list string → string → list (MultipartPart * list string)
}.

(** ** The state the engine works on *)

Section Engine.
Context `{Platform}.
Import JS.

(** A line written by [console.log] or [console.error]. *)
Inductive LogEntry :=
| LogError (e : Error)
| LogText (s : string)
| LogTrace (label : string) (status : Z) (headers : Node.OutgoingHttpHeaders)
| LogPathParamsBug (pathParams : gmap string (option string)).

(** The mutable state a method of [Streamer] can touch: the response object
    behind [this.#res], the private field [headersSentBy], the console; and
    what it reads from the process: the stack of the running call (what
    [new Error] captures), whether [process.env.DEBUG] lists [send] and
    whether [Debug.enabled("send")] holds. *)
Record World := mkWorld {
  res : Node.Response;
  headersSentBy : option Error;
  console : list LogEntry;
  callSite : string;
  env_DEBUG_send : bool;
  Debug_send : bool
}.

Definition M (A : Type) : Type := World → outcome A * World.

Definition ret {A} (a : A) : M A := λ w, (Return a, w).

Definition bind {A B} (m : M A) (f : A → M B) : M B := λ w,
  match m w with
  | (Return a, w') => f a w'
  | (Throw e, w') => (Throw e, w')
  end.

Declare Scope M_scope.
Notation "x ← y ; z" := (bind y (λ x, z))
  (at level 20, y at level 100, z at level 200, only parsing) : M_scope.
Notation "x ;; z" := (bind x (λ _, z))
  (at level 100, z at level 200, only parsing, right associativity) : M_scope.
Local Open Scope M_scope.

Definition throw {A} (e : exn) : M A := λ w, (Throw e, w).

Definition gets {A} (f : World → A) : M A := λ w, (Return (f w), w).

Definition set_headersSentBy (e : Error) : M unit := λ w,
  (Return (), mkWorld (res w) (Some e) (console w) (callSite w)
                      (env_DEBUG_send w) (Debug_send w)).

Definition console_log (l : LogEntry) : M unit := λ w,
  (Return (), mkWorld (res w) (headersSentBy w) (console w ++ [l]) (callSite w)
                      (env_DEBUG_send w) (Debug_send w)).

(** [new Error(msg)]. *)
Definition new_Error (msg : string) : M Error :=
  gets (λ w, mkError msg (callSite w)).

(** A call of a method of the response object that can throw. *)
Definition res_call {A} (f : Node.Response → outcome A * Node.Response) : M A := λ w,
  let '(o, r) := f (res w) in
  (o, mkWorld r (headersSentBy w) (console w) (callSite w)
              (env_DEBUG_send w) (Debug_send w)).

(** A call of a method of the response object that cannot. *)
Definition res_do (f : Node.Response → Node.Response) : M unit :=
  res_call (λ r, (Return (), f r)).

(** [l.forEach(f)]. *)
Fixpoint forEach {A} (f : A → M unit) (l : list A) : M unit :=
  match l with
  | [] => ret ()
  | x :: l' => f x ;; forEach f l'
  end.

(** A caller at [site] runs [m]. *)
Definition at_site {A} (site : string) (m : M A) : M A := λ w,
  m (mkWorld (res w) (headersSentBy w) (console w) site
             (env_DEBUG_send w) (Debug_send w)).

(** A world in which nothing has been sent or logged. *)
Definition initial (r : Node.Response) : World :=
  mkWorld r None [] "" false false.

(** ** [Streamer] *)

(** [Streamer.parseCookieString]. *)

(** [s.split(c)] for a separator of one character. *)
Fixpoint String_split (c : ascii) (s : string) : list string :=
  match s with
  | EmptyString => [EmptyString]
  | String x s' =>
      if decide (x = c) then EmptyString :: String_split c s'
      else
        match String_split c s' with
        | [] => [String x EmptyString]
        | p :: ps => String x p :: ps
        end
  end.

(** The body of the [forEach] of [parseCookieString]: the pair a cookie
    adds, if it has a name and a value; [URIError] when the value cannot be
    decoded. *)
Definition parseCookie (cookie : string) : outcome (list (string * string)) :=
  match String_split "=" cookie with
  | key :: (v :: vs) =>
      let value := String_trim (join "=" (v :: vs)) in
      match decodeURIComponent value with
      | Some d => Return [(String_trim key, d)]
      | None => Throw URIError
      end
  | _ => Return []
  end.

Fixpoint parseCookies (l : list string) : outcome (list (string * string)) :=
  match l with
  | [] => Return []
  | c :: l' =>
      match parseCookie c with
      | Return p =>
          match parseCookies l' with
          | Return ps => Return (p ++ ps)
          | Throw e => Throw e
          end
      | Throw e => Throw e
      end
  end.

(** The result is a [URLSearchParams]: pairs in the order of [append].
    The argument is a string by its type, so the [typeof] test passes. *)
Definition parseCookieString (cookieString : string) : outcome (list (string * string)) :=
  parseCookies (String_split ";" cookieString).

(** The request as the server hands it over. *)
Record Request := mkRequest {
  req_url : string;
  httpVersionMajor : Z;
  req_headers : gmap string string;
  req_method : option string;
  req_body : list string
}.

(** [req.headers.host = req.headers[":authority"]]. *)
Definition set_host_from_authority (h : gmap string string) : gmap string string :=
  match h !! ":authority" with
  | Some a => <["host" := a]> h
  | None => delete "host" h
  end.

(** What [parseRequest] returns.  [req] is the request after [parseRequest]
    has set its [host] header; the response object is shared with the
    caller and its state is returned beside the outcome. *)
Record ParsedRequest := mkParsedRequest {
  p_req : Request;
  p_url : string;
  p_urlInfo : URL;
  p_pathPrefix : string;
  p_expectSecure : bool;
  p_method : string;
  p_host : string;
  p_cookies : list (string * string);
  p_headers : gmap string string
}.

Definition prefix_message (pathPrefix : string) : string :=
  "The server is setup with a path prefix " +:+ pathPrefix +:+
  ", but this request is outside of that prefix.".

(** The second half of [parseRequest], from the [host] header on: [url] is
    the request URL after the prefix has been dealt with.  The thrown
    [Error]s carry no call site of interest. *)
Definition request_state (req : Request) (url pathPrefix : string) (expectSecure : bool)
  : outcome ParsedRequest :=
  let headers :=
    if 1 <? httpVersionMajor req
    then set_host_from_authority (req_headers req)
    else req_headers req in
  match headers !! "host" with
  | Some (String c h) =>
      let host := String c h in
      match req_method req with
      | Some (String c' m') =>
          match parseCookieString (default "" (headers !! "cookie")) with
          | Return cookies =>
              match URL_new ("https://" +:+ host +:+ url) with
              | Some urlInfo =>
                  Return (mkParsedRequest
                            (mkRequest (req_url req) (httpVersionMajor req)
                                       headers (req_method req) (req_body req))
                            url urlInfo pathPrefix expectSecure
                            (String c' m') host cookies headers)
              | None => Throw TypeError
              end
          | Throw e => Throw e
          end
      | _ => Throw (ThrownError (mkError "This should never happen" ""))
      end
  | _ => Throw (ThrownError (mkError "This should never happen" ""))
  end.

(** [static parseRequest(req, res, pathPrefix, expectSecure)]. *)
Definition parseRequest (req : Request) (r : Node.Response) (pathPrefix : string)
    (expectSecure : bool) : outcome ParsedRequest * Node.Response :=
  let url := req_url req in
  if negb (startsWith url "/")
  then (Throw (ThrownError (mkError "This should never happen" "")), r)
  else if truthy_string pathPrefix then
    if decide (url = pathPrefix) then
      match Node.writeHead 302 [("location", Node.One (Node.SStr (req_url req +:+ "/")))] r with
      | (Return _, r') => (Throw ThrownSTREAM_ENDED, Node.end_ None r')
      | (Throw e, r') => (Throw e, r')
      end
    else if startsWith url pathPrefix then
      (request_state req (slice url (String.length pathPrefix)) pathPrefix expectSecure, r)
    else
      match Node.writeHead 500 [] r with
      | (Return _, r') =>
          (Throw ThrownSTREAM_ENDED,
           Node.end_ (Some (Node.mkChunk (prefix_message pathPrefix) (Some Node.utf8))) r')
      | (Throw e, r') => (Throw e, r')
      end
  else (request_state req url pathPrefix expectSecure, r).

(** Modelled from the spec: [RouteMatch] is declared in [router.ts], which is
    not among the sources; it pairs a route node with the named captures the
    node contributed during matching.  A capture group that took no part in
    the match is [undefined]. *)
Record RouteMatch := mkRouteMatch {
  route : string;
  groups : gmap string (option string)
}.

(** Modelled from the spec: [BodyFormat] is declared in [router.ts] too; it
    is the tag the spec lists. *)
Inductive BodyFormat :=
| ignore | stream | buffer | string_format | json | www_form_urlencoded
| www_form_urlencoded_urlsearchparams | multipart.

(** The read-only fields of a [Streamer]; [pathParams] and [queryParams] are
    assigned by the constructor only.  A property of [pathParams] can hold
    [undefined]. *)
Record Streamer := mkStreamer {
  host : string;
  method : string;
  urlInfo : URL;
  url : string;
  headers : gmap string string;
  cookies : list (string * string);
  pathPrefix : string;
  expectSecure : bool;
  routePath : list RouteMatch;
  bodyFormat : BodyFormat;
  pathParams : gmap string (option string);
  queryParams : gmap string (list string);
  reader : list string
}.

(** [obj[k]]: a missing property reads as [undefined], like one that holds
    [undefined]. *)
Definition property (o : gmap string (option string)) (k : string) : option string :=
  mjoin (o !! k).

(** [Object.assign(n, e.groups)]: the properties of the source win. *)
Definition Object_assign (n src : gmap string (option string)) : gmap string (option string) :=
  src ∪ n.

(** [routePath.reduce((n, e) => Object.assign(n, e.groups), {})]. *)
Definition merged_groups (routePath : list RouteMatch) : gmap string (option string) :=
  foldl (λ n e, Object_assign n (groups e)) ∅ routePath.

(** Modelled from the spec: [zodDecodeURIComponent] is defined in [utils.ts],
    which is not among the sources; it is the transform that applies
    [decodeURIComponent] to a string, and a string that cannot be decoded is
    a validation issue ([None]), which makes [safeParse] fail. *)
Definition zodDecodeURIComponent (arg : string) : option string :=
  decodeURIComponent arg.

(** [zod.string().transform(zodDecodeURIComponent).optional()] on one value;
    [None] is an issue. *)
Definition parse_optional_param (v : option string) : option (option string) :=
  match v with
  | None => Some None
  | Some s => Some <$> zodDecodeURIComponent s
  end.

(** [zod.record(zod.string(), ...).safeParse(pathParams)]: [Some data] on
    success. *)
Definition safeParse_pathParams (m : gmap string (option string))
  : option (gmap string (option string)) :=
  if decide (map_Forall (λ _ v, is_Some (parse_optional_param v)) m)
  then Some (omap parse_optional_param m)
  else None.

(** [Object.fromEntries([...searchParams.keys()].map(key => [key,
    searchParams.getAll(key)]))]; its check against
    [zod.record(zod.string(), zod.array(zod.string()))] always succeeds and
    returns the same data. *)
Definition getAll (sp : list (string * string)) (key : string) : list string :=
  (filter (λ kv, kv.1 = key) sp).*2.

Definition query_of (sp : list (string * string)) : gmap string (list string) :=
  list_to_map (map (λ kv, (kv.1, getAll sp kv.1)) sp).

(** [new Streamer(request, routePath, bodyFormat)].  The constructor logs
    when the check of the path parameters fails and then keeps them as
    merged. *)
Definition new_Streamer (request : ParsedRequest) (routePath : list RouteMatch)
    (bodyFormat : BodyFormat) : M Streamer :=
  let raw := merged_groups routePath in
  pathParams ← match safeParse_pathParams raw with
               | None => console_log (LogPathParamsBug raw) ;; ret raw
               | Some data => ret data
               end;
  ret (mkStreamer (p_host request) (p_method request) (p_urlInfo request)
                   (p_url request) (p_headers request) (p_cookies request)
                   (p_pathPrefix request) (p_expectSecure request)
                   routePath bodyFormat pathParams
                   (query_of (URL_searchParams (p_urlInfo request)))
                   (req_body (p_req request))).

(** *** Reading a multipart body *)

(** The calls of the three callbacks of [readMultipartData]. *)
Inductive PartCall :=
| cbPartStart (part : MultipartPart)
| cbPartChunk (part : MultipartPart) (chunk : string)
| cbPartEnd (part : MultipartPart).

Definition part_calls (p : MultipartPart * list string) : list PartCall :=
  cbPartStart p.1 :: map (cbPartChunk p.1) p.2 ++ [cbPartEnd p.1].

(** [readMultipartData(options)]: the outcome is a [SendError], or the calls
    made to the callbacks of [options] while the parts are iterated. *)
Definition readMultipartData (this : Streamer) : outcome (list PartCall) :=
  match headers this !! "content-type" with
  | Some (String c s) =>
      let contentType := String c s in
      if negb (isMultipartRequestHeader contentType)
      then Throw (SendError "MULTIPART_INVALID_CONTENT_TYPE" 400)
      else
        match getMultipartBoundary contentType with
        | Some (String b bs) =>
            Return (concat (map part_calls
                       (parseNodeMultipartStream (reader this) (String b bs))))
        | _ => Throw (SendError "MULTIPART_MISSING_BOUNDARY" 400)
        end
  | _ => Throw (SendError "MULTIPART_INVALID_CONTENT_TYPE" 400)
  end.

(** *** Sending *)

(** [get headersSent()]. *)
Definition get_headersSent : M bool := gets (λ w, Node.headersSent (res w)).

(** [get writer()].  [this.compressor] is declared and never assigned, so
    the stream is the response object; the getter returns it after its side
    effect, and the callers below go on with the response. *)
Definition writer : M unit :=
  sent ← get_headersSent;
  by_ ← gets headersSentBy;
  if negb sent && negb (bool_decide (is_Some by_)) return M unit
  then e ← new_Error "Possible culprit was given access to the response object here.";
       set_headersSentBy e
  else ret ().

(** [checkHeadersSentBy(setError)]; the argument is not used. *)
Definition checkHeadersSentBy (setError : bool) : M unit :=
  sent ← get_headersSent;
  by_ ← gets headersSentBy;
  match sent, by_ return M unit with
  | true, Some first =>
      console_log (LogError first) ;;
      e ← new_Error "This is the second attempt to send headers. Was it supposed to happen?";
      console_log (LogError e)
  | _, _ =>
      sent' ← get_headersSent;
      if sent' : bool return M unit
      then console_log (LogText "Headers were sent by an unknown source.")
      else e ← new_Error "You appear to be sending headers more than once. The first attempt was here. Does it need to throw or return?";
           set_headersSentBy e
  end.

(** [setHeader(name, value)]. *)
Definition setHeader (name value : string) : M unit :=
  res_call (Node.setHeader name (Node.One (Node.SStr value))).

(** [writeHead(status, headers)].  Every value of [headers] is defined, so
    the test [v != null] passes; there is no compressor. *)
Definition writeHead (status : Z) (headers : Node.OutgoingHttpHeaders) : M unit :=
  debug ← gets Debug_send;
  (if debug then console_log (LogTrace "writeHead" status headers) else ret ()) ;;
  checkHeadersSentBy true ;;
  forEach (λ kv, setHeader kv.1 (Node.header_value_to_string kv.2)) headers ;;
  res_call (Node.writeHead status headers).

(** [sendEmpty(status, headers)]. *)
Definition sendEmpty (status : Z) (headers : Node.OutgoingHttpHeaders) : M sentinel :=
  debug ← gets env_DEBUG_send;
  (if debug then console_log (LogTrace "sendEmpty" status headers) else ret ()) ;;
  writeHead status headers ;;
  writer ;; res_do (Node.end_ None) ;;
  ret STREAM_ENDED.

(** [sendString(status, headers, data, encoding)].  The property
    [content-length] is set on the object the caller passed. *)
Definition sendString (this : Streamer) (status : Z) (headers : Node.OutgoingHttpHeaders)
    (data : string) (encoding : Node.BufferEncoding) : M sentinel :=
  debug ← gets env_DEBUG_send;
  (if debug then console_log (LogTrace "sendString" status headers) else ret ()) ;;
  let headers :=
    Node.object_set "content-length"
      (Node.One (Node.SNum (Num (Z.of_N (Buffer_byteLength data encoding))))) headers in
  writeHead status headers ;;
  (if decide (method this = "HEAD")
   then writer ;; res_do (Node.end_ None)
   else writer ;; res_do (Node.end_ (Some (Node.mkChunk data (Some encoding))))) ;;
  ret STREAM_ENDED.

(** *** Server-sent events *)

(** The handle [sendSSE] returns: its four functions close over
    [retryMilliseconds]. *)
Record SSE := mkSSE { retryMilliseconds : option number }.

Definition sse_headers : Node.OutgoingHttpHeaders :=
  [("content-type", Node.One (Node.SStr "text/event-stream"));
   ("cache-control", Node.One (Node.SStr "no-cache, max-age=0"));
   ("content-encoding", Node.One (Node.SStr "identity"));
   ("connection", Node.One (Node.SStr "keep-alive"));
   ("x-accel-buffering", Node.One (Node.SStr "no"))].

(** [this.writer.write(s)]. *)
Definition writer_write (s : string) : M unit :=
  writer ;; res_do (Node.write (Node.mkChunk s None)).

(** [sendSSE(retryMilliseconds)].  The argument is [undefined] ([None]) or
    any value; a value must be a number that is not below zero.  The
    subscriptions of [close] to the [exit] event and to [finish] belong to
    the event bus, which is outside this model. *)
Definition sendSSE (retry : option value) : M SSE :=
  r ← match retry return M (option number) with
      | None => ret None
      | Some (VNum NaN) => ret (Some NaN)
      | Some (VNum (Num z)) =>
          if z <? 0
          then e ← new_Error "Invalid retryMilliseconds: must be a non-negative number";
               throw (ThrownError e)
          else ret (Some (Num z))
      | Some _ =>
          e ← new_Error "Invalid retryMilliseconds: must be a non-negative number";
          throw (ThrownError e)
      end;
  writeHead 200 sse_headers ;;
  writer_write (": This page is a server-sent event stream. It will continue loading until you close it." +:+ LF) ;;
  writer_write (": https://html.spec.whatwg.org/multipage/server-sent-events.html#server-sent-events" +:+ LF) ;;
  writer_write LF ;;
  ret (mkSSE r).

(** [x && s] as an element of the array of fields: [None] is the falsy
    value that [filter(truthy)] removes. *)
Definition and_then (cond : bool) (s : string) : option string :=
  if cond then Some s else None.

(** The fields of an event, before [filter(truthy)]. *)
Definition event_fields (sse : SSE) (eventName : string) (eventData : stringified)
    (eventId : string) : list (option string) :=
  [and_then (truthy_string eventName) ("event: " +:+ eventName);
   Some ("data: " +:+ stringified_to_string eventData);
   and_then (truthy_string eventId) ("id: " +:+ eventId);
   match retryMilliseconds sse with
   | Some n => and_then (truthy_number n) ("retry: " +:+ number_to_string n)
   | None => None
   end].

(** The text [emitEvent] writes. *)
Definition event_frame (sse : SSE) (eventName : string) (eventData : stringified)
    (eventId : string) : string :=
  join LF (omap id (event_fields sse eventName eventData eventId)) +:+ LF +:+ LF.

Definition throw_Error {A} (msg : string) : M A :=
  e ← new_Error msg; throw (ThrownError e).

(** [emitEvent(eventName, eventData, eventId)]. *)
Definition emitEvent (sse : SSE) (eventName eventData eventId : value) : M unit :=
  match eventName with
  | VStr name =>
      if includes name LF then throw_Error "Event name cannot contain newlines"
      else
        match eventId with
        | VStr id_ =>
            if includes id_ LF then throw_Error "Event ID cannot contain newlines"
            else
              writer ;;
              ended ← gets (λ w, Node.writableEnded (res w));
              if ended : bool
              then throw_Error "Cannot emit event after the stream has ended"
              else
                writer ;;
                match stringify eventData with
                | Some j =>
                    res_do (Node.write (Node.mkChunk (event_frame sse name j id_) None))
                | None => throw TypeError
                end
        | _ => throw_Error "Event ID must be a string"
        end
  | _ => throw_Error "Event name must be a string (a zero-length string disables the field)"
  end.

(** [emitComment(comment)] and [close()]. *)
Definition emitComment (comment : string) : M unit :=
  writer_write (": " +:+ comment +:+ LF +:+ LF).

Definition close : M unit :=
  writer ;; res_do (Node.end_ None).

(** *** Cookies *)

Inductive SameSite := Strict | Lax | SameSiteNone.

Definition SameSite_to_string (s : SameSite) : string :=
  match s with
  | Strict => "Strict"
  | Lax => "Lax"
  | SameSiteNone => "None"
  end.

(** The options of [setCookie]; an absent property is [None]. *)
Record CookieOptions := mkCookieOptions {
  domain : option string;
  path : option string;
  expires : option Date;
  maxAge : option number;
  secure : option bool;
  httpOnly : option bool;
  sameSite : option SameSite
}.

(** An attribute is added when its option is truthy; a [Date] is an object
    and always is. *)
Definition attribute {A} (o : option A) (truthy : A → bool) (text : A → string) : string :=
  match o with
  | Some a => if truthy a then text a else ""
  | None => ""
  end.

(** The string [setCookie] builds. *)
Definition cookie_string (name value : string) (options : CookieOptions) : string :=
  name +:+ "=" +:+ encodeURIComponent value
  +:+ attribute (domain options) truthy_string (λ d, "; Domain=" +:+ d)
  +:+ attribute (path options) truthy_string (λ p, "; Path=" +:+ p)
  +:+ attribute (expires options) (λ _, true) (λ d, "; Expires=" +:+ Date_toUTCString d)
  +:+ attribute (maxAge options) truthy_number (λ n, "; Max-Age=" +:+ number_to_string n)
  +:+ attribute (secure options) id (λ _, "; Secure")
  +:+ attribute (httpOnly options) id (λ _, "; HttpOnly")
  +:+ attribute (sameSite options) (λ _, true) (λ s, "; SameSite=" +:+ SameSite_to_string s).

(** [appendHeader(name, value)]. *)
Definition appendHeader (name value : string) : M unit :=
  current ← gets (λ w, Node.getHeader name (res w));
  res_call (Node.setHeader name
    (if Node.truthy_header current
     then match current with
          | Some (Node.Many l) => Node.Many (l ++ [Node.SStr value])
          | Some (Node.One x) => Node.Many [x; Node.SStr value]
          | None => Node.One (Node.SStr value)
          end
     else Node.One (Node.SStr value))).

(** [setCookie(name, value, options)]. *)
Definition setCookie (name value : string) (options : CookieOptions) : M unit :=
  appendHeader "Set-Cookie" (cookie_string name value options).

(** *** The other single-shot senders *)

(** [sendBuffer(status, headers, data)]; a [Buffer] is the string of its
    bytes. *)
Definition sendBuffer (this : Streamer) (status : Z) (headers : Node.OutgoingHttpHeaders)
    (data : string) : M sentinel :=
  debug ← gets env_DEBUG_send;
  (if debug then console_log (LogTrace "sendBuffer" status headers) else ret ()) ;;
  let headers :=
    Node.object_set "content-length"
      (Node.One (Node.SNum (Num (Z.of_nat (String.length data))))) headers in
  writeHead status headers ;;
  (if decide (method this = "HEAD")
   then writer ;; res_do (Node.end_ None)
   else writer ;; res_do (Node.end_ (Some (Node.mkChunk data None)))) ;;
  ret STREAM_ENDED.

(** [sendSimple(status, msg)]. *)
Definition sendSimple (this : Streamer) (status : Z) (msg : string) : M sentinel :=
  sendString this status [("content-type", Node.One (Node.SStr "text/plain"))] msg Node.utf8.

(** [sendJSON(status, obj)].  [JSON.stringify] can throw, and can return
    [undefined], for which [Buffer.byteLength] throws a [TypeError] after the
    trace line of [sendString]. *)
Definition sendJSON (this : Streamer) (status : Z) (obj : value) : M sentinel :=
  match stringify obj with
  | None => throw TypeError
  | Some (Text s) =>
      sendString this status [("content-type", Node.One (Node.SStr "application/json"))]
        s Node.utf8
  | Some Undefined =>
      debug ← gets env_DEBUG_send;
      (if debug
       then console_log (LogTrace "sendString" status
              [("content-type", Node.One (Node.SStr "application/json"))])
       else ret ()) ;;
      throw TypeError
  end.

(** [redirect(location)]. *)
Definition redirect (this : Streamer) (location : string) : M sentinel :=
  sendEmpty 302 [("Location", Node.One (Node.SStr (pathPrefix this +:+ location)))].

(** [end()]. *)
Definition Streamer_end : M sentinel :=
  writer ;; res_do (Node.end_ None) ;; ret STREAM_ENDED.

End Engine.

(** ** Listeners ([listeners.ts]) and [startListening] ([index.ts]) *)

Module Listeners.
Section WithPlatform.
Context `{Platform}.
Import JS.

(** [String.prototype.endsWith]. *)
Fixpoint endsWith (s suffix : string) : bool :=
  (if decide (s = suffix) then true else false) ||
  match s with
  | EmptyString => false
  | String _ s' => endsWith s' suffix
  end.

(** The object given as [secureServerOptions]. *)
Inductive SecureServerOptions := secure_server_options.

(** [ListenOptions]. *)
Record ListenOptions := mkListenOptions {
  port : string;
  host : string;
  prefix : string;
  secure : bool;
  secureServerOptions : option SecureServerOptions;
  key : option string;
  cert : option string;
  redirect : option Z
}.

(** [Partial<ListenOptions>], an element of the argument of
    [startListening]; an absent property is [None]. *)
Record PartialListenOptions := mkPartialListenOptions {
  o_port : option string;
  o_host : option string;
  o_prefix : option string;
  o_key : option string;
  o_cert : option string;
  o_secureServerOptions : option SecureServerOptions;
  o_secure : option bool;
  o_redirect : option Z
}.

(** A call of [server.listen(port, host)] that Node accepted;
    [server.listen(undefined, host)] lets the operating system choose the
    port. *)
Inductive ListenCall := listen (port : option number) (host : string).

(** The ports [server.listen] accepts. *)
Definition valid_port (n : Z) : bool := (0 <=? n) && (n <=? 65535).

(** [server.listen(port, host)]: Node checks the port before it binds and
    throws [ERR_SOCKET_BAD_PORT] for a number that is not an integer from 0
    to 65535.  What goes wrong later (the address is in use) arrives as an
    [error] event, after the constructor has returned. *)
Definition server_listen (port : option number) (host : string) : outcome ListenCall :=
  match port with
  | None => Return (listen None host)
  | Some (Num n) =>
      if valid_port n then Return (listen (Some (Num n)) host)
      else Throw ERR_SOCKET_BAD_PORT
  | Some NaN => Throw ERR_SOCKET_BAD_PORT
  end.

(** The end of the constructor of [ListenerBase]: the call of
    [server.listen]. *)
Definition ListenerBase_listen (options : ListenOptions) : outcome ListenCall :=
  if decide (port options = "0") then server_listen None (host options)
  else if truthy_string (port options) && truthy_number (ToNumber (port options))
  then server_listen (Some (ToNumber (port options))) (host options)
  else server_listen (Some (Num 8080)) (host options).

Inductive Protocol := HTTP | HTTPS.

(** A listener: [bindInfo], [options], and the call its constructor made. *)
Record Listener := mkListener {
  protocol : Protocol;
  bindInfo : string;
  options : ListenOptions;
  listening : ListenCall
}.

Definition bind_info (label : string) (config : ListenOptions) : string :=
  label +:+ " " +:+ host config +:+ " " +:+ port config +:+ " " +:+ prefix config.

(** [super(server, router, bindInfo, config)]: the listener exists when
    [server.listen] has returned. *)
Definition new_ListenerBase (protocol : Protocol) (bindInfo : string)
    (config : ListenOptions) : outcome Listener :=
  match ListenerBase_listen config with
  | Return call => Return (mkListener protocol bindInfo config call)
  | Throw e => Throw e
  end.

(** [new ListenerHTTP(router, config)]; [createServer()] does not throw. *)
Definition new_ListenerHTTP (config : ListenOptions) : outcome Listener :=
  new_ListenerBase HTTP (bind_info "HTTP" config) config.

Definition file_found (path : option string) : bool :=
  match path with
  | Some p => truthy_string p && existsSync p
  | None => false
  end.

(** [new ListenerHTTPS(router, config)]: without [secureServerOptions] the
    key and the certificate are read from files that must exist; then
    [createSecureServer] is called with the options, and only then the
    constructor of [ListenerBase]. *)
Definition new_ListenerHTTPS (config : ListenOptions) : outcome Listener :=
  let made (options : option (string * string)) :=
    if createSecureServer options
    then new_ListenerBase HTTPS (bind_info "HTTPS" config) config
    else Throw SecureContextError in
  match secureServerOptions config with
  | Some _ => made None
  | None =>
      if negb (file_found (key config))
      then Throw (AssertionError ("Key file not found at " +:+ default "undefined" (key config)))
      else if negb (file_found (cert config))
      then Throw (AssertionError ("Cert file not found at " +:+ default "undefined" (cert config)))
      else
        match readFileSync (default "" (key config)) with
        | None => Throw (ReadFileError (default "" (key config)))
        | Some key_ =>
            match readFileSync (default "" (cert config)) with
            | None => Throw (ReadFileError (default "" (cert config)))
            | Some cert_ => made (Some (key_, cert_))
            end
        end
  end.

(** [listenOptionsCheck] on one element: the prefix becomes [prefix || ""]
    and must start with a slash unless it is empty, and must not end with
    one; the other properties are checked by their types. *)
Definition check_prefix (p : option string) : option string :=
  let p := default "" p in
  if (negb (truthy_string p) || startsWith p "/") && negb (endsWith p "/")
  then Some p else None.

Definition truthy_option_string (o : option string) : bool :=
  match o with
  | Some s => truthy_string s
  | None => false
  end.

(** The body of the [map] of [startListening], for an element whose prefix
    has been checked; [env_PORT] is [process.env.PORT]. *)
Definition startListener (env_PORT : option string) (e : PartialListenOptions)
    (e_prefix : string) : outcome Listener :=
  if negb (Bool.eqb (negb (truthy_option_string (o_key e)))
                    (negb (truthy_option_string (o_cert e))))
  then Throw (ThrownError (mkError "Both key and cert are required for HTTPS" ""))
  else
    let options2 :=
      mkListenOptions
        (default (default "8080" env_PORT) (o_port e))
        (default "localhost" (o_host e))
        e_prefix
        (default false (o_secure e))
        (o_secureServerOptions e) (o_key e) (o_cert e) (o_redirect e) in
    if bool_decide (is_Some (o_secureServerOptions e)) ||
       (truthy_option_string (o_key e) && truthy_option_string (o_cert e))
    then new_ListenerHTTPS options2
    else new_ListenerHTTP options2.

Fixpoint startListeners (env_PORT : option string)
    (l : list (PartialListenOptions * string)) : outcome (list Listener) :=
  match l with
  | [] => Return []
  | (e, p) :: l' =>
      match startListener env_PORT e p with
      | Return x =>
          match startListeners env_PORT l' with
          | Return xs => Return (x :: xs)
          | Throw err => Throw err
          end
      | Throw err => Throw err
      end
  end.

(** [startListening(router, options)].  The message of the error for
    options that fail the check ends with the rendered issues, which are
    left out. *)
Definition startListening (env_PORT : option string) (options : list PartialListenOptions)
  : outcome (list Listener) :=
  match mapM (λ e, pair e <$> check_prefix (o_prefix e)) options with
  | None => Throw (ThrownError (mkError "Invalid listener options: " ""))
  | Some checked => startListeners env_PORT checked
  end.

End WithPlatform.
End Listeners.

(** ** A platform to evaluate on

    Stand-ins for the functions of the host, exact on ASCII text and on
    decimal integer literals: [trim] removes ASCII white space, [ToNumber]
    reads an optionally signed decimal integer (the empty string is [0],
    anything else [NaN]), the byte length is that of the UTF-8 form, a
    content type is multipart when it starts with [multipart/], and its
    boundary is what follows [boundary=] up to the next semicolon.  The URL
    parser accepts every string, and its search parameters are the pairs
    between the first question mark and the fragment, split at [&] and at
    the first [=], without decoding.  No file exists, and
    [createSecureServer] accepts its options. *)

Module Sample.
Import JS.

Definition is_space (c : ascii) : bool :=
  let n := nat_of_ascii c in
  ((n =? 32) || ((9 <=? n) && (n <=? 13)))%nat.

Fixpoint trim_start (s : string) : string :=
  match s with
  | String c s' => if is_space c then trim_start s' else s
  | EmptyString => EmptyString
  end.

Definition trim (s : string) : string :=
  String.rev (trim_start (String.rev (trim_start s))).

Fixpoint digits (s : string) (acc : Z) : option Z :=
  match s with
  | EmptyString => Some acc
  | String c s' =>
      let n := Z.of_nat (nat_of_ascii c) in
      if (48 <=? n) && (n <=? 57) then digits s' (10 * acc + (n - 48)) else None
  end.

Definition to_number (s : string) : number :=
  match trim s with
  | EmptyString => Num 0
  | String "-" (String c r) => from_option (λ z, Num (- z)) NaN (digits (String c r) 0)
  | String "+" (String c r) => from_option Num NaN (digits (String c r) 0)
  | String "-" EmptyString | String "+" EmptyString => NaN
  | t => from_option Num NaN (digits t 0)
  end.

Fixpoint until_semicolon (s : string) : string :=
  match s with
  | EmptyString => EmptyString
  | String c s' => if decide (c = ";"%char) then EmptyString else String c (until_semicolon s')
  end.

Fixpoint boundary_of (s : string) : option string :=
  if String.prefix "boundary=" s
  then match until_semicolon (slice s 9) with
       | EmptyString => None
       | b => Some b
       end
  else match s with
       | EmptyString => None
       | String _ s' => boundary_of s'
       end.

(** What follows the first [c] in [s]; the empty string when there is
    none. *)
Fixpoint after (c : ascii) (s : string) : string :=
  match s with
  | EmptyString => EmptyString
  | String x s' => if decide (x = c) then s' else after c s'
  end.

(** What precedes the first [c] in [s]; all of [s] when there is none. *)
Fixpoint before (c : ascii) (s : string) : string :=
  match s with
  | EmptyString => EmptyString
  | String x s' => if decide (x = c) then EmptyString else String x (before c s')
  end.

Definition search_params (url : string) : list (string * string) :=
  omap (λ pair, match pair with
                | EmptyString => None
                | _ => Some (before "=" pair, after "=" pair)
                end)
       (String_split "&" (before "#" (after "?" url))).

#[export] Instance platform : Platform := {|
  Buffer_byteLength := λ s _, N.of_nat (String.length s);
  String_trim := trim;
  URL := string;
  URL_new := Some;
  URL_searchParams := search_params;
  Date := string;
  Date_toUTCString := id;
  ToNumber := to_number;
  existsSync := λ _, false;
  readFileSync := λ _, None;
  createSecureServer := λ _, true;
  MultipartPart := string;
  isMultipartRequestHeader := λ s, startsWith (toLowerCase s) "multipart/";
  getMultipartBoundary := boundary_of;
  parseNodeMultipartStream := λ _ _, []
|}.

End Sample.

(** * Properties *)

Import JS.

(** ** Facts about strings *)

Lemma append_cons (c : ascii) (s t : string) :
  String c s +:+ t = String c (s +:+ t).
Proof. reflexivity. Qed.

Lemma startsWith_app (p rest : string) : startsWith (p +:+ rest) p = true.
Proof.
  unfold startsWith. induction p as [|c p IH]; simpl.
  - by destruct rest.
  - destruct (ascii_dec c c); [exact IH | congruence].
Qed.

Lemma startsWith_slice (s p : string) :
  startsWith s p = true → s = p +:+ slice s (String.length p).
Proof.
  unfold startsWith. revert s.
  induction p as [|c p IH]; intros [|d s] Hp; simpl in *; try done.
  destruct (ascii_dec c d) as [->|]; [|done].
  rewrite append_cons. f_equal. by apply IH.
Qed.

Lemma slice_app (p rest : string) : slice (p +:+ rest) (String.length p) = rest.
Proof. induction p as [|c p IH]; [by destruct rest | exact IH]. Qed.

Lemma truthy_string_ne (s : string) : truthy_string s = true ↔ s ≠ "".
Proof. destruct s; simpl; split; intros; congruence. Qed.

Lemma app_empty_r (s : string) : s +:+ "" = s.
Proof. induction s as [|c s IH]; [done|]. by rewrite append_cons, IH. Qed.

Lemma append_assoc (s t u : string) : (s +:+ t) +:+ u = s +:+ (t +:+ u).
Proof. induction s as [|c s IH]; [done|]. by rewrite !append_cons, IH. Qed.

(** ** Facts about the response object *)

Lemma Node_writeHead_unsent status hs r :
  Node.headersSent r = false →
  Node.valid_status status = true →
  Node.writeHead status hs r =
  (Return (),
   Node.mkResponse true status
     (Node.kept (Node.staged r) (Node.merge_headers (Node.staged r) hs))
     (Node.heads r ++ [(status, Node.merge_headers (Node.staged r) hs)])
     (Node.chunks r) (Node.writableEnded r)).
Proof. intros Hs Hv. unfold Node.writeHead. by rewrite Hs, Hv. Qed.

Lemma Node_writeHead_invalid status hs r :
  Node.headersSent r = false →
  Node.valid_status status = false →
  Node.writeHead status hs r = (Throw (ERR_HTTP_INVALID_STATUS_CODE status), r).
Proof. intros Hs Hv. unfold Node.writeHead. by rewrite Hs, Hv. Qed.

Lemma valid_status_range status :
  Node.valid_status status = true ↔ 100 ≤ status ≤ 999.
Proof. unfold Node.valid_status. rewrite andb_true_iff, !Z.leb_le. done. Qed.

Lemma kept_same (m : gmap string Node.header_value) : Node.kept m m = m.
Proof. unfold Node.kept. by destruct (map_to_list m). Qed.

Lemma kept_staged (before m : gmap string Node.header_value) :
  before ≠ ∅ → Node.kept before m = m.
Proof.
  intros Hne. unfold Node.kept.
  destruct (map_to_list before) eqn:Hl; [|done].
  by apply map_to_list_empty_iff in Hl.
Qed.

Lemma Node_writeHead_sent status hs r :
  Node.headersSent r = true →
  Node.writeHead status hs r = (Throw ERR_HTTP_HEADERS_SENT, r).
Proof. intros Hs. unfold Node.writeHead. by rewrite Hs. Qed.

Lemma Node_end_sent c r :
  Node.headersSent r = true → Node.writableEnded r = false →
  Node.end_ c r =
  Node.mkResponse true (Node.statusCode r) (Node.staged r) (Node.heads r)
    (Node.chunks r ++ option_list c) true.
Proof.
  destruct r; simpl. intros -> ->. reflexivity.
Qed.

Section Properties.
Context `{Platform}.

(** The requests [request_state] accepts. *)
Definition acceptable (req : Request) (url : string) : Prop :=
  let headers :=
    if 1 <? httpVersionMajor req
    then set_host_from_authority (req_headers req)
    else req_headers req in
  (∃ h, headers !! "host" = Some h ∧ h ≠ "") ∧
  (∃ m, req_method req = Some m ∧ m ≠ "") ∧
  (∃ c, parseCookieString (default "" (headers !! "cookie")) = Return c) ∧
  (∀ h, headers !! "host" = Some h → is_Some (URL_new ("https://" +:+ h +:+ url))).

Lemma request_state_url req url pathPrefix expectSecure st :
  request_state req url pathPrefix expectSecure = Return st →
  p_url st = url ∧ p_pathPrefix st = pathPrefix.
Proof.
  unfold request_state. intros Hst.
  repeat case_match; try discriminate.
  all: by injection Hst as <-.
Qed.

Lemma parseCookie_throws c e : parseCookie c = Throw e → e = URIError.
Proof. unfold parseCookie. repeat case_match; congruence. Qed.

Lemma parseCookies_throws l e : parseCookies l = Throw e → e = URIError.
Proof.
  induction l as [|c l IH]; simpl; [done|].
  destruct (parseCookie c) eqn:Hc.
  - destruct (parseCookies l); [done|]. intros [= ->]. by apply IH.
  - intros [= ->]. by eapply parseCookie_throws.
Qed.

Lemma request_state_not_ended req url pathPrefix expectSecure :
  request_state req url pathPrefix expectSecure ≠ Throw ThrownSTREAM_ENDED.
Proof.
  unfold request_state, parseCookieString.
  repeat case_match; try discriminate.
  all: intros [= ->].
  all: match goal with Hc : parseCookies _ = Throw _ |- _ =>
         by apply parseCookies_throws in Hc end.
Qed.

Lemma request_state_returns req url pathPrefix expectSecure :
  acceptable req url → ∃ st, request_state req url pathPrefix expectSecure = Return st.
Proof.
  unfold acceptable, request_state.
  intros ([h [Hh Hne]] & [m [Hm Hmne]] & [c Hc] & Hurl).
  rewrite Hh, Hm, Hc. specialize (Hurl h Hh) as [u Hu].
  destruct h; [done|]. destruct m; [done|]. rewrite Hu. eauto.
Qed.

(** C1.  A request whose URL begins with a slash, under a non-empty path
    prefix and on a response that has sent nothing, has exactly one of three
    outcomes.  The URL is the prefix: the request ends with one head of
    status 302 whose [location] is the prefix followed by a slash, and no
    body.  The URL is the prefix followed by more: the response is left
    alone, and the state that results has that remainder as its url (a state
    does result for an acceptable request).  The URL does not start with the
    prefix: the request ends with one head of status 500 and the body
    [The server is setup with a path prefix <prefix>, but this request is
    outside of that prefix.] in UTF-8.  In the first and the last case
    nothing is routed: the sentinel is thrown. *)
Theorem parseRequest_prefix (req : Request) (r : Node.Response)
    (pathPrefix : string) (expectSecure : bool) :
  pathPrefix ≠ "" →
  startsWith (req_url req) "/" = true →
  Node.headersSent r = false →
  Node.writableEnded r = false →
  let result := parseRequest req r pathPrefix expectSecure in
  (req_url req = pathPrefix ∧
   result =
     (Throw ThrownSTREAM_ENDED,
      let head :=
        <["location" := Node.One (Node.SStr (pathPrefix +:+ "/"))]> (Node.staged r) in
      Node.mkResponse true 302 (Node.kept (Node.staged r) head)
        (Node.heads r ++ [(302, head)]) (Node.chunks r) true))
  ∨ (∃ rest, rest ≠ "" ∧ req_url req = pathPrefix +:+ rest ∧
       result.2 = r ∧
       result.1 ≠ Throw ThrownSTREAM_ENDED ∧
       (∀ st, result.1 = Return st → p_url st = rest) ∧
       (acceptable req rest → ∃ st, result.1 = Return st))
  ∨ (startsWith (req_url req) pathPrefix = false ∧
     result =
       (Throw ThrownSTREAM_ENDED,
        Node.mkResponse true 500 (Node.staged r)
          (Node.heads r ++ [(500, Node.staged r)])
          (Node.chunks r ++
           [Node.mkChunk
              ("The server is setup with a path prefix " +:+ pathPrefix +:+
               ", but this request is outside of that prefix.")
              (Some Node.utf8)])
          true)).
Proof.
  intros Hne Hslash Hsent Hended result. subst result. unfold parseRequest.
  rewrite Hslash. simpl negb. cbv iota.
  apply truthy_string_ne in Hne as Htruthy. rewrite Htruthy.
  destruct (decide (req_url req = pathPrefix)) as [Heq|Hneq].
  - left. split; [done|].
    rewrite Node_writeHead_unsent by done.
    rewrite Node_end_sent by done.
    rewrite Heq. cbn [option_list Node.chunks Node.statusCode Node.staged Node.heads].
    by rewrite app_nil_r.
  - destruct (startsWith (req_url req) pathPrefix) eqn:Hstart.
    + right. left. apply startsWith_slice in Hstart as Hurl.
      exists (slice (req_url req) (String.length pathPrefix)).
      simpl. split_and!; try done.
      * intros Hempty. rewrite Hempty, app_empty_r in Hurl. done.
      * apply request_state_not_ended.
      * intros st Hst. by apply request_state_url in Hst as [? ?].
      * apply request_state_returns.
    + right. right. split; [done|].
      rewrite Node_writeHead_unsent by done.
      rewrite Node_end_sent by done.
      cbn [option_list Node.chunks Node.statusCode Node.staged Node.heads].
      unfold Node.merge_headers. cbn [foldl]. by rewrite kept_same.
Qed.


(** ** The discipline of the response head *)

(** What a handler can do with a [Streamer] and the handle of an event
    stream. *)
Inductive Call :=
| call_writeHead (status : Z) (headers : Node.OutgoingHttpHeaders)
| call_sendEmpty (status : Z) (headers : Node.OutgoingHttpHeaders)
| call_sendString (this : Streamer) (status : Z) (headers : Node.OutgoingHttpHeaders)
    (data : string) (encoding : Node.BufferEncoding)
| call_sendSSE (retry : option value)
| call_emitEvent (sse : SSE) (eventName eventData eventId : value)
| call_emitComment (comment : string)
| call_close
| call_setHeader (name value : string)
| call_appendHeader (name value : string)
| call_setCookie (name value : string) (options : CookieOptions)
| call_writer_write (s : string).

(** The world after a call made at [site]; what the call returns or throws
    is left to the caller. *)
Definition perform (site : string) (c : Call) (w : World) : World :=
  match c with
  | call_writeHead status headers => (at_site site (writeHead status headers) w).2
  | call_sendEmpty status headers => (at_site site (sendEmpty status headers) w).2
  | call_sendString this status headers data encoding =>
      (at_site site (sendString this status headers data encoding) w).2
  | call_sendSSE retry => (at_site site (sendSSE retry) w).2
  | call_emitEvent sse n d i => (at_site site (emitEvent sse n d i) w).2
  | call_emitComment comment => (at_site site (emitComment comment) w).2
  | call_close => (at_site site close w).2
  | call_setHeader name value => (at_site site (setHeader name value) w).2
  | call_appendHeader name value => (at_site site (appendHeader name value) w).2
  | call_setCookie name value options => (at_site site (setCookie name value options) w).2
  | call_writer_write s => (at_site site (writer_write s) w).2
  end.

Definition run (calls : list (string * Call)) (w : World) : World :=
  foldl (λ w sc, perform sc.1 sc.2 w) w calls.

(** The worlds passed through, the first one included. *)
Fixpoint worlds (calls : list (string * Call)) (w : World) : list World :=
  match calls with
  | [] => [w]
  | sc :: calls' => w :: worlds calls' (perform sc.1 sc.2 w)
  end.

(** How often a flag goes from [false] to [true]. *)
Fixpoint rises (l : list bool) : nat :=
  match l with
  | a :: (b :: _) as t => (if negb a && b then 1 else 0) + rises t
  | _ => 0
  end.

(** One step of the response object. *)
Inductive node_step : Node.Response → Node.Response → Prop :=
| step_setHeader n v r : node_step r (Node.setHeader n v r).2
| step_writeHead s hs r : node_step r (Node.writeHead s hs r).2
| step_write c r : node_step r (Node.write c r)
| step_end c r : node_step r (Node.end_ c r).

(** A property of the world that the engine cannot break: it survives a
    line on the console, a change of call site, a step of the response
    object, and the recording of a call site while the head is unsent. *)
Record Stable (P : World → Prop) : Prop := {
  stable_console : ∀ r b c s e d l, P (mkWorld r b c s e d) → P (mkWorld r b l s e d);
  stable_site : ∀ r b c s e d s', P (mkWorld r b c s e d) → P (mkWorld r b c s' e d);
  stable_node : ∀ r b c s e d r',
    node_step r r' → P (mkWorld r b c s e d) → P (mkWorld r' b c s e d);
  stable_sentBy : ∀ r b c s e d x,
    Node.headersSent r = false → P (mkWorld r b c s e d) → P (mkWorld r (Some x) c s e d)
}.

Definition preserved {A} (P : World → Prop) (m : M A) : Prop :=
  ∀ w, P w → P (m w).2.

Section Preservation.
Variable P : World → Prop.
Hypothesis HP : Stable P.

Lemma preserved_ret {A} (a : A) : preserved P (ret a).
Proof. by intros w. Qed.

Lemma preserved_throw {A} e : preserved P (throw (A:=A) e).
Proof. by intros w. Qed.

Lemma preserved_gets {A} (f : World → A) : preserved P (gets f).
Proof. by intros w. Qed.

Lemma preserved_bind {A B} (m : M A) (f : A → M B) :
  preserved P m → (∀ a, preserved P (f a)) → preserved P (bind m f).
Proof.
  intros Hm Hf w Hw. unfold bind. specialize (Hm w Hw).
  destruct (m w) as [[a|e] w']; simpl in *; [by apply Hf | done].
Qed.

Lemma preserved_console_log l : preserved P (console_log l).
Proof. intros [r b c s e d] Hw. simpl. by eapply stable_console. Qed.

Lemma preserved_new_Error msg : preserved P (new_Error msg).
Proof. apply preserved_gets. Qed.

Lemma preserved_throw_Error {A} msg : preserved P (throw_Error (A:=A) msg).
Proof.
  apply preserved_bind; [apply preserved_new_Error | intros; apply preserved_throw].
Qed.

Lemma preserved_res_call {A} (f : Node.Response → outcome A * Node.Response) :
  (∀ r, node_step r (f r).2) → preserved P (res_call f).
Proof.
  intros Hf [r b c s e d] Hw. unfold res_call. simpl.
  specialize (Hf r). destruct (f r) as [o r']. simpl in *.
  by eapply stable_node.
Qed.

Lemma preserved_res_do f :
  (∀ r, node_step r (f r)) → preserved P (res_do f).
Proof. intros Hf. by apply preserved_res_call. Qed.

Lemma preserved_forEach {A} (f : A → M unit) l :
  (∀ a, preserved P (f a)) → preserved P (forEach f l).
Proof.
  intros Hf. induction l as [|a l IH]; simpl.
  - apply preserved_ret.
  - apply preserved_bind; [apply Hf | intros _; apply IH].
Qed.

Lemma preserved_at_site {A} site (m : M A) : preserved P m → preserved P (at_site site m).
Proof.
  intros Hm [r b c s e d] Hw. unfold at_site. simpl.
  apply Hm. by eapply stable_site.
Qed.

Lemma preserved_writer : preserved P writer.
Proof.
  intros [r b c s e d] Hw.
  unfold writer, bind, get_headersSent, gets, new_Error, set_headersSentBy, ret. simpl.
  destruct (Node.headersSent r) eqn:Hs, b as [x|]; simpl; try done.
  by eapply stable_sentBy.
Qed.

Lemma preserved_checkHeadersSentBy b : preserved P (checkHeadersSentBy b).
Proof.
  intros [r by_ c s e d] Hw.
  unfold checkHeadersSentBy, bind, get_headersSent, gets, new_Error,
    set_headersSentBy, console_log, ret. simpl.
  destruct (Node.headersSent r) eqn:Hs, by_ as [x|]; simpl; rewrite ?Hs; simpl.
  - by eapply stable_console.
  - by eapply stable_console.
  - by eapply stable_sentBy.
  - by eapply stable_sentBy.
Qed.

Lemma preserved_setHeader n v : preserved P (setHeader n v).
Proof. apply preserved_res_call. intros r. constructor. Qed.

Lemma preserved_if {A} (b : bool) (m1 m2 : M A) :
  preserved P m1 → preserved P m2 → preserved P (if b then m1 else m2).
Proof. by destruct b. Qed.

Lemma preserved_writeHead status headers : preserved P (writeHead status headers).
Proof.
  unfold writeHead.
  repeat first
    [ apply preserved_checkHeadersSentBy
    | apply preserved_forEach; intros; apply preserved_setHeader
    | apply preserved_res_call; intros; constructor
    | apply preserved_gets | apply preserved_console_log | apply preserved_ret
    | apply preserved_if
    | apply preserved_bind; intros ].
Qed.

Lemma preserved_writer_write s : preserved P (writer_write s).
Proof.
  apply preserved_bind; [apply preserved_writer|intros _].
  apply preserved_res_do. intros r. constructor.
Qed.

Lemma preserved_close : preserved P close.
Proof.
  apply preserved_bind; [apply preserved_writer|intros _].
  apply preserved_res_do. intros r. constructor.
Qed.

Lemma preserved_appendHeader n v : preserved P (appendHeader n v).
Proof.
  apply preserved_bind; [apply preserved_gets|intros cur].
  apply preserved_res_call. intros r. constructor.
Qed.

Local Ltac step :=
  first
    [ apply preserved_writeHead | apply preserved_writer
    | apply preserved_writer_write | apply preserved_close
    | apply preserved_appendHeader | apply preserved_setHeader
    | apply preserved_throw_Error | apply preserved_new_Error
    | apply preserved_res_do; intros; constructor
    | apply preserved_gets | apply preserved_console_log | apply preserved_ret
    | apply preserved_throw
    | apply preserved_if
    | apply preserved_bind; intros ].

Lemma preserved_sendEmpty status headers : preserved P (sendEmpty status headers).
Proof. unfold sendEmpty. repeat step. Qed.

Lemma preserved_sendString this status headers data encoding :
  preserved P (sendString this status headers data encoding).
Proof. unfold sendString. repeat step. destruct (decide _); repeat step. Qed.

Lemma preserved_sendSSE retry : preserved P (sendSSE retry).
Proof.
  unfold sendSSE. step; [|repeat step].
  destruct retry as [[| | |[|z]| | | |]|]; repeat step.
Qed.

Lemma preserved_emitEvent sse n d i : preserved P (emitEvent sse n d i).
Proof.
  unfold emitEvent. destruct n; try apply preserved_throw_Error.
  step; [step|]. destruct i; try apply preserved_throw_Error.
  repeat step. destruct (stringify d); repeat step.
Qed.

Lemma perform_preserved site c w : P w → P (perform site c w).
Proof.
  destruct c; simpl; apply preserved_at_site.
  - apply preserved_writeHead.
  - apply preserved_sendEmpty.
  - apply preserved_sendString.
  - apply preserved_sendSSE.
  - apply preserved_emitEvent.
  - apply preserved_writer_write.
  - apply preserved_close.
  - apply preserved_setHeader.
  - apply preserved_appendHeader.
  - apply preserved_appendHeader.
  - apply preserved_writer_write.
Qed.

Lemma run_preserved calls w : P w → P (run calls w).
Proof.
  revert w. induction calls as [|sc calls IH]; intros w Hw; [done|].
  simpl. apply IH. by apply perform_preserved.
Qed.

End Preservation.


(** Three properties of this kind: the head has been sent; the head has been
    sent, the recorded call site is [x], the heads handed to the socket are
    [hd] and tracing is [d]; the number of heads handed to the socket is one
    when the head has been sent and zero before. *)
Definition head_sent (w : World) : Prop := Node.headersSent (res w) = true.

Definition settled (x : option Error) (hd : list (Z * gmap string Node.header_value))
    (d : bool) (w : World) : Prop :=
  Node.headersSent (res w) = true ∧ headersSentBy w = x ∧
  Node.heads (res w) = hd ∧ Debug_send w = d.

Definition heads_counted (w : World) : Prop :=
  length (Node.heads (res w)) = if Node.headersSent (res w) then 1%nat else 0%nat.

Lemma node_step_sent r r' :
  node_step r r' → Node.headersSent r = true →
  Node.headersSent r' = true ∧ Node.heads r' = Node.heads r.
Proof.
  intros Hstep Hs. destruct Hstep as [n v r|st hs r|c r|c r]; destruct r; simpl in *; subst.
  - done.
  - done.
  - unfold Node.write. simpl. by destruct writableEnded.
  - unfold Node.end_. simpl. by destruct writableEnded.
Qed.

Lemma node_step_counted r r' :
  node_step r r' →
  length (Node.heads r) = (if Node.headersSent r then 1%nat else 0%nat) →
  length (Node.heads r') = (if Node.headersSent r' then 1%nat else 0%nat).
Proof.
  intros Hstep. destruct (Node.headersSent r) eqn:Hs.
  - destruct (node_step_sent _ _ Hstep Hs) as [-> ->]. done.
  - intros Hlen. destruct Hstep as [n v r|st hs r|c r|c r];
      destruct r; simpl in *; subst; simpl.
    + done.
    + unfold Node.writeHead. simpl. destruct (Node.valid_status st); simpl; [|done].
      rewrite length_app. simpl. lia.
    + unfold Node.write. simpl. destruct writableEnded; simpl; [done|].
      rewrite length_app. simpl. lia.
    + unfold Node.end_. simpl. destruct writableEnded; simpl; [done|].
      rewrite length_app. simpl. lia.
Qed.

Lemma head_sent_stable : Stable head_sent.
Proof.
  split; unfold head_sent; simpl; intros; try done; try congruence.
  by eapply node_step_sent.
Qed.

Lemma settled_stable x hd d : Stable (settled x hd d).
Proof.
  split; unfold settled; simpl; intros; destruct_and?; try done; try congruence.
  edestruct node_step_sent as [-> ->]; eauto.
Qed.

Lemma heads_counted_stable : Stable heads_counted.
Proof.
  split; unfold heads_counted; simpl; intros; try done.
  by eapply node_step_counted.
Qed.

Lemma worlds_head calls w : ∃ t, worlds calls w = w :: t.
Proof. destruct calls; simpl; eauto. Qed.

Lemma rises_cons a b l :
  rises (a :: b :: l) = ((if negb a && b then 1 else 0) + rises (b :: l))%nat.
Proof. reflexivity. Qed.

Lemma rises_sent calls w :
  head_sent w → rises (map (λ w, Node.headersSent (res w)) (worlds calls w)) = 0%nat.
Proof.
  revert w. induction calls as [|[site c] calls IH]; intros w Hw; [done|].
  pose proof (perform_preserved _ head_sent_stable site c w Hw) as Hw'.
  specialize (IH _ Hw'). cbn [worlds fst snd].
  destruct (worlds_head calls (perform site c w)) as [t Ht].
  rewrite Ht in *. rewrite !map_cons in *. rewrite rises_cons, IH.
  unfold head_sent in Hw. by rewrite Hw.
Qed.

Lemma rises_once calls w :
  (rises (map (λ w, Node.headersSent (res w)) (worlds calls w)) ≤ 1)%nat.
Proof.
  revert w. induction calls as [|[site c] calls IH]; intros w; [simpl; lia|].
  specialize (IH (perform site c w)).
  pose proof (rises_sent calls (perform site c w)) as Hsent.
  cbn [worlds fst snd].
  destruct (worlds_head calls (perform site c w)) as [t Ht].
  rewrite Ht in *. rewrite !map_cons in *. rewrite rises_cons.
  destruct (Node.headersSent (res w)); simpl negb; cbn [andb]; [lia|].
  destruct (Node.headersSent (res (perform site c w))) eqn:Hs; [|lia].
  rewrite Hsent; [lia|done].
Qed.

(** From a response as the server hands it over, whatever is called, the
    socket receives at most one head. *)
Lemma one_head_at_most calls :
  (length (Node.heads (res (run calls (initial Node.fresh)))) ≤ 1)%nat.
Proof.
  assert (heads_counted (run calls (initial Node.fresh))) as Hc.
  { by apply run_preserved; [apply heads_counted_stable|]. }
  unfold heads_counted in Hc. rewrite Hc.
  destruct (Node.headersSent _); lia.
Qed.

(** The headers [writeHead] stages through [setHeader], as strings, before
    it hands the object to the response. *)
Definition staged_strings (m : gmap string Node.header_value)
    (hs : Node.OutgoingHttpHeaders) : gmap string Node.header_value :=
  foldl (λ m kv, <[toLowerCase kv.1 :=
                     Node.One (Node.SStr (Node.header_value_to_string kv.2))]> m) m hs.

Lemma forEach_setHeader_unsent hs st m hd ch en b c s e d :
  forEach (λ kv, setHeader kv.1 (Node.header_value_to_string kv.2)) hs
    (mkWorld (Node.mkResponse false st m hd ch en) b c s e d) =
  (Return (), mkWorld (Node.mkResponse false st (staged_strings m hs) hd ch en) b c s e d).
Proof.
  revert m. induction hs as [|[k v] hs IH]; intros m; [done|].
  simpl. unfold bind at 1. simpl. apply IH.
Qed.

Lemma forEach_setHeader_sent hs r b c s e d status hs' :
  Node.headersSent r = true →
  bind (forEach (λ kv, setHeader kv.1 (Node.header_value_to_string kv.2)) hs)
       (λ _, res_call (Node.writeHead status hs')) (mkWorld r b c s e d) =
  (Throw ERR_HTTP_HEADERS_SENT, mkWorld r b c s e d).
Proof.
  destruct r as [sent st m hd ch en]. simpl. intros ->.
  by destruct hs as [|[k v] hs].
Qed.

Lemma bind_eval {A B} (m : M A) (f : A → M B) w :
  bind m f w =
  match m w with
  | (Return a, w') => f a w'
  | (Throw e, w') => (Throw e, w')
  end.
Proof. reflexivity. Qed.

Lemma checkHeadersSentBy_unsent x st m hd ch en b c s e d :
  checkHeadersSentBy x (mkWorld (Node.mkResponse false st m hd ch en) b c s e d) =
  (Return (),
   mkWorld (Node.mkResponse false st m hd ch en)
     (Some (mkError "You appear to be sending headers more than once. The first attempt was here. Does it need to throw or return?" s))
     c s e d).
Proof. by destruct b. Qed.

Lemma checkHeadersSentBy_sent x st m hd ch en first c s e d :
  checkHeadersSentBy x (mkWorld (Node.mkResponse true st m hd ch en) (Some first) c s e d) =
  (Return (),
   mkWorld (Node.mkResponse true st m hd ch en) (Some first)
     (c ++ [LogError first;
            LogError (mkError "This is the second attempt to send headers. Was it supposed to happen?" s)])
     s e d).
Proof.
  unfold checkHeadersSentBy, bind, get_headersSent, gets, console_log, new_Error.
  simpl. by rewrite <- app_assoc.
Qed.

Definition first_attempt : string :=
  "You appear to be sending headers more than once. The first attempt was here. Does it need to throw or return?".

Definition second_attempt : string :=
  "This is the second attempt to send headers. Was it supposed to happen?".

(** The line [writeHead] prints when tracing is on. *)
Definition trace_line (d : bool) (label : string) (status : Z)
    (hs : Node.OutgoingHttpHeaders) : list LogEntry :=
  if d then [LogTrace label status hs] else [].

Lemma staged_strings_ne (m : gmap string Node.header_value) hs :
  m ≠ ∅ → staged_strings m hs ≠ ∅.
Proof.
  revert m. induction hs as [|[k v] hs IH]; intros m Hm; [done|].
  apply IH, insert_non_empty.
Qed.

(** [writeHead] stages every header of the call before it hands them to the
    response object, so the response object keeps them all. *)
Lemma kept_staged_strings (m : gmap string Node.header_value) hs :
  Node.kept (staged_strings m hs) (Node.merge_headers (staged_strings m hs) hs) =
  Node.merge_headers (staged_strings m hs) hs.
Proof.
  destruct hs as [|[k v] hs]; [apply kept_same|].
  apply kept_staged.
  apply (staged_strings_ne
           (<[toLowerCase k := Node.One (Node.SStr (Node.header_value_to_string v))]> m) hs).
  apply insert_non_empty.
Qed.

Lemma writeHead_unsent site status hs st m hd ch en b c s e d :
  Node.valid_status status = true →
  at_site site (writeHead status hs)
    (mkWorld (Node.mkResponse false st m hd ch en) b c s e d) =
  let m' := Node.merge_headers (staged_strings m hs) hs in
  (Return (),
   mkWorld (Node.mkResponse true status m' (hd ++ [(status, m')]) ch en)
           (Some (mkError first_attempt site))
           (c ++ trace_line d "writeHead" status hs) site e d).
Proof.
  intros Hv.
  unfold at_site, writeHead. cbn [res headersSentBy console env_DEBUG_send Debug_send].
  rewrite bind_eval. cbn [gets Debug_send].
  destruct d; cbn [trace_line]; rewrite bind_eval; cbn [console_log ret res headersSentBy
    console callSite env_DEBUG_send Debug_send];
    rewrite bind_eval, checkHeadersSentBy_unsent, bind_eval, forEach_setHeader_unsent;
    unfold res_call; cbn [res headersSentBy console callSite env_DEBUG_send Debug_send];
    rewrite Node_writeHead_unsent by done;
    cbn [Node.staged Node.heads Node.chunks Node.writableEnded];
    rewrite kept_staged_strings, ?app_nil_r; reflexivity.
Qed.

(** A status the response object rejects: the headers of the call have been
    staged and the call site recorded, and nothing has been sent. *)
Lemma writeHead_invalid site status hs st m hd ch en b c s e d :
  Node.valid_status status = false →
  at_site site (writeHead status hs)
    (mkWorld (Node.mkResponse false st m hd ch en) b c s e d) =
  (Throw (ERR_HTTP_INVALID_STATUS_CODE status),
   mkWorld (Node.mkResponse false st (staged_strings m hs) hd ch en)
           (Some (mkError first_attempt site))
           (c ++ trace_line d "writeHead" status hs) site e d).
Proof.
  intros Hv.
  unfold at_site, writeHead. cbn [res headersSentBy console env_DEBUG_send Debug_send].
  rewrite bind_eval. cbn [gets Debug_send].
  destruct d; cbn [trace_line]; rewrite bind_eval; cbn [console_log ret res headersSentBy
    console callSite env_DEBUG_send Debug_send];
    rewrite bind_eval, checkHeadersSentBy_unsent, bind_eval, forEach_setHeader_unsent;
    unfold res_call; cbn [res headersSentBy console callSite env_DEBUG_send Debug_send];
    rewrite Node_writeHead_invalid by done; rewrite ?app_nil_r; reflexivity.
Qed.

Lemma writeHead_sent site status hs r first c s e d :
  Node.headersSent r = true →
  at_site site (writeHead status hs) (mkWorld r (Some first) c s e d) =
  (Throw ERR_HTTP_HEADERS_SENT,
   mkWorld r (Some first)
           ((c ++ trace_line d "writeHead" status hs) ++
            [LogError first; LogError (mkError second_attempt site)]) site e d).
Proof.
  destruct r as [sent st m hd ch en]. cbn [Node.headersSent]. intros ->.
  unfold at_site, writeHead. cbn [res headersSentBy console env_DEBUG_send Debug_send].
  rewrite bind_eval. cbn [gets Debug_send].
  destruct d; cbn [trace_line]; rewrite bind_eval; cbn [console_log ret res headersSentBy
    console callSite env_DEBUG_send Debug_send];
    rewrite bind_eval, checkHeadersSentBy_sent, forEach_setHeader_sent by done;
    rewrite ?app_nil_r; reflexivity.
Qed.

(** C2 (as amended).  On a response that has sent nothing, the first
    [writeHead] whose status the response object accepts (100 to 999) sends
    the head and records its call site.  Whatever is called afterwards, the
    flag stays set and the recorded site stays; a later [writeHead] logs the
    recorded first site and its own, and is then passed to the response
    object, which rejects it with [ERR_HTTP_HEADERS_SENT]: the response is
    left as it was and the socket has received one head.  A first
    [writeHead] with another status is rejected by the response object with
    [ERR_HTTP_INVALID_STATUS_CODE] and sends nothing.  Over any sequence of
    calls, from any world, the flag goes from false to true at most once. *)
Theorem headers_sent_once (w : World) (site1 : string) (status1 : Z)
    (headers1 : Node.OutgoingHttpHeaders) (calls : list (string * Call))
    (site2 : string) (status2 : Z) (headers2 : Node.OutgoingHttpHeaders) :
  Node.headersSent (res w) = false →
  Node.heads (res w) = [] →
  let first := at_site site1 (writeHead status1 headers1) w in
  let w2 := run calls first.2 in
  let second := at_site site2 (writeHead status2 headers2) w2 in
  (100 ≤ status1 ≤ 999 →
   first.1 = Return () ∧
   Node.headersSent (res first.2) = true ∧
   headersSentBy first.2 = Some (mkError first_attempt site1) ∧
   Node.headersSent (res w2) = true ∧
   second.1 = Throw ERR_HTTP_HEADERS_SENT ∧
   console second.2 =
     (console w2 ++ trace_line (Debug_send w) "writeHead" status2 headers2) ++
     [LogError (mkError first_attempt site1); LogError (mkError second_attempt site2)] ∧
   res second.2 = res w2 ∧
   length (Node.heads (res second.2)) = 1%nat) ∧
  (¬ 100 ≤ status1 ≤ 999 →
   first.1 = Throw (ERR_HTTP_INVALID_STATUS_CODE status1) ∧
   Node.headersSent (res first.2) = false ∧
   Node.heads (res first.2) = []) ∧
  (∀ calls' w',
     (rises (map (λ w, Node.headersSent (res w)) (worlds calls' w')) ≤ 1)%nat).
Proof.
  destruct w as [[sent st m hd ch en] b c s e d]. cbn [res Node.headersSent Node.heads].
  intros -> ->. cbv zeta. split_and!.
  - intros Hv%valid_status_range.
    rewrite writeHead_unsent by done. cbv zeta. cbn [fst snd].
    set (m' := Node.merge_headers (staged_strings m headers1) headers1).
    set (w1 := mkWorld _ _ _ _ _ _).
    assert (settled (Some (mkError first_attempt site1)) [(status1, m')] d w1) as Hw1 by done.
    apply (run_preserved _ (settled_stable _ _ _) calls) in Hw1.
    destruct (run calls w1) as [r2 b2 c2 s2 e2 d2].
    destruct Hw1 as (Hs & Hb & Hh & Hd). simpl in Hs, Hb, Hh, Hd. subst b2 d2.
    rewrite writeHead_sent by done. cbn [fst snd res console Debug_send].
    rewrite Hh. split_and!; done.
  - intros Hv. rewrite writeHead_invalid; [done|].
    apply not_true_is_false. by rewrite valid_status_range.
  - apply rises_once.
Qed.

(** ** Path parameters *)

(** The raw capture of [name] on the matched path, as the claim has it: that
    of the innermost node, the last of the list, whose groups have the
    name. *)
Fixpoint innermost_capture (routePath : list RouteMatch) (name : string)
  : option (option string) :=
  match routePath with
  | [] => None
  | e :: inner =>
      match innermost_capture inner name with
      | Some v => Some v
      | None => groups e !! name
      end
  end.

(** For every name, the capture of the innermost node that has the name can
    be decoded.  The capture of an outer node under a name that an inner
    node has as well is not looked at. *)
Definition decodable (routePath : list RouteMatch) : Prop :=
  ∀ name raw, innermost_capture routePath name = Some (Some raw) →
              is_Some (decodeURIComponent raw).

Lemma foldl_assign_lookup (routePath : list RouteMatch) (n : gmap string (option string))
    (name : string) :
  foldl (λ n e, Object_assign n (groups e)) n routePath !! name =
  match innermost_capture routePath name with
  | Some v => Some v
  | None => n !! name
  end.
Proof.
  revert n. induction routePath as [|e inner IH]; intros n; [done|].
  simpl. rewrite IH. destruct (innermost_capture inner name); [done|].
  unfold Object_assign. rewrite lookup_union.
  destruct (groups e !! name), (n !! name); done.
Qed.

Lemma merged_groups_lookup (routePath : list RouteMatch) (name : string) :
  merged_groups routePath !! name = innermost_capture routePath name.
Proof.
  unfold merged_groups. rewrite foldl_assign_lookup.
  by destruct (innermost_capture routePath name).
Qed.

Lemma parse_optional_param_is_Some (v : option string) :
  is_Some (parse_optional_param v) ↔ ∀ raw, v = Some raw → is_Some (decodeURIComponent raw).
Proof.
  destruct v as [raw|]; simpl; unfold zodDecodeURIComponent.
  - rewrite fmap_is_Some. split; [by intros ? ? [= <-] | eauto].
  - split; [done | eauto].
Qed.

Lemma safeParse_decodable (routePath : list RouteMatch) :
  map_Forall (λ _ v, is_Some (parse_optional_param v)) (merged_groups routePath)
  ↔ decodable routePath.
Proof.
  unfold decodable. split.
  - intros Hall name raw Hraw. rewrite <- merged_groups_lookup in Hraw.
    apply Hall in Hraw. by eapply parse_optional_param_is_Some in Hraw.
  - intros Hdec name v Hv. rewrite merged_groups_lookup in Hv.
    apply parse_optional_param_is_Some. intros raw ->. eauto.
Qed.

(** C3 (as amended).  The constructor always returns a [Streamer].  Of the
    captures of one name on the matched path only that of the innermost node
    that has the name counts.  When each of these innermost captures can be
    decoded, each entry of [pathParams] is [decodeURIComponent] applied once
    to the innermost capture of its name, an [undefined] capture stays
    [undefined], and nothing is logged.  When one of the innermost captures
    cannot be decoded, the failure is logged and every entry is the
    innermost capture of its name, as captured. *)
Theorem pathParams_decoded_once (request : ParsedRequest) (routePath : list RouteMatch)
    (format : BodyFormat) (w : World) :
  ∃ s, (new_Streamer request routePath format w).1 = Return s ∧
    (decodable routePath →
       (∀ name, pathParams s !! name =
                (λ raw, raw ≫= decodeURIComponent) <$> innermost_capture routePath name) ∧
       console (new_Streamer request routePath format w).2 = console w) ∧
    (¬ decodable routePath →
       (∀ name, pathParams s !! name = innermost_capture routePath name) ∧
       console (new_Streamer request routePath format w).2 =
         console w ++ [LogPathParamsBug (merged_groups routePath)]).
Proof.
  unfold new_Streamer, safeParse_pathParams.
  destruct (decide (map_Forall _ (merged_groups routePath))) as [Hall|Hnot].
  - eexists. split; [reflexivity|]. cbn [pathParams].
    apply safeParse_decodable in Hall as Hdec. split; [|done].
    intros _. split; [|done]. intros name.
    rewrite lookup_omap, merged_groups_lookup.
    destruct (innermost_capture routePath name) as [[raw|]|] eqn:Hcap; [|done..].
    destruct (Hdec name raw Hcap) as [d Hd]. simpl.
    unfold zodDecodeURIComponent. by rewrite Hd.
  - eexists. split; [reflexivity|]. cbn [pathParams].
    split; [intros Hdec; by apply safeParse_decodable in Hdec|].
    intros _. split; [|by destruct w]. intros name. apply merged_groups_lookup.
Qed.

Lemma innermost_capture_app (outer : list RouteMatch) (e : RouteMatch) (name : string) :
  innermost_capture (outer ++ [e]) name =
  match groups e !! name with
  | Some v => Some v
  | None => innermost_capture outer name
  end.
Proof.
  induction outer as [|o outer IH]; simpl.
  - by destruct (groups e !! name).
  - rewrite IH. by destruct (groups e !! name).
Qed.

(** ** Multipart bodies *)

(** C4.  For a parser of content types that does not take the empty string
    for a multipart type and does not return an empty boundary:
    [readMultipartData] fails with [MULTIPART_INVALID_CONTENT_TYPE] and 400
    exactly when there is no Content-Type header or it is not a multipart
    type; it fails with [MULTIPART_MISSING_BOUNDARY] and 400 exactly when
    the header is a multipart type without a boundary; in every other case
    it iterates the parts of the body with the boundary of the header. *)
Theorem readMultipartData_errors (this : Streamer) :
  isMultipartRequestHeader "" = false →
  (∀ ct, headers this !! "content-type" = Some ct → getMultipartBoundary ct ≠ Some "") →
  let contentType := headers this !! "content-type" in
  (readMultipartData this = Throw (SendError "MULTIPART_INVALID_CONTENT_TYPE" 400)
   ↔ contentType = None ∨
     ∃ ct, contentType = Some ct ∧ isMultipartRequestHeader ct = false) ∧
  (readMultipartData this = Throw (SendError "MULTIPART_MISSING_BOUNDARY" 400)
   ↔ ∃ ct, contentType = Some ct ∧ isMultipartRequestHeader ct = true ∧
           getMultipartBoundary ct = None) ∧
  (∀ ct boundary,
     contentType = Some ct → isMultipartRequestHeader ct = true →
     getMultipartBoundary ct = Some boundary →
     readMultipartData this =
     Return (concat (map part_calls (parseNodeMultipartStream (reader this) boundary)))).
Proof.
  intros Hempty Hboundary contentType. subst contentType. unfold readMultipartData.
  destruct (headers this !! "content-type") as [ct|] eqn:Hct.
  2:{ split_and!.
      - split; [by left | done].
      - split; [done | by intros (? & ? & _)].
      - intros ? ? [=]. }
  specialize (Hboundary ct eq_refl).
  destruct ct as [|c ct'].
  { split_and!.
    - split; [right; eauto | done].
    - split; [done | intros (? & [= <-] & ? & _); congruence].
    - intros ? ? [= <-]. congruence. }
  destruct (isMultipartRequestHeader (String c ct')) eqn:Hmulti; simpl.
  2:{ split_and!.
      - split; [right; eauto | done].
      - split; [done | intros (? & [= <-] & ? & _); congruence].
      - intros ? ? [= <-]. congruence. }
  destruct (getMultipartBoundary (String c ct')) as [[|b bs]|] eqn:Hb; [done| |].
  - split_and!.
    + split; [done | intros [?|(? & [= <-] & ?)]; congruence].
    + split; [done | intros (? & [= <-] & _ & ?); congruence].
    + intros ? ? [= <-] _. rewrite Hb. by intros [= <-].
  - split_and!.
    + split; [done | intros [?|(? & [= <-] & ?)]; congruence].
    + split; [eauto | done].
    + intros ? ? [= <-] _. by rewrite Hb.
Qed.

(** ** Server-sent events *)

(** The fields of an event that stay after [filter(truthy)]. *)
Lemma event_frame_fields (sse : SSE) (name : string) (j : stringified) (id_ : string) :
  event_frame sse name j id_ =
  join LF ((if truthy_string name then ["event: " +:+ name] else []) ++
           ["data: " +:+ stringified_to_string j] ++
           (if truthy_string id_ then ["id: " +:+ id_] else []) ++
           match retryMilliseconds sse with
           | Some n => if truthy_number n then ["retry: " +:+ number_to_string n] else []
           | None => []
           end) +:+ LF +:+ LF.
Proof.
  unfold event_frame, event_fields, and_then.
  destruct (truthy_string name), (truthy_string id_), (retryMilliseconds sse) as [n|];
    try destruct (truthy_number n); reflexivity.
Qed.

(** A retry value that is a number other than zero is the last field of
    every event. *)
Lemma event_frame_retry (n : number) (name : string) (j : stringified) (id_ : string) :
  truthy_number n = true →
  event_frame (mkSSE (Some n)) name j id_ =
  join LF ((if truthy_string name then ["event: " +:+ name] else []) ++
           ["data: " +:+ stringified_to_string j] ++
           (if truthy_string id_ then ["id: " +:+ id_] else []) ++
           ["retry: " +:+ number_to_string n]) +:+ LF +:+ LF.
Proof. intros Hn. rewrite event_frame_fields. simpl. by rewrite Hn. Qed.

(** What [sendSSE] leaves behind on a response that has sent nothing. *)
Lemma sendSSE_zero_accepted (w : World) :
  Node.headersSent (res w) = false → Node.writableEnded (res w) = false →
  (sendSSE (Some (VNum (Num 0))) w).1 = Return (mkSSE (Some (Num 0))).
Proof.
  destruct w as [[sent st m hd ch en] b c s e d]. simpl. intros -> ->.
  unfold sendSSE. rewrite bind_eval. simpl.
  rewrite bind_eval.
  pose proof (writeHead_unsent s 200 sse_headers st m hd ch false b c s e d eq_refl) as Hw.
  unfold at_site in Hw. simpl in Hw. rewrite Hw. reflexivity.
Qed.

(** C5, on the code.  A retry value of [0] passes the check of [sendSSE], and
    the events of the handle carry no retry field: each frame is the one a
    handle without a retry value writes. *)
Theorem retry_zero_is_dropped (name : string) (j : stringified) (id_ : string) :
  (sendSSE (Some (VNum (Num 0))) (initial Node.fresh)).1 = Return (mkSSE (Some (Num 0))) ∧
  event_frame (mkSSE (Some (Num 0))) name j id_ = event_frame (mkSSE None) name j id_ ∧
  event_frame (mkSSE (Some (Num 0))) "tick" (Text "1") "7" =
    "event: tick" +:+ LF +:+ "data: 1" +:+ LF +:+ "id: 7" +:+ LF +:+ LF.
Proof. split; [by apply sendSSE_zero_accepted|]. split; reflexivity. Qed.

(** A name or an id that [emitEvent] accepts: a string without a line
    feed. *)
Definition line (v : value) : Prop := ∃ s, v = VStr s ∧ includes s LF = false.

Lemma writer_res (w : World) : res (writer w).2 = res w ∧ (writer w).1 = Return ().
Proof.
  destruct w as [r b c s e d]. unfold writer, bind, get_headersSent, gets. simpl.
  by destruct (Node.headersSent r), b.
Qed.

Lemma writer_sent (w : World) : Node.headersSent (res w) = true → writer w = (Return (), w).
Proof.
  destruct w as [r b c s e d]. unfold writer, bind, get_headersSent, gets. simpl.
  by intros ->.
Qed.

Lemma Node_write_open c r :
  Node.writableEnded r = false → Node.chunks (Node.write c r) = Node.chunks r ++ [c].
Proof.
  destruct r as [sent st m hd ch en]. simpl. intros ->.
  unfold Node.write, Node.implicitHeader. simpl. by destruct sent.
Qed.

Lemma throw_Error_throws {A} msg w : ∃ e, (throw_Error (A:=A) msg w).1 = Throw e.
Proof. unfold throw_Error, bind, new_Error, gets, throw. simpl. eauto. Qed.

(** C6 (as amended).  [emitEvent] throws exactly when the name is not a
    string without a line feed, or the id is not, or the stream has been
    ended, or the data cannot be serialised by [JSON.stringify]; otherwise it
    returns after writing one chunk, the frame of the event. *)
Theorem emitEvent_throws (sse : SSE) (eventName eventData eventId : value) (w : World) :
  let result := emitEvent sse eventName eventData eventId w in
  let violated :=
    ¬ line eventName ∨ ¬ line eventId ∨ Node.writableEnded (res w) = true ∨
    stringify eventData = None in
  ((∃ e, result.1 = Throw e) ↔ violated) ∧
  (¬ violated →
   ∃ name id_ j,
     eventName = VStr name ∧ eventId = VStr id_ ∧ stringify eventData = Some j ∧
     result.1 = Return () ∧
     Node.chunks (res result.2) =
       Node.chunks (res w) ++ [Node.mkChunk (event_frame sse name j id_) None]).
Proof.
  cbv zeta. unfold emitEvent, line.
  destruct eventName as [| | | | |name| |];
    try (split; [split; [intros _; left; by intros (? & ? & _) | intros _; apply throw_Error_throws]
                | intros Hv; exfalso; apply Hv; left; by intros (? & ? & _)]).
  destruct (includes name LF) eqn:Hname.
  { split; [split; [intros _; left; intros (? & [= <-] & ?); congruence
                   | intros _; apply throw_Error_throws]
           | intros Hv; exfalso; apply Hv; left; intros (? & [= <-] & ?); congruence]. }
  destruct eventId as [| | | | |id_| |];
    try (split; [split; [intros _; right; left; by intros (? & ? & _)
                        | intros _; apply throw_Error_throws]
                | intros Hv; exfalso; apply Hv; right; left; by intros (? & ? & _)]).
  destruct (includes id_ LF) eqn:Hid.
  { split; [split; [intros _; right; left; intros (? & [= <-] & ?); congruence
                   | intros _; apply throw_Error_throws]
           | intros Hv; exfalso; apply Hv; right; left; intros (? & [= <-] & ?); congruence]. }
  rewrite bind_eval. destruct (writer_res w) as [Hres Hret].
  destruct (writer w) as [o w1]. simpl in Hres, Hret. subst o.
  rewrite bind_eval. cbn [gets]. rewrite Hres.
  destruct (Node.writableEnded (res w)) eqn:Hended.
  { split; [split; [intros _; right; right; by left | intros _; apply throw_Error_throws]
           | intros Hv; exfalso; apply Hv; right; right; by left]. }
  rewrite bind_eval. destruct (writer_res w1) as [Hres1 Hret1].
  destruct (writer w1) as [o w2]. simpl in Hres1, Hret1. subst o.
  destruct (stringify eventData) as [j|] eqn:Hj.
  - assert (¬ (¬ (∃ s, VStr name = VStr s ∧ includes s LF = false) ∨
               ¬ (∃ s, VStr id_ = VStr s ∧ includes s LF = false) ∨
               false = true ∨ Some j = None)) as Hok.
    { intros [Hn|[Hn|[?|?]]]; try done; apply Hn; eauto. }
    split.
    + split; [|done]. intros [e He]. destruct w2. discriminate He.
    + intros _. exists name, id_, j.
      destruct w2 as [r2 b2 c2 s2 e2 d2]. simpl in Hres1. subst r2.
      split_and!; try reflexivity.
      unfold res_do, res_call. simpl. rewrite Hres. by apply Node_write_open.
  - split.
    + split; [intros _; by do 3 right | intros _; unfold throw; simpl; eauto].
    + intros Hv. exfalso. apply Hv. by do 3 right.
Qed.

(** ** Single-shot senders *)

Lemma merge_headers_app m l1 l2 :
  Node.merge_headers m (l1 ++ l2) = Node.merge_headers (Node.merge_headers m l1) l2.
Proof. unfold Node.merge_headers. apply foldl_app. Qed.

Lemma merge_headers_other m (l : Node.OutgoingHttpHeaders) key :
  (∀ kv, kv ∈ l → toLowerCase kv.1 ≠ key) →
  Node.merge_headers m l !! key = m !! key.
Proof.
  revert m. induction l as [|[k v] l IH]; intros m Hl; [done|].
  unfold Node.merge_headers in *. simpl. rewrite IH.
  - apply lookup_insert_ne. apply (Hl (k, v)). by left.
  - intros kv Hkv. apply Hl. by right.
Qed.

(** The last property whose name is [key] up to case decides the header. *)
Lemma merge_headers_last m l1 k v l2 :
  (∀ kv, kv ∈ l2 → toLowerCase kv.1 ≠ toLowerCase k) →
  Node.merge_headers m (l1 ++ (k, v) :: l2) !! toLowerCase k = Some v.
Proof.
  intros Hl2. rewrite merge_headers_app.
  change ((k, v) :: l2) with ([(k, v)] ++ l2). rewrite merge_headers_app.
  rewrite merge_headers_other by done.
  unfold Node.merge_headers. simpl. apply lookup_insert_eq.
Qed.

(** Where [headers[k] = v] puts the property, for an object whose property
    names differ even when case is ignored. *)
Lemma object_set_last k v (hs : Node.OutgoingHttpHeaders) :
  NoDup (map (λ kv, toLowerCase kv.1) hs) →
  ∃ l1 l2, Node.object_set k v hs = l1 ++ (k, v) :: l2 ∧
           ∀ kv, kv ∈ l2 → toLowerCase kv.1 ≠ toLowerCase k.
Proof.
  induction hs as [|[k' v'] hs IH]; intros Hnd.
  - exists [], []. split; [done|]. intros kv Hkv. by apply elem_of_nil in Hkv.
  - apply NoDup_cons in Hnd as [Hnotin Hnd]. simpl.
    destruct (decide (k' = k)) as [->|Hne].
    + exists [], hs. split; [done|]. intros kv Hkv Heq.
      apply Hnotin. simpl. rewrite <- Heq.
      apply (list_elem_of_fmap_2 (λ kv, toLowerCase kv.1)). done.
    + destruct (IH Hnd) as (l1 & l2 & -> & Hl2).
      exists ((k', v') :: l1), l2. done.
Qed.



(** ** Cookies *)

(** An option that is falsy, taken as absent. *)
Definition keep_truthy {A} (truthy : A → bool) (o : option A) : option A :=
  match o with
  | Some a => if truthy a then Some a else None
  | None => None
  end.

(** An attribute as it is printed: nothing for an absent option. *)
Definition printed {A} (label : string) (text : A → string) (o : option A) : string :=
  match o with
  | Some a => label +:+ text a
  | None => ""
  end.

(** The header [Set-Cookie] after [cookie] has been appended to [current]. *)
Definition appended (current : option Node.header_value) (cookie : string)
  : Node.header_value :=
  match current with
  | Some (Node.Many l) => Node.Many (l ++ [Node.SStr cookie])
  | Some (Node.One x) =>
      if Node.truthy_header current then Node.Many [x; Node.SStr cookie]
      else Node.One (Node.SStr cookie)
  | None => Node.One (Node.SStr cookie)
  end.

(** C10.  On a response that has not sent its head, for a [maxAge] whose
    digits JavaScript prints in full, [setCookie] returns and appends to the
    header [Set-Cookie] the string made of the name, an equals sign, the
    value encoded by [encodeURIComponent], and then, in this order and each
    only when its option is present and truthy: [; Domain=] and the domain,
    [; Path=] and the path, [; Expires=] and the date, [; Max-Age=] and the
    number, [; Secure], [; HttpOnly], [; SameSite=] and the policy.  With
    [maxAge] zero the string has no [Max-Age] attribute. *)
Theorem setCookie_appends (name value : string) (options : CookieOptions) (w : World) :
  Node.headersSent (res w) = false →
  (∀ z, maxAge options = Some (Num z) → Z.abs z < 10 ^ 21) →
  let result := setCookie name value options w in
  let cookie := cookie_string name value options in
  let before_maxAge :=
    name +:+ "=" +:+ encodeURIComponent value
    +:+ printed "; Domain=" id (keep_truthy truthy_string (domain options))
    +:+ printed "; Path=" id (keep_truthy truthy_string (path options))
    +:+ printed "; Expires=" Date_toUTCString (expires options) in
  let after_maxAge :=
    printed "; Secure" (λ _, "") (keep_truthy id (secure options))
    +:+ printed "; HttpOnly" (λ _, "") (keep_truthy id (httpOnly options))
    +:+ printed "; SameSite="
          (λ s, match s with Strict => "Strict" | Lax => "Lax" | SameSiteNone => "None" end)
          (sameSite options) in
  result.1 = Return () ∧
  Node.getHeader "Set-Cookie" (res result.2) =
    Some (appended (Node.getHeader "Set-Cookie" (res w)) cookie) ∧
  cookie =
    before_maxAge
    +:+ match maxAge options with
        | Some (Num z) => if z =? 0 then "" else "; Max-Age=" +:+ pretty z
        | Some NaN | None => ""
        end
    +:+ after_maxAge ∧
  (maxAge options = Some (Num 0) → cookie = before_maxAge +:+ after_maxAge).
Proof.
  destruct w as [[sent st m hd ch en] b c s e d]. simpl. intros -> _.
  assert (cookie_string name value options =
          (name +:+ "=" +:+ encodeURIComponent value
           +:+ printed "; Domain=" id (keep_truthy truthy_string (domain options))
           +:+ printed "; Path=" id (keep_truthy truthy_string (path options))
           +:+ printed "; Expires=" Date_toUTCString (expires options))
          +:+ match maxAge options with
              | Some (Num z) => if z =? 0 then "" else "; Max-Age=" +:+ pretty z
              | Some NaN | None => ""
              end
          +:+ (printed "; Secure" (λ _, "") (keep_truthy id (secure options))
               +:+ printed "; HttpOnly" (λ _, "") (keep_truthy id (httpOnly options))
               +:+ printed "; SameSite="
                     (λ s, match s with
                           | Strict => "Strict" | Lax => "Lax" | SameSiteNone => "None"
                           end)
                     (sameSite options))) as Hcookie.
  { unfold cookie_string. rewrite !append_assoc.
    do 3 (apply (f_equal2 String.append); [reflexivity|]).
    apply (f_equal2 String.append); [by destruct (domain options) as [[|? ?]|]|].
    apply (f_equal2 String.append); [by destruct (path options) as [[|? ?]|]|].
    apply (f_equal2 String.append); [by destruct (expires options)|].
    apply (f_equal2 String.append).
    { destruct (maxAge options) as [[|z]|]; [done| |done]. simpl. by destruct (z =? 0). }
    apply (f_equal2 String.append); [by destruct (secure options) as [[]|]|].
    apply (f_equal2 String.append); [by destruct (httpOnly options) as [[]|]|].
    by destruct (sameSite options) as [[]|]. }
  split_and!.
  - reflexivity.
  - unfold setCookie, appendHeader, bind, gets, res_call, Node.setHeader, Node.getHeader.
    cbn [res Node.headersSent Node.staged fst snd].
    rewrite lookup_insert_eq. f_equal. unfold appended.
    destruct (m !! toLowerCase "Set-Cookie") as [[x|l]|]; reflexivity.
  - exact Hcookie.
  - intros Hzero. rewrite Hcookie, Hzero. reflexivity.
Qed.

End Properties.

(** ** Listeners *)

Section ListenerProperties.
Context `{Platform}.
Import Listeners.

Lemma server_listen_returns (port : option number) (host : string) (call : ListenCall) :
  server_listen port host = Return call →
  call = listen port host ∧ ∀ n, port = Some (Num n) → 0 ≤ n ≤ 65535.
Proof.
  unfold server_listen, valid_port. destruct port as [[|n]|]; [done| |].
  - destruct (_ && _) eqn:Hv; [|done]. intros [= <-]. split; [done|].
    intros ? [= <-]. apply andb_true_iff in Hv as [?%Z.leb_le ?%Z.leb_le]. done.
  - intros [= <-]. by split.
Qed.

Lemma startListener_listening env_PORT e p l :
  startListener env_PORT e p = Return l →
  port (options l) = default (default "8080" env_PORT) (o_port e) ∧
  host (options l) = default "localhost" (o_host e) ∧
  ListenerBase_listen (options l) = Return (listening l).
Proof.
  unfold startListener, new_ListenerHTTPS, new_ListenerHTTP, new_ListenerBase.
  repeat case_match; try discriminate; by intros [= <-].
Qed.

(** C8 (as amended).  [ToNumber] is any conversion that takes the empty
    string to 0 and ["8080"] to 8080.  The port string of a listener is the
    configured one; when none is configured it is the environment variable
    [PORT], and ["8080"] when that is not set either.  For a listener that
    starts: the string ["0"] leaves the port to the operating system; any
    other string that parses to a number other than zero gives that number,
    which is then from 1 to 65535; a string that parses to [NaN] or to zero,
    and the empty string, give 8080; no configured port and no [PORT] give
    8080.  A listener without key, certificate and secure-server options
    starts in each of these cases, and fails with [ERR_SOCKET_BAD_PORT] when
    its port string parses to a number other than zero outside 1 to
    65535. *)
Theorem listener_port (env_PORT : option string) (e : PartialListenOptions) (p : string) :
  ToNumber "" = Num 0 →
  ToNumber "8080" = Num 8080 →
  let port := default (default "8080" env_PORT) (o_port e) in
  let host := default "localhost" (o_host e) in
  (∀ l, startListener env_PORT e p = Return l →
     (port = "0" → listening l = listen None host) ∧
     (∀ n, port ≠ "0" → ToNumber port = Num n → n ≠ 0 →
           1 ≤ n ≤ 65535 ∧ listening l = listen (Some (Num n)) host) ∧
     (port ≠ "0" → ToNumber port = NaN ∨ ToNumber port = Num 0 ∨ port = "" →
      listening l = listen (Some (Num 8080)) host) ∧
     (o_port e = None → env_PORT = None → listening l = listen (Some (Num 8080)) host)) ∧
  (o_key e = None → o_cert e = None → o_secureServerOptions e = None →
   (port = "0" ∨ port = "" ∨ ToNumber port = NaN ∨ ToNumber port = Num 0 ∨
    (∃ n, ToNumber port = Num n ∧ 1 ≤ n ≤ 65535) →
    ∃ l, startListener env_PORT e p = Return l) ∧
   (∀ n, port ≠ "0" → port ≠ "" → ToNumber port = Num n → n ≠ 0 → ¬ 1 ≤ n ≤ 65535 →
         startListener env_PORT e p = Throw ERR_SOCKET_BAD_PORT)).
Proof.
  intros Hempty H8080 port_ host_. split.
  - intros l Hl. apply startListener_listening in Hl as (Hport & Hhost & Hcall).
    unfold ListenerBase_listen in Hcall. rewrite Hport, Hhost in Hcall.
    fold port_ host_ in Hcall.
    split_and!.
    + intros Hp. rewrite decide_True in Hcall by done.
      by apply server_listen_returns in Hcall as [-> _].
    + intros n Hne Hn Hn0. rewrite decide_False in Hcall by done. rewrite Hn in Hcall.
      destruct port_ as [|c s]; cbn -[server_listen] in Hcall.
      * congruence.
      * assert ((n =? 0) = false) as Hz by lia. rewrite Hz in Hcall. cbn -[server_listen] in Hcall.
        apply server_listen_returns in Hcall as [-> Hrange].
        split; [|done]. specialize (Hrange n eq_refl). lia.
    + intros Hne Hfalsy. rewrite decide_False in Hcall by done.
      assert (truthy_string port_ && truthy_number (ToNumber port_) = false) as Hf.
      { destruct Hfalsy as [Hf | [Hf | Hf]]; rewrite Hf; simpl; by rewrite ?andb_false_r. }
      rewrite Hf in Hcall. by apply server_listen_returns in Hcall as [-> _].
    + intros Hp He. subst port_. rewrite Hp, He in Hcall. cbn -[server_listen] in Hcall.
      rewrite decide_False in Hcall by done. rewrite H8080 in Hcall. cbn -[server_listen] in Hcall.
      by apply server_listen_returns in Hcall as [-> _].
  - intros Hk Hc Hs.
    unfold startListener, new_ListenerHTTP, new_ListenerBase, ListenerBase_listen.
    rewrite Hk, Hc, Hs. cbn [truthy_option_string negb Bool.eqb bool_decide andb orb
      port host].
    try rewrite bool_decide_eq_false_2 by (by intros [? ?]). cbn [orb].
    fold port_ host_. split.
    + intros Hok. destruct (decide (port_ = "0")) as [Hp|Hp]; [simpl; eauto|].
      destruct (truthy_string port_ && truthy_number (ToNumber port_)) eqn:Ht;
        [|simpl; eauto].
      apply andb_true_iff in Ht as [Hts Htn].
      destruct Hok as [?|[Hf|[Hf|[Hf|(n & Hn & Hrange)]]]]; [done| | | |].
      * by rewrite Hf in Hts.
      * by rewrite Hf in Htn.
      * by rewrite Hf in Htn.
      * rewrite Hn. unfold server_listen, valid_port.
        assert ((0 <=? n) && (n <=? 65535) = true) as ->.
        { apply andb_true_iff. split; apply Z.leb_le; lia. }
        eauto.
    + intros n Hp Hne Hn Hn0 Hrange. rewrite decide_False by done.
      rewrite Hn. destruct port_ as [|c s]; [done|]. simpl.
      assert ((n =? 0) = false) as -> by lia. simpl. unfold valid_port.
      destruct ((0 <=? n) && (n <=? 65535)) eqn:Hv; [|done].
      apply andb_true_iff in Hv as [?%Z.leb_le ?%Z.leb_le]. lia.
Qed.

End ListenerProperties.


(** C2, as the claim states it: a second attempt is not ignored.  After a
    first [writeHead], a second one throws.  And after a first attempt with
    a status that the response object rejects, which throws and sends
    nothing, the second attempt is neither logged nor ignored: it sends the
    head. *)
Lemma second_writeHead_throws :
  let first := at_site "first" (writeHead 200 []) (initial Node.fresh) in
  let rejected := at_site "first" (writeHead 1000 []) (initial Node.fresh) in
  let second := at_site "second" (writeHead 200 []) rejected.2 in
  (at_site "second" (writeHead 404 []) first.2).1 = Throw ERR_HTTP_HEADERS_SENT ∧
  (at_site "second" (writeHead 404 []) first.2).1 ≠ Return () ∧
  rejected.1 = Throw (ERR_HTTP_INVALID_STATUS_CODE 1000) ∧
  Node.heads (res rejected.2) = [] ∧
  second.1 = Return () ∧ console second.2 = [] ∧
  Node.heads (res second.2) = [(200, ∅)].
Proof. cbv zeta. split_and!; try reflexivity. discriminate. Qed.

Lemma headers_sent_once_witness :
  Node.headersSent (res (initial Node.fresh)) = false ∧
  Node.heads (res (initial Node.fresh)) = [] ∧
  let first := at_site "first" (writeHead 200 []) (initial Node.fresh) in
  let w2 := run (H:=Sample.platform) [("body", call_writer_write "hello")] first.2 in
  (at_site "second" (writeHead 404 []) w2).1 = Throw ERR_HTTP_HEADERS_SENT.
Proof.
  split; [reflexivity|]. split; [reflexivity|].
  pose proof (headers_sent_once (H:=Sample.platform) (initial Node.fresh) "first" 200 []
                [("body", call_writer_write "hello")] "second" 404 []
                eq_refl eq_refl) as Hthm.
  cbv zeta in Hthm. destruct Hthm as [Hvalid _].
  assert (100 ≤ 200 ≤ 999) as Hrange by lia.
  exact (proj1 (proj2 (proj2 (proj2 (proj2 (Hvalid Hrange)))))).
Defined.

(** C3, as the claim states it: with one capture that cannot be decoded, a
    capture that can be is not decoded either. *)
Lemma pathParams_left_raw :
  let request :=
    mkParsedRequest (H:=Sample.platform)
      (mkRequest "/%/a%2Fb" 1 ∅ (Some "GET") []) "/%/a%2Fb" "https://h/%/a%2Fb"
      "" false "GET" "h" [] ∅ in
  let routePath :=
    [mkRouteMatch "^/(?<a>[^/]+)/(?<b>.+)$" (<["a" := Some "%"]> (<["b" := Some "a%2Fb"]> ∅))] in
  ∃ s, (new_Streamer request routePath ignore (initial Node.fresh)).1 = Return s ∧
       property (pathParams s) "b" = Some "a%2Fb" ∧
       decodeURIComponent "a%2Fb" = Some "a/b" ∧
       property (pathParams s) "b" ≠ decodeURIComponent "a%2Fb".
Proof.
  cbv zeta. unfold new_Streamer, merged_groups. cbn [foldl groups].
  unfold Object_assign. rewrite (right_id_L ∅ (∪)).
  assert (safeParse_pathParams
            (<["a" := Some "%"]> (<["b" := Some "a%2Fb"]> ∅) : gmap string (option string)) =
          None) as ->.
  { unfold safeParse_pathParams. rewrite decide_False; [done|].
    intros Hall. specialize (Hall "a" (Some "%") (lookup_insert_eq _ _ _)).
    by destruct Hall as [? [=]]. }
  eexists. split; [reflexivity|]. cbn [pathParams]. unfold property.
  rewrite lookup_insert_ne, lookup_insert_eq by done. cbn [mjoin option_join].
  split; [reflexivity|]. split; [reflexivity|]. discriminate.
Qed.

(** An outer capture that cannot be decoded, under an inner capture of the
    same name that can: only the inner one is in the merged record, so
    nothing is logged and the entry is the inner capture, decoded. *)
Example pathParams_shadowed_capture :
  let request :=
    mkParsedRequest (H:=Sample.platform)
      (mkRequest "/%/x%20y" 1 ∅ (Some "GET") []) "/%/x%20y" "https://h/%/x%20y"
      "" false "GET" "h" [] ∅ in
  let routePath :=
    [mkRouteMatch "^/(?<a>[^/]+)" (<["a" := Some "%"]> ∅);
     mkRouteMatch "^/(?<a>.+)$" (<["a" := Some "x%20y"]> ∅)] in
  decodeURIComponent "%" = None ∧
  ∃ s, new_Streamer request routePath ignore (initial Node.fresh) =
         (Return s, initial Node.fresh) ∧
       property (pathParams s) "a" = Some "x y".
Proof.
  cbv zeta. split; [reflexivity|].
  unfold new_Streamer, merged_groups. cbn [foldl groups].
  unfold Object_assign. rewrite (right_id_L ∅ (∪)).
  assert (<["a" := Some "x%20y"]> ∅ ∪ <["a" := Some "%"]> ∅ =
          (<["a" := Some "x%20y"]> ∅ : gmap string (option string))) as ->.
  { apply map_eq. intros k. rewrite lookup_union.
    destruct (decide (k = "a")) as [->|Hk].
    - by rewrite !lookup_insert_eq.
    - by rewrite !lookup_insert_ne, !lookup_empty by done. }
  assert (safeParse_pathParams
            (<["a" := Some "x%20y"]> ∅ : gmap string (option string)) =
          Some (<["a" := Some "x y"]> ∅)) as ->.
  { unfold safeParse_pathParams. rewrite decide_True.
    - by rewrite omap_insert, omap_empty.
    - apply map_Forall_insert_2; [by eexists|apply map_Forall_empty]. }
  eexists. split; [reflexivity|]. cbn [pathParams]. unfold property.
  by rewrite lookup_insert_eq.
Qed.

(** The request of the spec for [/files/a%2Fb.txt]. *)
Example pathParams_files :
  ∃ s, (new_Streamer
          (mkParsedRequest (H:=Sample.platform)
             (mkRequest "/files/a%2Fb.txt" 1 ∅ (Some "GET") [])
             "/files/a%2Fb.txt" "https://h/files/a%2Fb.txt" "" false "GET" "h" [] ∅)
          [mkRouteMatch "^/files/(?<name>.+)" (<["name" := Some "a%2Fb.txt"]> ∅)]
          ignore (initial Node.fresh)).1 = Return s ∧
       property (pathParams s) "name" = Some "a/b.txt".
Proof.
  unfold new_Streamer, merged_groups. cbn [foldl groups].
  unfold Object_assign. rewrite (right_id_L ∅ (∪)).
  assert (safeParse_pathParams
            (<["name" := Some "a%2Fb.txt"]> ∅ : gmap string (option string)) =
          Some (<["name" := Some "a/b.txt"]> ∅)) as ->.
  { unfold safeParse_pathParams. rewrite decide_True.
    - by rewrite omap_insert, omap_empty.
    - apply map_Forall_insert_2; [by eexists|apply map_Forall_empty]. }
  eexists. split; [reflexivity|]. cbn [pathParams]. unfold property.
  by rewrite lookup_insert_eq.
Qed.

(** C6, as the claim states it: a name and an id that are strings without a
    line feed, a stream that has not been ended, and [emitEvent] throws all
    the same, because the data is a BigInt. *)
Lemma emitEvent_throws_on_BigInt :
  let w := (sendSSE None (initial Node.fresh)).2 in
  Node.writableEnded (res w) = false ∧
  includes "a" LF = false ∧ includes "1" LF = false ∧
  (emitEvent (mkSSE None) (VStr "a") (VBigInt 1) (VStr "1") w).1 = Throw TypeError.
Proof. repeat split; reflexivity. Qed.

(** C8, as the claim states it: no port is configured, [PORT] is [3000], and
    the listener binds 3000, not 8080; and the port string [70000] parses
    to a number other than zero, and no port is bound: [server.listen]
    rejects it. *)
Lemma missing_port_takes_PORT :
  let e := Listeners.mkPartialListenOptions None None None None None None None None in
  let e' :=
    Listeners.mkPartialListenOptions (Some "70000") None None None None None None None in
  Listeners.o_port e = None ∧
  Listeners.listening <$>
    (match Listeners.startListening (H:=Sample.platform) (Some "3000") [e] with
     | Return l => l
     | Throw _ => []
     end) = [Listeners.listen (Some (Num 3000)) "localhost"] ∧
  ToNumber (Platform:=Sample.platform) "70000" = Num 70000 ∧
  Listeners.startListening (H:=Sample.platform) None [e'] = Throw ERR_SOCKET_BAD_PORT.
Proof. repeat split; reflexivity. Qed.

(** ** The theorems at work *)

(** The built-in functions on a few strings. *)
Example decode_escaped_slash : decodeURIComponent "a%2Fb.txt" = Some "a/b.txt".
Proof. reflexivity. Qed.

Example decode_only_once : decodeURIComponent "%2541" = Some "%41".
Proof. reflexivity. Qed.

Example decode_lone_percent : decodeURIComponent "100%" = None.
Proof. reflexivity. Qed.

Example decode_overlong : decodeURIComponent "%C0%AF" = None.
Proof. reflexivity. Qed.

Example encode_reserved : encodeURIComponent "a b/c;d=e" = "a%20b%2Fc%3Bd%3De".
Proof. reflexivity. Qed.

Example stringify_array :
  stringify (VArr [VNum (Num 1); VUndefined; VNull; VBool true; VNum NaN]) =
  Some (Text "[1,null,null,true,null]").
Proof. reflexivity. Qed.

Example stringify_BigInt_in_object : stringify (VObj [("n", VArr [VBigInt 1])]) = None.
Proof. reflexivity. Qed.

(** [GET /prefix] on a listener with the prefix [/prefix]. *)
Example redirect_to_prefix :
  parseRequest (H:=Sample.platform)
    (mkRequest "/prefix" 1 (<["host" := "example.org"]> ∅) (Some "GET") [])
    Node.fresh "/prefix" false =
  (Throw ThrownSTREAM_ENDED,
   Node.mkResponse true 302 ∅
     [(302, <["location" := Node.One (Node.SStr "/prefix/")]> ∅)] [] true).
Proof. reflexivity. Qed.

(** [GET /prefix/a?x=1] on the same listener. *)
Example prefix_removed :
  p_url <$>
    (match (parseRequest (H:=Sample.platform)
              (mkRequest "/prefix/a?x=1" 1 (<["host" := "example.org"]> ∅) (Some "GET") [])
              Node.fresh "/prefix" false).1 with
     | Return st => Some st
     | Throw _ => None
     end) = Some "/a?x=1".
Proof. reflexivity. Qed.

(** Ports, with [PORT] not set. *)
Example ports :
  Listeners.listening <$>
    (match Listeners.startListening (H:=Sample.platform) None
             [Listeners.mkPartialListenOptions (Some "0") None None None None None None None;
              Listeners.mkPartialListenOptions (Some "3000") None None None None None None None;
              Listeners.mkPartialListenOptions (Some "http") None None None None None None None;
              Listeners.mkPartialListenOptions None None None None None None None None] with
     | Return l => l
     | Throw _ => []
     end) =
  [Listeners.listen None "localhost";
   Listeners.listen (Some (Num 3000)) "localhost";
   Listeners.listen (Some (Num 8080)) "localhost";
   Listeners.listen (Some (Num 8080)) "localhost"].
Proof. reflexivity. Qed.

(** Ports that [server.listen] rejects. *)
Example bad_ports :
  Listeners.startListening (H:=Sample.platform) None
    [Listeners.mkPartialListenOptions (Some "70000") None None None None None None None] =
    Throw ERR_SOCKET_BAD_PORT ∧
  Listeners.startListening (H:=Sample.platform) None
    [Listeners.mkPartialListenOptions (Some "-1") None None None None None None None] =
    Throw ERR_SOCKET_BAD_PORT.
Proof. split; reflexivity. Qed.

Lemma parseRequest_prefix_witness :
  let req := mkRequest "/other" 1 (<["host" := "example.org"]> ∅) (Some "GET") [] in
  "/prefix" ≠ "" ∧ startsWith (req_url req) "/" = true ∧
  parseRequest (H:=Sample.platform) req Node.fresh "/prefix" false =
  (Throw ThrownSTREAM_ENDED,
   Node.mkResponse true 500 ∅ [(500, ∅)]
     [Node.mkChunk
        "The server is setup with a path prefix /prefix, but this request is outside of that prefix."
        (Some Node.utf8)]
     true).
Proof.
  cbv zeta. split; [discriminate|]. split; [reflexivity|].
  destruct (parseRequest_prefix (H:=Sample.platform)
              (mkRequest "/other" 1 (<["host" := "example.org"]> ∅) (Some "GET") [])
              Node.fresh "/prefix" false)
    as [[Heq _]|[(rest & _ & Heq & _)|[_ Heq]]];
    [discriminate | reflexivity | reflexivity | reflexivity | | | exact Heq].
  - discriminate Heq.
  - vm_compute in Heq. discriminate Heq.
Defined.

Lemma readMultipartData_errors_witness :
  let this :=
    mkStreamer (H:=Sample.platform) "example.org" "POST" "https://example.org/upload"
      "/upload" (<["content-type" := "multipart/form-data"]> ∅) [] "" false [] multipart
      ∅ ∅ [] in
  isMultipartRequestHeader (Platform:=Sample.platform) "" = false ∧
  readMultipartData this = Throw (SendError "MULTIPART_MISSING_BOUNDARY" 400).
Proof.
  cbv zeta. split; [reflexivity|].
  refine (proj2 (proj1 (proj2 (readMultipartData_errors (H:=Sample.platform) _ eq_refl _))) _).
  - intros ct [= <-]. vm_compute. discriminate.
  - exists "multipart/form-data". repeat split; reflexivity.
Defined.



Lemma setCookie_appends_witness :
  let options :=
    mkCookieOptions (H:=Sample.platform) None (Some "/") None (Some (Num 0)) (Some true)
      None (Some Lax) in
  Node.headersSent (res (initial Node.fresh)) = false ∧
  cookie_string "sid" "a b" options = "sid=a%20b; Path=/; Secure; SameSite=Lax" ∧
  Node.getHeader "Set-Cookie" (res (setCookie "sid" "a b" options (initial Node.fresh)).2) =
    Some (Node.One (Node.SStr "sid=a%20b; Path=/; Secure; SameSite=Lax")).
Proof.
  cbv zeta. split; [reflexivity|]. split; [reflexivity|].
  assert (∀ z, Some (Num 0) = Some (Num z) → Z.abs z < 10 ^ 21) as Hdigits.
  { intros z [= <-]. reflexivity. }
  exact (proj1 (proj2 (setCookie_appends (H:=Sample.platform) "sid" "a b"
           (mkCookieOptions (H:=Sample.platform) None (Some "/") None (Some (Num 0))
              (Some true) None (Some Lax))
           (initial Node.fresh) eq_refl Hdigits))).
Defined.

Lemma listener_port_witness :
  let e := Listeners.mkPartialListenOptions (Some "0") None None None None None None None in
  ToNumber (Platform:=Sample.platform) "" = Num 0 ∧
  ToNumber (Platform:=Sample.platform) "8080" = Num 8080 ∧
  ∃ l, Listeners.startListener (H:=Sample.platform) None e "" = Return l ∧
       Listeners.listening l = Listeners.listen None "localhost".
Proof.
  cbv zeta. split; [reflexivity|]. split; [reflexivity|].
  pose proof (listener_port (H:=Sample.platform) None
                (Listeners.mkPartialListenOptions (Some "0") None None None None None None None)
                "" eq_refl eq_refl) as Hthm.
  cbv zeta in Hthm. destruct Hthm as [Hport Hstarts].
  destruct (proj1 (Hstarts eq_refl eq_refl eq_refl) (or_introl eq_refl)) as [l Hl].
  exists l. split; [exact Hl|].
  exact (proj1 (Hport l Hl) eq_refl).
Defined.


(** * More of the engine *)

(** ** Splitting and joining *)

Lemma String_split_cons (c : ascii) (s : string) :
  ∃ p ps, String_split c s = p :: ps.
Proof.
  destruct s as [|x s]; simpl; [eauto|].
  destruct (decide (x = c)); [eauto|].
  destruct (String_split c s); eauto.
Qed.

Lemma join_cons (sep p : string) (q : string) (l : list string) :
  join sep (p :: q :: l) = p +:+ sep +:+ join sep (q :: l).
Proof. reflexivity. Qed.

(** [s.split(c).join(c)] is [s]. *)
Lemma join_String_split (c : ascii) (s : string) :
  join (String c "") (String_split c s) = s.
Proof.
  induction s as [|x s IH]; [done|]. simpl.
  destruct (String_split_cons c s) as (p & ps & Hs). rewrite Hs in *.
  destruct (decide (x = c)) as [->|Hne].
  - rewrite join_cons, IH. reflexivity.
  - destruct ps as [|q ps].
    + simpl in *. by rewrite IH.
    + rewrite join_cons in *. rewrite append_cons. by rewrite IH.
Qed.

(** The character [c] does not occur in [s]. *)
Definition free_of (c : ascii) (s : string) : Prop :=
  includes s (String c "") = false.

Lemma free_of_cons (c x : ascii) (s : string) :
  free_of c (String x s) ↔ x ≠ c ∧ free_of c s.
Proof.
  unfold free_of. simpl.
  destruct (ascii_dec c x) as [->|Hne]; simpl.
  - destruct s; simpl; split; try done; by intros [? _].
  - split; [intros Hs; split; [congruence | done] | by intros [_ ?]].
Qed.

Lemma String_split_free (c : ascii) (s : string) :
  free_of c s → String_split c s = [s].
Proof.
  induction s as [|x s IH]; [done|].
  intros [Hne Hs]%free_of_cons. simpl.
  rewrite decide_False by done. by rewrite IH.
Qed.

Lemma String_split_app (c : ascii) (key rest : string) :
  free_of c key →
  String_split c (key +:+ String c rest) = key :: String_split c rest.
Proof.
  induction key as [|x key IH]; intros Hfree.
  - simpl. by rewrite decide_True.
  - apply free_of_cons in Hfree as [Hne Hfree].
    rewrite append_cons. simpl. rewrite decide_False by done.
    by rewrite IH.
Qed.

(** A string splits at the first [c], if it has one. *)
Lemma first_occurrence (c : ascii) (s : string) :
  free_of c s ∨ ∃ key rest, s = key +:+ String c rest ∧ free_of c key.
Proof.
  induction s as [|x s IH]; [by left|].
  destruct (decide (x = c)) as [->|Hne].
  - right. by exists "", s.
  - destruct IH as [Hfree|(key & rest & -> & Hfree)].
    + left. by apply free_of_cons.
    + right. exists (String x key), rest. split; [done|]. by apply free_of_cons.
Qed.

Section Cookies.
Context `{Platform}.

Lemma parseCookie_cut (key rest : string) :
  free_of "=" key →
  parseCookie (key +:+ "=" +:+ rest) =
    match decodeURIComponent (String_trim rest) with
    | Some value => Return [(String_trim key, value)]
    | None => Throw URIError
    end.
Proof.
  intros Hfree. change ("=" +:+ rest) with (String "=" rest).
  unfold parseCookie. rewrite String_split_app by done.
  destruct (String_split_cons "=" rest) as (p & ps & Hs).
  pose proof (join_String_split "=" rest) as Hjoin. rewrite Hs in *.
  by rewrite Hjoin.
Qed.

(** X1.  [parseCookieString] cuts a cookie at its first equals sign: what
    precedes it, trimmed, is the name, and everything after it, equals signs
    included, trimmed and decoded, is the value; a value that cannot be
    decoded makes it throw [URIError]; a cookie without an equals sign adds
    nothing. *)
Theorem parseCookie_first_equals (cookie : string) :
  (free_of "=" cookie ∧ parseCookie cookie = Return []) ∨
  ∃ key rest,
    cookie = key +:+ "=" +:+ rest ∧ free_of "=" key ∧
    parseCookie cookie =
      match decodeURIComponent (String_trim rest) with
      | Some value => Return [(String_trim key, value)]
      | None => Throw URIError
      end.
Proof.
  destruct (first_occurrence "=" cookie) as [Hfree|(key & rest & -> & Hfree)].
  - left. split; [done|]. unfold parseCookie. by rewrite String_split_free.
  - right. exists key, rest. split_and!; try done. by apply parseCookie_cut.
Qed.

End Cookies.

(** ** Encoding and decoding a URI component *)

(** A string that is the UTF-8 form of a sequence of code points: bytes
    below 128 stand alone, and a lead byte is followed by the continuation
    bytes of the shortest form of a code point. *)
Inductive utf8 : string → Prop :=
| utf8_empty : utf8 ""
| utf8_one c s :
    (N_of_ascii c < 128)%N → utf8 s → utf8 (String c s)
| utf8_two c c1 s :
    (192 ≤ N_of_ascii c < 224)%N →
    utf8_ok2 (N_of_ascii c) (N_of_ascii c1) = true →
    utf8 s → utf8 (String c (String c1 s))
| utf8_three c c1 c2 s :
    (224 ≤ N_of_ascii c < 240)%N →
    utf8_ok3 (N_of_ascii c) (N_of_ascii c1) (N_of_ascii c2) = true →
    utf8 s → utf8 (String c (String c1 (String c2 s)))
| utf8_four c c1 c2 c3 s :
    (240 ≤ N_of_ascii c < 248)%N →
    utf8_ok4 (N_of_ascii c) (N_of_ascii c1) (N_of_ascii c2) (N_of_ascii c3) = true →
    utf8 s → utf8 (String c (String c1 (String c2 (String c3 s)))).

(** What [encodeURIComponent] turns a byte into, as [decodeURIComponent]
    reads it. *)
Definition token_of (c : ascii) : uri_token :=
  if uri_unreserved c then Lit c else Esc (N_of_ascii c).

Fixpoint tokens_of (s : string) : list uri_token :=
  match s with
  | EmptyString => []
  | String c s' => token_of c :: tokens_of s'
  end.

Local Ltac each_byte c :=
  destruct c as [[] [] [] [] [] [] [] []].

Lemma uri_tokens_literal (c : ascii) (s : string) :
  c ≠ "%"%char →
  uri_tokens (String c s) = (λ ts, Lit c :: ts) <$> uri_tokens s.
Proof.
  intros Hc. each_byte c; try done; cbn [uri_tokens]; by destruct (uri_tokens s).
Qed.

Lemma hex_digits_value (c : ascii) :
  hex_value (hex_digit (N_of_ascii c / 16)) = Some (N_of_ascii c / 16)%N ∧
  hex_value (hex_digit (N_of_ascii c mod 16)) = Some (N_of_ascii c mod 16)%N.
Proof. each_byte c; split; vm_compute; reflexivity. Qed.

Lemma uri_unreserved_ascii (c : ascii) :
  uri_unreserved c = true → (N_of_ascii c < 128)%N ∧ c ≠ "%"%char.
Proof. each_byte c; vm_compute; intros; split; congruence. Qed.

Lemma uri_tokens_encode (s : string) :
  uri_tokens (encodeURIComponent s) = Some (tokens_of s).
Proof.
  induction s as [|c s IH]; [done|]. cbn [encodeURIComponent tokens_of].
  unfold token_of. destruct (uri_unreserved c) eqn:Hc.
  - apply uri_unreserved_ascii in Hc as [_ Hc].
    rewrite uri_tokens_literal by done. by rewrite IH.
  - cbn [uri_tokens]. destruct (hex_digits_value c) as [-> ->]. rewrite IH.
    do 2 f_equal. f_equal. pose proof (N.div_mod' (N_of_ascii c) 16). lia.
Qed.

Lemma token_of_high (c : ascii) :
  (128 ≤ N_of_ascii c)%N → token_of c = Esc (N_of_ascii c).
Proof.
  intros Hc. unfold token_of. destruct (uri_unreserved c) eqn:Hu; [|done].
  apply uri_unreserved_ascii in Hu as [? _]. lia.
Qed.

Lemma utf8_cont_high (b : N) : utf8_cont b = true → (128 ≤ b)%N.
Proof. unfold utf8_cont. intros [?%N.leb_le _]%andb_true_iff. done. Qed.

Lemma uri_decode_tokens (s : string) :
  utf8 s → uri_decode (tokens_of s) = Some s.
Proof.
  induction 1 as [|c s Hc _ IH|c c1 s Hc Hok _ IH|c c1 c2 s Hc Hok _ IH
                  |c c1 c2 c3 s Hc Hok _ IH]; [done|..].
  - cbn [tokens_of]. unfold token_of. destruct (uri_unreserved c).
    + cbn [uri_decode]. by rewrite IH.
    + cbn [uri_decode]. assert ((N_of_ascii c <? 128)%N = true) as -> by (by apply N.ltb_lt).
      rewrite IH. simpl. by rewrite ascii_N_embedding.
  - pose proof Hok as Hok'. unfold utf8_ok2 in Hok'.
    apply andb_true_iff in Hok' as [Hc1%utf8_cont_high _].
    cbn [tokens_of]. rewrite !token_of_high by lia. cbn [uri_decode].
    assert ((N_of_ascii c <? 128)%N = false) as -> by (apply N.ltb_ge; lia).
    assert (((192 <=? N_of_ascii c) && (N_of_ascii c <? 224))%N = true) as ->.
    { apply andb_true_iff. split; [apply N.leb_le | apply N.ltb_lt]; lia. }
    rewrite Hok, IH. simpl. by rewrite !ascii_N_embedding.
  - pose proof Hok as Hok'. unfold utf8_ok3 in Hok'.
    apply andb_true_iff in Hok' as [Hok' _]. apply andb_true_iff in Hok' as [Hok' _].
    apply andb_true_iff in Hok' as [Hc1%utf8_cont_high Hc2%utf8_cont_high].
    cbn [tokens_of]. rewrite !token_of_high by lia. cbn [uri_decode].
    assert ((N_of_ascii c <? 128)%N = false) as -> by (apply N.ltb_ge; lia).
    assert (((192 <=? N_of_ascii c) && (N_of_ascii c <? 224))%N = false) as ->.
    { apply andb_false_iff. right. apply N.ltb_ge. lia. }
    assert (((224 <=? N_of_ascii c) && (N_of_ascii c <? 240))%N = true) as ->.
    { apply andb_true_iff. split; [apply N.leb_le | apply N.ltb_lt]; lia. }
    rewrite Hok, IH. simpl. by rewrite !ascii_N_embedding.
  - pose proof Hok as Hok'. unfold utf8_ok4 in Hok'.
    apply andb_true_iff in Hok' as [Hok' _]. apply andb_true_iff in Hok' as [Hok' _].
    apply andb_true_iff in Hok' as [Hok' Hc3%utf8_cont_high].
    apply andb_true_iff in Hok' as [Hc1%utf8_cont_high Hc2%utf8_cont_high].
    cbn [tokens_of]. rewrite !token_of_high by lia. cbn [uri_decode].
    assert ((N_of_ascii c <? 128)%N = false) as -> by (apply N.ltb_ge; lia).
    assert (((192 <=? N_of_ascii c) && (N_of_ascii c <? 224))%N = false) as ->.
    { apply andb_false_iff. right. apply N.ltb_ge. lia. }
    assert (((224 <=? N_of_ascii c) && (N_of_ascii c <? 240))%N = false) as ->.
    { apply andb_false_iff. right. apply N.ltb_ge. lia. }
    assert (((240 <=? N_of_ascii c) && (N_of_ascii c <? 248))%N = true) as ->.
    { apply andb_true_iff. split; [apply N.leb_le | apply N.ltb_lt]; lia. }
    rewrite Hok, IH. simpl. by rewrite !ascii_N_embedding.
Qed.

(** [decodeURIComponent(encodeURIComponent(s))] is [s]. *)
Lemma decode_encode (s : string) :
  utf8 s → decodeURIComponent (encodeURIComponent s) = Some s.
Proof.
  intros Hs. unfold decodeURIComponent. rewrite uri_tokens_encode. simpl.
  by apply uri_decode_tokens.
Qed.

(** An encoded component has no semicolon and no equals sign. *)
Lemma encode_free_of (c : ascii) (s : string) :
  uri_unreserved c = false → c ≠ "%"%char →
  (∀ n, (n < 16)%N → hex_digit n ≠ c) →
  free_of c (encodeURIComponent s).
Proof.
  intros Hc Hpercent Hhex. induction s as [|x s IH]; [done|].
  cbn [encodeURIComponent]. destruct (uri_unreserved x) eqn:Hx.
  - apply free_of_cons. split; [congruence | done].
  - apply free_of_cons. split; [done|].
    apply free_of_cons. split; [apply Hhex, N.Div0.div_lt_upper_bound; pose proof (N_ascii_bounded x); lia|].
    apply free_of_cons. split; [apply Hhex, N.mod_lt; lia | done].
Qed.

Lemma hex_digit_not (c : ascii) :
  c = ";"%char ∨ c = "="%char → ∀ n, (n < 16)%N → hex_digit n ≠ c.
Proof.
  intros Hc n Hn.
  assert (n = 0 ∨ n = 1 ∨ n = 2 ∨ n = 3 ∨ n = 4 ∨ n = 5 ∨ n = 6 ∨ n = 7 ∨ n = 8 ∨
          n = 9 ∨ n = 10 ∨ n = 11 ∨ n = 12 ∨ n = 13 ∨ n = 14 ∨ n = 15)%N as Hcases by lia.
  destruct Hc as [-> | ->]; destruct_or!; subst n; vm_compute; discriminate.
Qed.

Lemma append_empty_l (s : string) : "" +:+ s = s.
Proof. reflexivity. Qed.

Lemma free_of_app (c : ascii) (s t : string) :
  free_of c (s +:+ t) ↔ free_of c s ∧ free_of c t.
Proof.
  induction s as [|x s IH]; rewrite ?append_cons, ?append_empty_l.
  - split; [by intros ? | by intros [_ ?]].
  - rewrite !free_of_cons, IH. tauto.
Qed.

Section CookieRoundTrip.
Context `{Platform}.

(** X2.  A cookie that [setCookie] has built is read back by
    [parseCookieString]: for a name without semicolon and equals sign that
    [trim] leaves alone, and for a value in UTF-8 whose encoded form [trim]
    leaves alone, parsing the name, an equals sign and the encoded value
    gives the one pair of the name and the value. *)
Theorem cookie_round_trip (name value : string) :
  free_of ";" name → free_of "=" name →
  String_trim name = name →
  String_trim (encodeURIComponent value) = encodeURIComponent value →
  utf8 value →
  parseCookieString
    (cookie_string name value (mkCookieOptions None None None None None None None)) =
  Return [(name, value)].
Proof.
  intros Hsemi Heq Hname Hvalue Hutf8.
  change (cookie_string name value _)
    with (name +:+ "=" +:+ encodeURIComponent value +:+ "").
  rewrite app_empty_r. unfold parseCookieString.
  rewrite String_split_free.
  2:{ apply free_of_app. split; [done|]. apply free_of_cons. split; [done|].
      apply encode_free_of; [done..|]. apply hex_digit_not. by left. }
  cbn [parseCookies].
  rewrite parseCookie_cut by done.
  rewrite Hname, Hvalue, decode_encode by done. reflexivity.
Qed.

End CookieRoundTrip.

(** ** The single-shot senders together *)

Section Senders.
Context `{Platform}.

(** The single-shot senders. *)
Inductive Sender :=
| by_sendEmpty (status : Z) (headers : Node.OutgoingHttpHeaders)
| by_sendString (status : Z) (headers : Node.OutgoingHttpHeaders) (data : string)
    (encoding : Node.BufferEncoding)
| by_sendBuffer (status : Z) (headers : Node.OutgoingHttpHeaders) (data : string)
| by_sendSimple (status : Z) (msg : string)
| by_sendJSON (status : Z) (obj : value)
| by_redirect (location : string)
| by_end.

Definition send (this : Streamer) (s : Sender) : M sentinel :=
  match s with
  | by_sendEmpty status headers => sendEmpty status headers
  | by_sendString status headers data encoding => sendString this status headers data encoding
  | by_sendBuffer status headers data => sendBuffer this status headers data
  | by_sendSimple status msg => sendSimple this status msg
  | by_sendJSON status obj => sendJSON this status obj
  | by_redirect location => redirect this location
  | by_end => Streamer_end
  end.

(** *** What holds when a computation returns *)

Definition ensures {A} (m : M A) (Q : World → Prop) : Prop :=
  ∀ w a, (m w).1 = Return a → Q (m w).2.

Lemma ensures_bind_r {A B} (m : M A) (f : A → M B) Q :
  (∀ a, ensures (f a) Q) → ensures (bind m f) Q.
Proof.
  intros Hf w b. unfold bind. destruct (m w) as [[a|e] w']; [apply Hf | done].
Qed.

Lemma ensures_bind_l {A B} (m : M A) (f : A → M B) Q :
  ensures m Q → (∀ a, preserved Q (f a)) → ensures (bind m f) Q.
Proof.
  intros Hm Hf w b. unfold bind. specialize (Hm w).
  destruct (m w) as [[a|e] w']; [|done]. simpl in Hm.
  intros _. apply Hf. by eapply Hm.
Qed.

Lemma ensures_throw {A} e Q : ensures (throw (A:=A) e) Q.
Proof. by intros w a. Qed.

Definition ended (w : World) : Prop := Node.writableEnded (res w) = true.

Lemma Node_end_ended c r : Node.writableEnded (Node.end_ c r) = true.
Proof. unfold Node.end_. by destruct (Node.writableEnded r) eqn:He. Qed.

Lemma preserved_ended_ret {A} (a : A) : preserved ended (ret a).
Proof. by intros w. Qed.

Lemma ensures_end {A} c (a : A) :
  ensures (bind (bind writer (λ _, res_do (Node.end_ c))) (λ _, ret a)) ended.
Proof.
  apply ensures_bind_l; [|intros; apply preserved_ended_ret].
  apply ensures_bind_r. intros _ w u _. destruct w. apply Node_end_ended.
Qed.

Lemma ensures_end_flat {A} c (a : A) :
  ensures (bind writer (λ _, bind (res_do (Node.end_ c)) (λ _, ret a))) ended.
Proof.
  apply ensures_bind_r. intros _ w u _. destruct w. apply Node_end_ended.
Qed.

Lemma sendEmpty_ensures_ended status hs : ensures (sendEmpty status hs) ended.
Proof.
  unfold sendEmpty. do 3 (apply ensures_bind_r; intros). apply ensures_end_flat.
Qed.

Lemma sendString_ensures_ended this status hs data encoding :
  ensures (sendString this status hs data encoding) ended.
Proof.
  unfold sendString. do 3 (apply ensures_bind_r; intros).
  destruct (decide _); apply ensures_end.
Qed.

Lemma send_ensures_ended (this : Streamer) (s : Sender) : ensures (send this s) ended.
Proof.
  destruct s as [status hs|status hs body enc|status hs body|status msg|status obj|location|]; simpl.
  - apply sendEmpty_ensures_ended.
  - apply sendString_ensures_ended.
  - unfold sendBuffer. do 3 (apply ensures_bind_r; intros).
    destruct (decide _); apply ensures_end.
  - apply sendString_ensures_ended.
  - unfold sendJSON. destruct (stringify obj) as [[j|]|].
    + apply sendString_ensures_ended.
    + do 2 (apply ensures_bind_r; intros). apply ensures_throw.
    + apply ensures_throw.
  - apply sendEmpty_ensures_ended.
  - apply ensures_end_flat.
Qed.

(** X3.  The sentinel is a proof that the stream has ended: whenever a
    single-shot sender returns, from any state of the response, the
    response has been ended. *)
Theorem sentinel_means_ended (this : Streamer) (s : Sender) (w : World) (x : sentinel) :
  (send this s w).1 = Return x → Node.writableEnded (res (send this s w).2) = true.
Proof. apply send_ensures_ended. Qed.

(** *** A second answer is refused *)

Lemma ensures_writeHead status hs : ensures (writeHead status hs) head_sent.
Proof.
  unfold writeHead. do 4 (apply ensures_bind_r; intros).
  intros [[sent st m hd ch en] b c s e d] u. unfold res_call, head_sent. simpl.
  unfold Node.writeHead. simpl.
  destruct sent; [done|]. by destruct (Node.valid_status status).
Qed.

Lemma preserved_end_tail {A} c (a : A) P :
  Stable P → preserved P (bind writer (λ _, bind (res_do (Node.end_ c)) (λ _, ret a))).
Proof.
  intros HP. apply preserved_bind; [by apply preserved_writer|intros _].
  apply preserved_bind; [|intros; apply preserved_ret].
  apply preserved_res_do; [done|]. intros r. constructor.
Qed.

Lemma preserved_end_nested {A} c (a : A) P :
  Stable P →
  preserved P (bind (bind writer (λ _, res_do (Node.end_ c))) (λ _, ret a)).
Proof.
  intros HP. apply preserved_bind; [|intros; apply preserved_ret].
  apply preserved_bind; [by apply preserved_writer|intros _].
  apply preserved_res_do; [done|]. intros r. constructor.
Qed.

Lemma sendEmpty_ensures_sent status hs : ensures (sendEmpty status hs) head_sent.
Proof.
  unfold sendEmpty. do 2 (apply ensures_bind_r; intros).
  apply ensures_bind_l; [apply ensures_writeHead|intros _].
  apply preserved_end_tail, head_sent_stable.
Qed.

Lemma sendString_ensures_sent this status hs data encoding :
  ensures (sendString this status hs data encoding) head_sent.
Proof.
  unfold sendString. do 2 (apply ensures_bind_r; intros).
  apply ensures_bind_l; [apply ensures_writeHead|intros _].
  destruct (decide _); apply preserved_end_nested, head_sent_stable.
Qed.

Lemma send_ensures_sent this s w x :
  Node.writableEnded (res w) = false →
  (send this s w).1 = Return x → head_sent (send this s w).2.
Proof.
  intros Hopen. destruct s as [status hs|status hs body enc|status hs body|status msg|status obj|location|]; simpl.
  - apply sendEmpty_ensures_sent.
  - apply sendString_ensures_sent.
  - revert w x Hopen. 
    assert (ensures (sendBuffer this status hs body) head_sent) as Hb; [|intros; by eapply Hb].
    unfold sendBuffer. do 2 (apply ensures_bind_r; intros).
    apply ensures_bind_l; [apply ensures_writeHead|intros _].
    destruct (decide _); apply preserved_end_nested, head_sent_stable.
  - apply sendString_ensures_sent.
  - unfold sendJSON. destruct (stringify obj) as [[j|]|].
    + apply sendString_ensures_sent.
    + revert x. apply ensures_bind_r. intros. apply ensures_bind_r. intros. apply ensures_throw.
    + done.
  - apply sendEmpty_ensures_sent.
  - intros _. destruct w as [[sent st m hd ch en] b c s e d]. simpl in Hopen. subst en.
    unfold head_sent. by destruct sent, b.
Qed.

(** On a response whose head is out, [writeHead] throws and leaves the
    response as it is. *)
Lemma writeHead_head_sent status hs w :
  head_sent w →
  (writeHead status hs w).1 = Throw ERR_HTTP_HEADERS_SENT ∧
  res (writeHead status hs w).2 = res w.
Proof.
  destruct w as [r b c s e d]. unfold head_sent. cbn [res]. intros Hs.
  unfold writeHead. rewrite bind_eval. cbn [gets Debug_send].
  rewrite bind_eval.
  assert (∀ c', (bind (checkHeadersSentBy true)
            (λ _, bind (forEach (λ kv, setHeader kv.1 (Node.header_value_to_string kv.2)) hs)
                    (λ _, res_call (Node.writeHead status hs)))
            (mkWorld r b c' s e d)).1 = Throw ERR_HTTP_HEADERS_SENT ∧
          res (bind (checkHeadersSentBy true)
            (λ _, bind (forEach (λ kv, setHeader kv.1 (Node.header_value_to_string kv.2)) hs)
                    (λ _, res_call (Node.writeHead status hs)))
            (mkWorld r b c' s e d)).2 = r) as Hrest.
  { intros c'. rewrite bind_eval.
    destruct r as [sent st m hd ch en]. cbn [Node.headersSent] in Hs. subst sent.
    destruct b as [first|].
    - rewrite checkHeadersSentBy_sent, forEach_setHeader_sent by done. done.
    - unfold checkHeadersSentBy at 1. simpl.
      rewrite forEach_setHeader_sent by done. done. }
  destruct d; cbn [console_log ret]; apply Hrest.
Qed.

Definition refused_by (e : exn) {A} (m : M A) : Prop :=
  ∀ w, head_sent w → (m w).1 = Throw e ∧ res (m w).2 = res w.

Lemma traced_head_refused {A} label status hs0 hs (k : M A) :
  refused_by ERR_HTTP_HEADERS_SENT
    (bind (gets env_DEBUG_send) (λ debug,
       bind (if debug : bool then console_log (LogTrace label status hs0) else ret ())
         (λ _, bind (writeHead status hs) (λ _, k)))).
Proof.
  intros [r b c s e d] Hw. rewrite bind_eval. cbn [gets env_DEBUG_send].
  rewrite bind_eval.
  assert (∀ c', (bind (writeHead status hs) (λ _, k) (mkWorld r b c' s e d)).1 =
                  Throw ERR_HTTP_HEADERS_SENT ∧
                res (bind (writeHead status hs) (λ _, k) (mkWorld r b c' s e d)).2 = r)
    as Hrest.
  { intros c'. rewrite bind_eval.
    destruct (writeHead_head_sent status hs (mkWorld r b c' s e d) Hw) as [Ho Hr].
    destruct (writeHead status hs (mkWorld r b c' s e d)) as [[u|x] w']; simpl in *; [done|].
    by inversion Ho. }
  destruct e; cbn [console_log ret]; apply Hrest.
Qed.

(** X4.  One answer for one request.  After a single-shot sender has
    returned on a response that had sent nothing and was open, no
    single-shot sender changes the response any more, and each of them
    throws, except [end], which returns. *)
Theorem one_response (this : Streamer) (s1 s2 : Sender) (w : World) :
  Node.headersSent (res w) = false →
  Node.writableEnded (res w) = false →
  (send this s1 w).1 = Return STREAM_ENDED →
  let w1 := (send this s1 w).2 in
  res (send this s2 w1).2 = res w1 ∧
  match s2 with
  | by_end => (send this s2 w1).1 = Return STREAM_ENDED
  | by_sendJSON _ obj =>
      (send this s2 w1).1 =
        Throw (match stringify obj with
               | Some (Text _) => ERR_HTTP_HEADERS_SENT
               | _ => TypeError
               end)
  | _ => (send this s2 w1).1 = Throw ERR_HTTP_HEADERS_SENT
  end.
Proof.
  intros Hunsent Hopen Hret w1.
  assert (head_sent w1) as Hsent by (by eapply send_ensures_sent).
  assert (Node.writableEnded (res w1) = true) as Hended
    by (by eapply send_ensures_ended).
  clearbody w1. clear Hunsent Hopen Hret.
  destruct s2 as [status hs|status hs body enc|status hs body|status msg|status obj|location|]; simpl.
  - destruct (traced_head_refused "sendEmpty" status hs hs
               (bind writer (λ _, bind (res_do (Node.end_ None)) (λ _, ret STREAM_ENDED)))
               w1 Hsent) as [? ?]. done.
  - unfold sendString.
    edestruct (traced_head_refused (A:=sentinel) "sendString" status hs) as [? ?];
      [exact Hsent|]. split; eassumption.
  - unfold sendBuffer.
    edestruct (traced_head_refused (A:=sentinel) "sendBuffer" status hs) as [? ?];
      [exact Hsent|]. split; eassumption.
  - unfold sendSimple, sendString.
    edestruct (traced_head_refused (A:=sentinel) "sendString" status) as [? ?];
      [exact Hsent|]. split; eassumption.
  - unfold sendJSON. destruct (stringify obj) as [[j|]|].
    + unfold sendString.
      edestruct (traced_head_refused (A:=sentinel) "sendString" status) as [? ?];
        [exact Hsent|]. split; eassumption.
    + destruct w1 as [r b c s e d]. by destruct e.
    + done.
  - unfold redirect.
    destruct (traced_head_refused "sendEmpty" 302
               [("Location", Node.One (Node.SStr (pathPrefix this +:+ location)))]
               [("Location", Node.One (Node.SStr (pathPrefix this +:+ location)))]
               (bind writer (λ _, bind (res_do (Node.end_ None)) (λ _, ret STREAM_ENDED)))
               w1 Hsent) as [? ?]. done.
  - destruct w1 as [[sent st m hd ch en] b c s e d]. unfold head_sent in Hsent.
    simpl in Hsent, Hended. subst. by destruct b.
Qed.

(** *** The first answer *)

Lemma traced_head_unsent {A} label status hs0 hs (k : M A) st m hd ch en b c s e d :
  Node.valid_status status = true →
  bind (gets env_DEBUG_send) (λ debug,
    bind (if debug : bool then console_log (LogTrace label status hs0) else ret ())
      (λ _, bind (writeHead status hs) (λ _, k)))
    (mkWorld (Node.mkResponse false st m hd ch en) b c s e d) =
  let m' := Node.merge_headers (staged_strings m hs) hs in
  k (mkWorld (Node.mkResponse true status m' (hd ++ [(status, m')]) ch en)
       (Some (mkError first_attempt s))
       ((c ++ trace_line e label status hs0) ++ trace_line d "writeHead" status hs) s e d).
Proof.
  intros Hv. rewrite bind_eval. cbn [gets env_DEBUG_send]. rewrite bind_eval.
  assert (∀ c', bind (writeHead status hs) (λ _, k)
                  (mkWorld (Node.mkResponse false st m hd ch en) b c' s e d) =
                let m' := Node.merge_headers (staged_strings m hs) hs in
                k (mkWorld (Node.mkResponse true status m' (hd ++ [(status, m')]) ch en)
                     (Some (mkError first_attempt s))
                     (c' ++ trace_line d "writeHead" status hs) s e d)) as Hrest.
  { intros c'. rewrite bind_eval.
    change (writeHead status hs ?w) with (at_site s (writeHead status hs) w).
    by rewrite writeHead_unsent. }
  destruct e; cbn [console_log ret trace_line res headersSentBy console callSite
    env_DEBUG_send Debug_send]; rewrite Hrest, ?app_nil_r; done.
Qed.

Lemma traced_head_invalid {A} label status hs0 hs (k : M A) st m hd ch en b c s e d :
  Node.valid_status status = false →
  bind (gets env_DEBUG_send) (λ debug,
    bind (if debug : bool then console_log (LogTrace label status hs0) else ret ())
      (λ _, bind (writeHead status hs) (λ _, k)))
    (mkWorld (Node.mkResponse false st m hd ch en) b c s e d) =
  (Throw (ERR_HTTP_INVALID_STATUS_CODE status),
   mkWorld (Node.mkResponse false st (staged_strings m hs) hd ch en)
     (Some (mkError first_attempt s))
     ((c ++ trace_line e label status hs0) ++ trace_line d "writeHead" status hs) s e d).
Proof.
  intros Hv. rewrite bind_eval. cbn [gets env_DEBUG_send]. rewrite bind_eval.
  assert (∀ c', bind (writeHead status hs) (λ _, k)
                  (mkWorld (Node.mkResponse false st m hd ch en) b c' s e d) =
                (Throw (ERR_HTTP_INVALID_STATUS_CODE status),
                 mkWorld (Node.mkResponse false st (staged_strings m hs) hd ch en)
                   (Some (mkError first_attempt s))
                   (c' ++ trace_line d "writeHead" status hs) s e d)) as Hrest.
  { intros c'. rewrite bind_eval.
    change (writeHead status hs ?w) with (at_site s (writeHead status hs) w).
    by rewrite writeHead_invalid. }
  destruct e; cbn [console_log ret trace_line res headersSentBy console callSite
    env_DEBUG_send Debug_send]; rewrite Hrest, ?app_nil_r; done.
Qed.

Lemma end_after_head c st m hd ch x cs s e d :
  bind writer (λ _, res_do (Node.end_ c))
    (mkWorld (Node.mkResponse true st m hd ch false) (Some x) cs s e d) =
  (Return (),
   mkWorld (Node.mkResponse true st m hd (ch ++ option_list c) true) (Some x) cs s e d).
Proof. reflexivity. Qed.

Lemma sendEmpty_unsent status hs st m hd ch b c s e d :
  Node.valid_status status = true →
  sendEmpty status hs (mkWorld (Node.mkResponse false st m hd ch false) b c s e d) =
  let m' := Node.merge_headers (staged_strings m hs) hs in
  (Return STREAM_ENDED,
   mkWorld (Node.mkResponse true status m' (hd ++ [(status, m')]) ch true)
     (Some (mkError first_attempt s))
     ((c ++ trace_line e "sendEmpty" status hs) ++ trace_line d "writeHead" status hs)
     s e d).
Proof.
  intros Hv. unfold sendEmpty. rewrite traced_head_unsent by done. cbn zeta.
  unfold bind, writer, res_do, res_call, get_headersSent, gets, ret. simpl.
  unfold Node.end_, Node.implicitHeader. simpl. by rewrite app_nil_r.
Qed.

Lemma sendString_unsent this status hs data encoding st m hd ch b c s e d :
  Node.valid_status status = true →
  sendString this status hs data encoding
    (mkWorld (Node.mkResponse false st m hd ch false) b c s e d) =
  let hs' := Node.object_set "content-length"
               (Node.One (Node.SNum (Num (Z.of_N (Buffer_byteLength data encoding))))) hs in
  let m' := Node.merge_headers (staged_strings m hs') hs' in
  (Return STREAM_ENDED,
   mkWorld (Node.mkResponse true status m' (hd ++ [(status, m')])
              (ch ++ if decide (method this = "HEAD") then []
                     else [Node.mkChunk data (Some encoding)]) true)
     (Some (mkError first_attempt s))
     ((c ++ trace_line e "sendString" status hs) ++ trace_line d "writeHead" status hs')
     s e d).
Proof.
  intros Hv. unfold sendString. rewrite traced_head_unsent by done. cbn zeta.
  rewrite bind_eval. destruct (decide _); by rewrite end_after_head.
Qed.

Lemma sendBuffer_unsent this status hs data st m hd ch b c s e d :
  Node.valid_status status = true →
  sendBuffer this status hs data
    (mkWorld (Node.mkResponse false st m hd ch false) b c s e d) =
  let hs' := Node.object_set "content-length"
               (Node.One (Node.SNum (Num (Z.of_nat (String.length data))))) hs in
  let m' := Node.merge_headers (staged_strings m hs') hs' in
  (Return STREAM_ENDED,
   mkWorld (Node.mkResponse true status m' (hd ++ [(status, m')])
              (ch ++ if decide (method this = "HEAD") then []
                     else [Node.mkChunk data None]) true)
     (Some (mkError first_attempt s))
     ((c ++ trace_line e "sendBuffer" status hs) ++ trace_line d "writeHead" status hs')
     s e d).
Proof.
  intros Hv. unfold sendBuffer. rewrite traced_head_unsent by done. cbn zeta.
  rewrite bind_eval. destruct (decide _); by rewrite end_after_head.
Qed.

Lemma content_length_last v (hs : Node.OutgoingHttpHeaders) m :
  NoDup (map (λ kv, toLowerCase kv.1) hs) →
  Node.merge_headers m (Node.object_set "content-length" v hs) !! "content-length" = Some v.
Proof.
  intros Hnd. destruct (object_set_last "content-length" v hs Hnd) as (l1 & l2 & -> & Hl2).
  by apply (merge_headers_last _ l1 "content-length" v l2).
Qed.

(** X5.  [sendBuffer] decides the [content-length] itself.  On a response
    that has sent nothing and is open, for a status from 100 to 999 and
    headers whose names differ even when case is ignored, whatever
    [content-length] the caller passed, the one head sent carries the number
    of bytes of the buffer; the body is the buffer, and nothing for
    [HEAD]. *)
Theorem sendBuffer_content_length (this : Streamer) (status : Z)
    (hs : Node.OutgoingHttpHeaders) (data : string) (w : World) :
  Node.headersSent (res w) = false →
  Node.writableEnded (res w) = false →
  100 ≤ status ≤ 999 →
  NoDup (map (λ kv, toLowerCase kv.1) hs) →
  let result := sendBuffer this status hs data w in
  let r := res result.2 in
  result.1 = Return STREAM_ENDED ∧
  (∃ m, Node.heads r = Node.heads (res w) ++ [(status, m)] ∧
        m !! "content-length" =
          Some (Node.One (Node.SNum (Num (Z.of_nat (String.length data)))))) ∧
  Node.chunks r =
    Node.chunks (res w) ++
    (if decide (method this = "HEAD") then [] else [Node.mkChunk data None]).
Proof.
  destruct w as [[sent st m hd ch en] b c s e d]. simpl.
  intros -> -> Hv%valid_status_range Hnd.
  rewrite sendBuffer_unsent by done. cbn. split_and!; [done| |done].
  eexists. split; [done|]. by apply content_length_last.
Qed.

Lemma json_headers v x :
  Node.object_set "content-length" v [("content-type", x)] =
  [("content-type", x); ("content-length", v)].
Proof. reflexivity. Qed.

(** X6.  [sendJSON] on a response that has sent nothing and is open.  A
    value [JSON.stringify] turns into a text is sent, when the status is
    from 100 to 999, in one head with that status,
    [content-type: application/json] and the byte length of the text as
    [content-length], followed by the text unless the method is [HEAD].
    With any other status the response object rejects the head:
    [sendJSON] throws [ERR_HTTP_INVALID_STATUS_CODE], no head and no body
    are sent and the response stays open, with the two headers staged on
    it.  A value [JSON.stringify] cannot serialise, or turns into
    [undefined], makes [sendJSON] throw a [TypeError] before anything is
    sent or staged. *)
Theorem sendJSON_sends (this : Streamer) (status : Z) (obj : value) (w : World) :
  Node.headersSent (res w) = false →
  Node.writableEnded (res w) = false →
  let result := sendJSON this status obj w in
  let r := res result.2 in
  match stringify obj with
  | Some (Text j) =>
      (100 ≤ status ≤ 999 →
       result.1 = Return STREAM_ENDED ∧
       (∃ m, Node.heads r = Node.heads (res w) ++ [(status, m)] ∧
             m !! "content-type" = Some (Node.One (Node.SStr "application/json")) ∧
             m !! "content-length" =
               Some (Node.One (Node.SNum (Num (Z.of_N (Buffer_byteLength j Node.utf8)))))) ∧
       Node.chunks r =
         Node.chunks (res w) ++
         (if decide (method this = "HEAD") then [] else [Node.mkChunk j (Some Node.utf8)]) ∧
       Node.writableEnded r = true) ∧
      (¬ 100 ≤ status ≤ 999 →
       result.1 = Throw (ERR_HTTP_INVALID_STATUS_CODE status) ∧
       Node.headersSent r = false ∧
       Node.heads r = Node.heads (res w) ∧
       Node.chunks r = Node.chunks (res w) ∧
       Node.writableEnded r = false ∧
       Node.staged r !! "content-type" =
         Some (Node.One (Node.SStr "application/json")) ∧
       is_Some (Node.staged r !! "content-length"))
  | _ => result.1 = Throw TypeError ∧ r = res w
  end.
Proof.
  destruct w as [[sent st m hd ch en] b c s e d]. simpl. intros -> ->.
  unfold sendJSON. destruct (stringify obj) as [[j|]|].
  - split.
    + intros Hv%valid_status_range.
      rewrite sendString_unsent by done. cbn zeta.
      cbn [fst snd res Node.heads Node.chunks Node.writableEnded].
      split_and!; [done| |done|done].
      eexists. split; [done|]. split.
      * rewrite json_headers. unfold Node.merge_headers. simpl.
        rewrite lookup_insert_ne by done. apply lookup_insert_eq.
      * apply content_length_last. simpl. repeat constructor; set_solver.
    + intros Hv. assert (Node.valid_status status = false) as Hv'.
      { destruct (Node.valid_status status) eqn:Hs; [|done].
        by apply valid_status_range in Hs. }
      unfold sendString. rewrite traced_head_invalid by done.
      cbn [fst snd res Node.heads Node.chunks Node.writableEnded Node.headersSent
           Node.staged].
      split_and!; try done.
      * rewrite json_headers. unfold staged_strings. simpl.
        rewrite lookup_insert_ne by done. apply lookup_insert_eq.
      * rewrite json_headers. unfold staged_strings. simpl.
        eexists. apply lookup_insert_eq.
  - by destruct e.
  - done.
Qed.

(** *** Redirecting under a path prefix *)

Lemma new_Streamer_request st routePath bodyFormat w this :
  (new_Streamer st routePath bodyFormat w).1 = Return this →
  pathPrefix this = p_pathPrefix st ∧ url this = p_url st ∧ method this = p_method st.
Proof.
  unfold new_Streamer. rewrite bind_eval.
  destruct (safeParse_pathParams _); simpl; by intros [= <-].
Qed.

Lemma parseRequest_url req r pathPrefix0 expectSecure st r' :
  parseRequest req r pathPrefix0 expectSecure = (Return st, r') →
  p_pathPrefix st +:+ p_url st = req_url req.
Proof.
  unfold parseRequest. intros Hst.
  destruct (negb (startsWith (req_url req) "/")); [done|].
  destruct (truthy_string pathPrefix0) eqn:Ht.
  - destruct (decide _).
    { by destruct (Node.writeHead _ _ _) as [[?|?] ?]. }
    destruct (startsWith (req_url req) pathPrefix0) eqn:Hstart.
    + injection Hst as Hst _. apply request_state_url in Hst as [-> ->].
      symmetry. by apply startsWith_slice.
    + by destruct (Node.writeHead _ _ _) as [[?|?] ?].
  - injection Hst as Hst _. apply request_state_url in Hst as [-> ->].
    by destruct pathPrefix0.
Qed.

(** X7.  Stripping the prefix and redirecting are inverse to each other.
    For a request that [parseRequest] accepted under a path prefix, the
    streamer built from it, asked to redirect to its own [url] on a response
    that has sent nothing and is open, sends one head with status 302 whose
    [location] is the URL of the request as it came in, and no body. *)
Theorem redirect_restores_url (req : Request) (r0 r0' : Node.Response)
    (pathPrefix0 : string) (expectSecure0 : bool) (st : ParsedRequest)
    (routePath0 : list RouteMatch) (bodyFormat0 : BodyFormat) (w0 w : World)
    (this : Streamer) :
  parseRequest req r0 pathPrefix0 expectSecure0 = (Return st, r0') →
  (new_Streamer st routePath0 bodyFormat0 w0).1 = Return this →
  Node.headersSent (res w) = false →
  Node.writableEnded (res w) = false →
  let result := redirect this (url this) w in
  let r := res result.2 in
  result.1 = Return STREAM_ENDED ∧
  (∃ m, Node.heads r = Node.heads (res w) ++ [(302, m)] ∧
        m !! "location" = Some (Node.One (Node.SStr (req_url req)))) ∧
  Node.chunks r = Node.chunks (res w) ∧
  Node.writableEnded r = true.
Proof.
  intros Hreq Hthis. apply parseRequest_url in Hreq.
  apply new_Streamer_request in Hthis as (Hp & Hu & _).
  destruct w as [[sent st' m hd ch en] b c s e d]. simpl. intros -> ->.
  unfold redirect. rewrite sendEmpty_unsent by done. cbn zeta.
  cbn [fst snd res Node.heads Node.chunks Node.writableEnded].
  split_and!; [done| |done|done].
  eexists. split; [done|].
  rewrite Hp, Hu, Hreq. unfold Node.merge_headers. simpl. apply lookup_insert_eq.
Qed.

(** *** Answers to [HEAD] *)

Definition keeps_chunks {A} (m : M A) : Prop :=
  ∀ w, Node.chunks (res (m w).2) = Node.chunks (res w).

Lemma keeps_chunks_bind {A B} (m : M A) (f : A → M B) :
  keeps_chunks m → (∀ a, keeps_chunks (f a)) → keeps_chunks (bind m f).
Proof.
  intros Hm Hf w. rewrite bind_eval. specialize (Hm w).
  destruct (m w) as [[a|x] w']; simpl in *; [|done].
  by rewrite Hf.
Qed.

Lemma keeps_chunks_writeHead status hs : keeps_chunks (writeHead status hs).
Proof.
  intros w. destruct (Node.headersSent (res w)) eqn:Hs.
  - by destruct (writeHead_head_sent status hs w Hs) as [_ ->].
  - destruct w as [[sent st m hd ch en] b c s e d]. simpl in Hs. subst sent.
    change (writeHead status hs ?w) with (at_site s (writeHead status hs) w).
    destruct (Node.valid_status status) eqn:Hv.
    + by rewrite writeHead_unsent.
    + by rewrite writeHead_invalid.
Qed.

Lemma keeps_chunks_writer : keeps_chunks writer.
Proof.
  intros [[sent st m hd ch en] b c s e d].
  unfold bind, writer, get_headersSent, gets, new_Error, set_headersSentBy, ret.
  by destruct sent, b.
Qed.

Lemma keeps_chunks_end_ : keeps_chunks (res_do (Node.end_ None)).
Proof.
  intros [[sent st m hd ch en] b c s e d].
  unfold res_do, res_call, Node.end_, Node.implicitHeader.
  destruct sent, en; simpl; by rewrite ?app_nil_r.
Qed.

Lemma keeps_chunks_end : keeps_chunks (bind writer (λ _, res_do (Node.end_ None))).
Proof.
  apply keeps_chunks_bind; [apply keeps_chunks_writer|intros _; apply keeps_chunks_end_].
Qed.

Lemma keeps_chunks_end_flat {A} (a : A) :
  keeps_chunks (bind writer (λ _, bind (res_do (Node.end_ None)) (λ _, ret a))).
Proof.
  apply keeps_chunks_bind; [apply keeps_chunks_writer|intros _].
  apply keeps_chunks_bind; [apply keeps_chunks_end_|done].
Qed.

Lemma keeps_chunks_sendEmpty status hs : keeps_chunks (sendEmpty status hs).
Proof.
  unfold sendEmpty.
  apply (keeps_chunks_bind (gets env_DEBUG_send)); [done|intros debug].
  apply keeps_chunks_bind; [by destruct debug; intros []|intros _].
  apply keeps_chunks_bind; [apply keeps_chunks_writeHead|intros _].
  apply keeps_chunks_end_flat.
Qed.

Lemma keeps_chunks_sendString this status hs data encoding :
  method this = "HEAD" → keeps_chunks (sendString this status hs data encoding).
Proof.
  intros Hm. unfold sendString.
  apply (keeps_chunks_bind (gets env_DEBUG_send)); [done|intros debug].
  apply keeps_chunks_bind; [by destruct debug; intros []|intros _].
  apply keeps_chunks_bind; [apply keeps_chunks_writeHead|intros _].
  destruct (decide _); [|done].
  apply keeps_chunks_bind; [apply keeps_chunks_end|done].
Qed.

(** X8.  A [HEAD] request never gets a body.  Whatever the state of the
    response, and whether the sender returns or throws, no single-shot
    sender of a streamer whose method is [HEAD] writes a chunk. *)
Theorem head_request_no_body (this : Streamer) (s : Sender) (w : World) :
  method this = "HEAD" →
  Node.chunks (res (send this s w).2) = Node.chunks (res w).
Proof.
  intros Hm. revert w. change (keeps_chunks (send this s)).
  destruct s as [status hs|status hs body enc|status hs body|status msg|status obj|location|]; simpl.
  - apply keeps_chunks_sendEmpty.
  - by apply keeps_chunks_sendString.
  - unfold sendBuffer.
    apply (keeps_chunks_bind (gets env_DEBUG_send)); [done|intros debug].
    apply keeps_chunks_bind; [by destruct debug; intros []|intros _].
    apply keeps_chunks_bind; [apply keeps_chunks_writeHead|intros _].
    destruct (decide _); [|done].
    apply keeps_chunks_bind; [apply keeps_chunks_end|done].
  - by apply keeps_chunks_sendString.
  - unfold sendJSON. destruct (stringify obj) as [[j|]|].
    + by apply keeps_chunks_sendString.
    + apply (keeps_chunks_bind (gets env_DEBUG_send)); [done|intros debug].
      apply keeps_chunks_bind; [by destruct debug; intros []|done].
    + done.
  - apply keeps_chunks_sendEmpty.
  - apply keeps_chunks_end_flat.
Qed.

End Senders.

(** ** What is on the wire stays *)

Section Wire.
Context `{Platform}.

(** The response is [r0]. *)
Definition response_is (r0 : Node.Response) (w : World) : Prop := res w = r0.

Lemma node_step_closed r r' :
  node_step r r' → Node.headersSent r = true → Node.writableEnded r = true → r' = r.
Proof.
  intros Hstep Hs He. destruct Hstep as [n v r|st hs r|c r|c r]; destruct r; simpl in *; subst.
  - done.
  - done.
  - done.
  - done.
Qed.

Lemma response_is_stable r0 :
  Node.headersSent r0 = true → Node.writableEnded r0 = true → Stable (response_is r0).
Proof.
  intros Hs He. split; unfold response_is; simpl; intros; try done.
  subst. by eapply node_step_closed.
Qed.

(** X9.  An ended response is final.  Once the head is out and the response
    has been ended, no sequence of calls on the streamer or on the handle of
    an event stream changes the response: no header, no head, no chunk. *)
Theorem closed_is_final (calls : list (string * Call)) (w : World) :
  Node.headersSent (res w) = true →
  Node.writableEnded (res w) = true →
  res (run calls w) = res w.
Proof.
  intros Hs He.
  by apply (run_preserved (response_is (res w)) (response_is_stable _ Hs He)).
Qed.





End Wire.

(** ** The life of an event stream *)

Section EventStream.
Context `{Platform}.

(** The three chunks [sendSSE] writes after the head. *)
Definition sse_preamble : list Node.Chunk :=
  [Node.mkChunk (": This page is a server-sent event stream. It will continue loading until you close it." +:+ LF) None;
   Node.mkChunk (": https://html.spec.whatwg.org/multipage/server-sent-events.html#server-sent-events" +:+ LF) None;
   Node.mkChunk LF None].

Lemma writer_write_sent text st m hd ch x cs s e d :
  writer_write text (mkWorld (Node.mkResponse true st m hd ch false) x cs s e d) =
  (Return (),
   mkWorld (Node.mkResponse true st m hd (ch ++ [Node.mkChunk text None]) false) x cs s e d).
Proof. unfold writer_write. rewrite bind_eval, writer_sent by done. reflexivity. Qed.

(** The rest of [sendSSE] once the argument has been accepted. *)
Lemma sendSSE_opens (r : option number) st m hd ch b c s e d :
  bind (writeHead 200 sse_headers) (λ _,
    bind (writer_write (": This page is a server-sent event stream. It will continue loading until you close it." +:+ LF)) (λ _,
    bind (writer_write (": https://html.spec.whatwg.org/multipage/server-sent-events.html#server-sent-events" +:+ LF)) (λ _,
    bind (writer_write LF) (λ _, ret (mkSSE r)))))
    (mkWorld (Node.mkResponse false st m hd ch false) b c s e d) =
  let m' := Node.merge_headers (staged_strings m sse_headers) sse_headers in
  (Return (mkSSE r),
   mkWorld (Node.mkResponse true 200 m' (hd ++ [(200, m')]) (ch ++ sse_preamble) false)
     (Some (mkError first_attempt s))
     (c ++ trace_line d "writeHead" 200 sse_headers) s e d).
Proof.
  rewrite bind_eval.
  change (writeHead 200 sse_headers ?w) with (at_site s (writeHead 200 sse_headers) w).
  rewrite writeHead_unsent by done. cbv beta iota zeta.
  do 3 (rewrite bind_eval, writer_write_sent; cbv beta iota).
  unfold ret, sse_preamble. by rewrite <- !app_assoc.
Qed.

Definition invalid_retry : string :=
  "Invalid retryMilliseconds: must be a non-negative number".

(** X11.  [sendSSE] opens the stream or does nothing.  On a response that
    has sent nothing and is open: when it returns, the one head sent has
    status 200 and [content-type: text/event-stream], the three chunks of the
    preamble follow, the stream is open, and the handle holds the retry
    value passed, which is absent, [NaN] or a number not below zero; when it
    throws, it throws the error about the retry value and the response, the
    console and the recorded call site are what they were. *)
Theorem sendSSE_opens_or_nothing (retry : option value) (w : World) :
  Node.headersSent (res w) = false →
  Node.writableEnded (res w) = false →
  let result := sendSSE retry w in
  let r := res result.2 in
  match result.1 with
  | Return sse =>
      (∃ m, Node.heads r = Node.heads (res w) ++ [(200, m)] ∧
            m !! "content-type" = Some (Node.One (Node.SStr "text/event-stream"))) ∧
      Node.chunks r = Node.chunks (res w) ++ sse_preamble ∧
      Node.writableEnded r = false ∧
      match retryMilliseconds sse with
      | None => retry = None
      | Some NaN => retry = Some (VNum NaN)
      | Some (Num z) => retry = Some (VNum (Num z)) ∧ 0 ≤ z
      end
  | Throw x =>
      result.2 = w ∧ x = ThrownError (mkError invalid_retry (callSite w))
  end.
Proof.
  destruct w as [[sent st m hd ch en] b c s e d]. simpl. intros -> ->.
  assert (∀ r : option number,
    match retryMilliseconds (mkSSE r) with
    | None => retry = None
    | Some NaN => retry = Some (VNum NaN)
    | Some (Num z) => retry = Some (VNum (Num z)) ∧ 0 ≤ z
    end →
    let result :=
      bind (writeHead 200 sse_headers) (λ _,
        bind (writer_write (": This page is a server-sent event stream. It will continue loading until you close it." +:+ LF)) (λ _,
        bind (writer_write (": https://html.spec.whatwg.org/multipage/server-sent-events.html#server-sent-events" +:+ LF)) (λ _,
        bind (writer_write LF) (λ _, ret (mkSSE r)))))
        (mkWorld (Node.mkResponse false st m hd ch false) b c s e d) in
    match result.1 with
    | Return sse =>
        (∃ m', Node.heads (res result.2) = hd ++ [(200, m')] ∧
               m' !! "content-type" = Some (Node.One (Node.SStr "text/event-stream"))) ∧
        Node.chunks (res result.2) = ch ++ sse_preamble ∧
        Node.writableEnded (res result.2) = false ∧
        match retryMilliseconds sse with
        | None => retry = None
        | Some NaN => retry = Some (VNum NaN)
        | Some (Num z) => retry = Some (VNum (Num z)) ∧ 0 ≤ z
        end
    | Throw x =>
        result.2 = mkWorld (Node.mkResponse false st m hd ch false) b c s e d ∧
        x = ThrownError (mkError invalid_retry s)
    end) as Hopen.
  { intros r Hr. cbv zeta. rewrite sendSSE_opens. cbn zeta.
    cbn [fst snd res Node.heads Node.chunks Node.writableEnded].
    split_and!; [|done|done|done].
    eexists. split; [done|].
    unfold Node.merge_headers, sse_headers. simpl.
    by rewrite !lookup_insert_ne, lookup_insert_eq by done. }
  unfold sendSSE. rewrite bind_eval.
  destruct retry as [[| | |[|z]| | | |]|]; try (by split).
  - apply Hopen. done.
  - destruct (z <? 0) eqn:Hz.
    + by split.
    + apply Hopen. simpl. split; [done|]. by apply Z.ltb_ge.
  - apply Hopen. done.
Qed.

(** [emitEvent] on an open stream, for a name and an id without a line feed
    and data that can be serialised. *)
Lemma emitEvent_open sse name data_ id_ j w :
  includes name LF = false → includes id_ LF = false →
  stringify data_ = Some j →
  Node.writableEnded (res w) = false →
  (emitEvent sse (VStr name) data_ (VStr id_) w).1 = Return () ∧
  res (emitEvent sse (VStr name) data_ (VStr id_) w).2 =
    Node.write (Node.mkChunk (event_frame sse name j id_) None) (res w).
Proof.
  intros Hn Hi Hj Hopen. unfold emitEvent. rewrite Hn, Hi, Hj.
  rewrite bind_eval. destruct (writer_res w) as [Hres Hret].
  destruct (writer w) as [o w1]. simpl in Hres, Hret. subst o.
  rewrite bind_eval. cbn [gets]. rewrite Hres, Hopen.
  rewrite bind_eval. destruct (writer_res w1) as [Hres1 Hret1].
  destruct (writer w1) as [o w2]. simpl in Hres1, Hret1. subst o.
  destruct w2 as [r2 b2 c2 s2 e2 d2]. simpl in Hres1. subst r2.
  by rewrite <- Hres.
Qed.

Lemma Node_write_stays_open c r :
  Node.writableEnded r = false → Node.writableEnded (Node.write c r) = false.
Proof. destruct r as [sent st m hd ch en]. simpl. by intros ->. Qed.

Lemma Node_write_head c r :
  Node.headersSent r = true → Node.heads (Node.write c r) = Node.heads r.
Proof.
  destruct r as [sent st m hd ch en]. simpl. intros ->.
  unfold Node.write. simpl. by destruct en.
Qed.

Lemma sendSSE_returned retry sse st m hd ch b c s e d :
  (sendSSE retry (mkWorld (Node.mkResponse false st m hd ch false) b c s e d)).1 =
    Return sse →
  sendSSE retry (mkWorld (Node.mkResponse false st m hd ch false) b c s e d) =
  let m' := Node.merge_headers (staged_strings m sse_headers) sse_headers in
  (Return sse,
   mkWorld (Node.mkResponse true 200 m' (hd ++ [(200, m')]) (ch ++ sse_preamble) false)
     (Some (mkError first_attempt s))
     (c ++ trace_line d "writeHead" 200 sse_headers) s e d).
Proof.
  unfold sendSSE. rewrite bind_eval.
  destruct retry as [[| | |[|z]| | | |]|]; try discriminate.
  - unfold ret at 1 3. cbv beta iota. rewrite sendSSE_opens. by intros [= <-].
  - destruct (z <? 0); [discriminate|].
    unfold ret at 1 3. cbv beta iota. rewrite sendSSE_opens. by intros [= <-].
  - unfold ret at 1 3. cbv beta iota. rewrite sendSSE_opens. by intros [= <-].
Qed.

Lemma close_open w :
  Node.headersSent (res w) = true → Node.writableEnded (res w) = false →
  (close w).1 = Return () ∧
  Node.heads (res (close w).2) = Node.heads (res w) ∧
  Node.chunks (res (close w).2) = Node.chunks (res w) ∧
  Node.writableEnded (res (close w).2) = true.
Proof.
  destruct w as [[sent st m hd ch en] b c s e d]. simpl. intros -> ->.
  unfold close. rewrite bind_eval, writer_sent by done.
  unfold res_do, res_call, Node.end_, Node.implicitHeader. simpl.
  by rewrite app_nil_r.
Qed.

(** An event as a handler passes it: name, data and id. *)
Definition Event : Type := string * value * string.

(** A handler that emits the events one after the other. *)
Definition emitEvents (sse : SSE) (events : list Event) : M unit :=
  forEach (λ ev : Event, emitEvent sse (VStr ev.1.1) ev.1.2 (VStr ev.2)) events.

(** The chunk [emitEvent] writes for an event. *)
Definition framed (sse : SSE) (ev : Event) (c : Node.Chunk) : Prop :=
  includes ev.1.1 LF = false ∧ includes ev.2 LF = false ∧
  ∃ j, stringify ev.1.2 = Some j ∧ c = Node.mkChunk (event_frame sse ev.1.1 j ev.2) None.

Lemma emitEvents_open sse events frames w :
  Forall2 (framed sse) events frames →
  Node.writableEnded (res w) = false →
  (emitEvents sse events w).1 = Return () ∧
  Node.chunks (res (emitEvents sse events w).2) = Node.chunks (res w) ++ frames ∧
  Node.writableEnded (res (emitEvents sse events w).2) = false ∧
  (Node.headersSent (res w) = true →
   Node.heads (res (emitEvents sse events w).2) = Node.heads (res w) ∧
   Node.headersSent (res (emitEvents sse events w).2) = true).
Proof.
  intros Hall. revert w.
  induction Hall as [|[[name data_] id_] c events frames (Hn & Hi & j & Hj & ->) Hall IH];
    intros w Hopen.
  - simpl. by rewrite app_nil_r.
  - unfold emitEvents. cbn [forEach]. rewrite bind_eval.
    destruct (emitEvent_open sse name data_ id_ j w Hn Hi Hj Hopen) as [Hret Hres].
    cbn [fst snd] in *.
    destruct (emitEvent sse (VStr name) data_ (VStr id_) w) as [o w1].
    simpl in Hret, Hres. subst o.
    fold (emitEvents sse events).
    destruct (IH w1) as (IH1 & IH2 & IH3 & IH4).
    { rewrite Hres. by apply Node_write_stays_open. }
    split_and!; [done| |done|].
    + rewrite IH2, Hres, Node_write_open by done. by rewrite <- app_assoc.
    + intros Hs. destruct IH4 as [IHh IHs].
      { rewrite Hres. destruct (res w) as [sent ? ? ? ? en]. simpl in *. by subst. }
      split; [|done]. rewrite IHh, Hres. by apply Node_write_head.
Qed.

(** X12.  A whole event stream.  A handler that opens the stream on a
    response that has sent nothing, emits events whose names and ids have no
    line feed and whose data can be serialised, and closes the stream,
    returns; the response then holds one head, the preamble followed by the
    frames of the events in the order of emission, and is ended. *)
Theorem event_stream_in_order (retry : option value) (sse : SSE)
    (events : list Event) (frames : list Node.Chunk) (w : World) :
  Node.headersSent (res w) = false →
  Node.writableEnded (res w) = false →
  (sendSSE retry w).1 = Return sse →
  Forall2 (framed sse) events frames →
  let result :=
    bind (sendSSE retry) (λ sse, bind (emitEvents sse events) (λ _, close)) w in
  let r := res result.2 in
  result.1 = Return () ∧
  length (Node.heads r) = S (length (Node.heads (res w))) ∧
  Node.chunks r = Node.chunks (res w) ++ sse_preamble ++ frames ∧
  Node.writableEnded r = true.
Proof.
  destruct w as [[sent st m hd ch en] b c s e d]. simpl. intros -> -> Hsse Hall.
  rewrite bind_eval, (sendSSE_returned _ _ _ _ _ _ _ _ _ _ _ Hsse). cbv beta iota zeta.
  rewrite bind_eval.
  match goal with |- context [emitEvents sse events ?w] => set (w1 := w) end.
  destruct (emitEvents_open sse events frames w1 Hall eq_refl)
    as (Hret & Hch2 & Hen2 & Hhd2).
  destruct (Hhd2 eq_refl) as [Hhd3 Hsent3].
  destruct (emitEvents sse events w1) as [o w2]. cbn [fst snd] in *. subst o.
  destruct (close_open w2 Hsent3 Hen2) as (Hc1 & Hc2 & Hc3 & Hc4).
  rewrite Hc1, Hc2, Hc3, Hc4, Hhd3, Hch2. subst w1.
  cbn [res Node.heads Node.chunks].
  split_and!; try done.
  - rewrite length_app. simpl. lia.
  - by rewrite <- app_assoc.
Qed.

(** *** The frame of an event *)

Lemma value_nested_ind (P : value → Prop) :
  P VUndefined → P VNull → (∀ b, P (VBool b)) → (∀ n, P (VNum n)) →
  (∀ z, P (VBigInt z)) → (∀ s, P (VStr s)) →
  (∀ l, Forall P l → P (VArr l)) →
  (∀ props, Forall (λ kv, P kv.2) props → P (VObj props)) →
  ∀ v, P v.
Proof.
  intros Hu Hn Hb Hnum Hbig Hs Harr Hobj. fix IH 1.
  intros [| |b|n|z|s|l|props];
    [exact Hu | exact Hn | apply Hb | apply Hnum | apply Hbig | apply Hs | | ].
  - apply Harr. induction l as [|x l IHl]; constructor; [apply IH | apply IHl].
  - apply Hobj. induction props as [|[k x] props IHp]; constructor; [apply IH | apply IHp].
Qed.

(** A text without control characters: every byte is 32 or more. *)
Fixpoint printable (s : string) : bool :=
  match s with
  | EmptyString => true
  | String c s' => (32 <=? N_of_ascii c)%N && printable s'
  end.

Lemma printable_app (s t : string) : printable (s +:+ t) = printable s && printable t.
Proof.
  induction s as [|c s IH]; [done|].
  rewrite append_cons. simpl. by rewrite IH, andb_assoc.
Qed.

Lemma printable_free (c : ascii) (s : string) :
  (N_of_ascii c < 32)%N → printable s = true → free_of c s.
Proof.
  intros Hc. induction s as [|x s IH]; [done|]. simpl.
  intros [Hx Hs]%andb_true_iff. apply free_of_cons. split; [|by apply IH].
  intros ->. apply N.leb_le in Hx. lia.
Qed.

Lemma json_escape_char_printable (c : ascii) : printable (json_escape_char c) = true.
Proof. destruct c as [[] [] [] [] [] [] [] []]; reflexivity. Qed.

Lemma json_escape_printable (s : string) : printable (json_escape s) = true.
Proof.
  induction s as [|c s IH]; [done|]. simpl.
  by rewrite printable_app, json_escape_char_printable, IH.
Qed.

Lemma json_quote_printable (s : string) : printable (json_quote s) = true.
Proof.
  unfold json_quote. rewrite append_cons. simpl.
  by rewrite printable_app, json_escape_printable.
Qed.

Lemma pretty_N_go_printable (x : N) (s : string) :
  printable s = true → printable (pretty_N_go x s) = true.
Proof.
  revert s. induction (N.lt_wf_0 x) as [x _ IH]; intros s Hs.
  assert (x = 0 ∨ 0 < x)%N as [->|Hx] by lia.
  - by rewrite pretty_N_go_0.
  - rewrite pretty_N_go_step by done. apply IH.
    { by apply N.div_lt. }
    simpl. rewrite Hs, andb_true_r.
    unfold pretty_N_char. by repeat case_match.
Qed.

Lemma pretty_Z_printable (z : Z) : printable (pretty z) = true.
Proof.
  assert (∀ p : positive, printable (pretty p) = true) as Hp.
  { intros p. unfold pretty, pretty_positive, pretty, pretty_N.
    case_decide; [done|]. by apply pretty_N_go_printable. }
  destruct z as [|p|p]; [done|apply Hp|].
  unfold pretty, pretty_Z. by rewrite printable_app, Hp.
Qed.

Lemma join_printable (sep : string) (l : list string) :
  printable sep = true → Forall (λ s, printable s = true) l →
  printable (join sep l) = true.
Proof.
  intros Hsep Hl. induction Hl as [|p l Hp Hl IH]; [done|].
  destruct l as [|q l]; [done|].
  by rewrite join_cons, !printable_app, Hp, Hsep, IH.
Qed.

(** The text [JSON.stringify] returns has no control character, and so
    neither a line feed nor a carriage return. *)
Lemma stringify_printable (v : value) (j : string) :
  stringify v = Some (Text j) → printable j = true.
Proof.
  revert j. induction v as [| |b|n|z|s|l IH|props IH] using value_nested_ind; intros j Hj.
  - done.
  - by injection Hj as <-.
  - injection Hj as <-. by destruct b.
  - destruct n as [|z]; injection Hj as <-; [done|apply pretty_Z_printable].
  - done.
  - injection Hj as <-. apply json_quote_printable.
  - simpl in Hj.
    match type of Hj with
    | match ?e with _ => _ end = _ => destruct e as [ss|] eqn:He; [|done]
    end.
    injection Hj as <-.
    assert (Forall (λ s, printable s = true) ss) as Hss.
    { clear -IH He. revert ss He. induction IH as [|x l Hx _ IHl]; intros ss He.
      - by injection He as <-.
      - destruct (stringify x) as [[t|]|] eqn:Hx'; [| |done].
        + match type of He with
          | match ?e with _ => _ end = _ => destruct e as [ts|] eqn:Hts; [|done]
          end.
          injection He as <-. constructor; [by apply Hx | by apply IHl].
        + match type of He with
          | match ?e with _ => _ end = _ => destruct e as [ts|] eqn:Hts; [|done]
          end.
          injection He as <-. constructor; [done | by apply IHl]. }
    rewrite append_cons. simpl. by rewrite append_empty_l, printable_app, join_printable.
  - simpl in Hj.
    match type of Hj with
    | match ?e with _ => _ end = _ => destruct e as [ss|] eqn:He; [|done]
    end.
    injection Hj as <-.
    assert (Forall (λ s, printable s = true) ss) as Hss.
    { clear -IH He. revert ss He. induction IH as [|[k x] l Hx _ IHl]; intros ss He.
      - by injection He as <-.
      - simpl in Hx. destruct (stringify x) as [[t|]|] eqn:Hx'; [| |done].
        + match type of He with
          | match ?e with _ => _ end = _ => destruct e as [ts|] eqn:Hts; [|done]
          end.
          injection He as <-. constructor; [|by apply IHl].
          by rewrite !printable_app, json_quote_printable, (Hx t eq_refl).
        + match type of He with
          | match ?e with _ => _ end = _ => destruct e as [ts|] eqn:Hts; [|done]
          end.
          injection He as <-. by apply IHl. }
    rewrite append_cons. simpl. by rewrite append_empty_l, printable_app, join_printable.
Qed.

Lemma stringified_printable (v : value) (j : stringified) :
  stringify v = Some j → printable (stringified_to_string j) = true.
Proof. destruct j as [t|]; [apply stringify_printable | done]. Qed.

(** X13.  A frame is one event.  For a name and an id without a line feed
    and data [JSON.stringify] accepts, which is what [emitEvent] checks, the
    frame written is a list of fields joined by line feeds and closed by an
    empty line, where no field is empty or holds a line feed; the text of
    the data holds no control character at all, so no value breaks the
    frame. *)
Theorem event_frame_one_event (sse : SSE) (name id_ : string) (eventData : value)
    (j : stringified) :
  includes name LF = false →
  includes id_ LF = false →
  stringify eventData = Some j →
  (∃ fields,
     event_frame sse name j id_ = join LF fields +:+ LF +:+ LF ∧
     fields ≠ [] ∧
     Forall (λ f, f ≠ "" ∧ includes f LF = false) fields) ∧
  (∀ c, (N_of_ascii c < 32)%N → includes (stringified_to_string j) (String c "") = false).
Proof.
  intros Hname Hid Hj. apply stringified_printable in Hj.
  split; [|intros c Hc; by apply printable_free].
  rewrite event_frame_fields.
  eexists. split; [reflexivity|].
  assert (∀ label s, printable label = true → free_of (ascii_of_nat 10) s → label ≠ "" →
            label +:+ s ≠ "" ∧ includes (label +:+ s) LF = false) as Hfield.
  { intros label s Hl Hs Hne. split; [by destruct label|].
    apply (free_of_app (ascii_of_nat 10)). split; [|done].
    by apply printable_free. }
  assert (∀ s, printable s = true → free_of (ascii_of_nat 10) s) as Hfree.
  { intros s. by apply printable_free. }
  split.
  - by destruct (truthy_string name).
  - apply Forall_app. split.
    { destruct (truthy_string name); [|done]. constructor; [|done]. by apply Hfield. }
    constructor; [apply Hfield; [done|by apply Hfree|done]|].
    apply Forall_app. split.
    { destruct (truthy_string id_); [|done]. constructor; [|done]. by apply Hfield. }
    destruct (retryMilliseconds sse) as [[|z]|]; [done| |done].
    destruct (truthy_number (Num z)); [|done].
    constructor; [|done]. apply Hfield; [done| |done].
    apply Hfree, pretty_Z_printable.
Qed.

End EventStream.

(** ** Who sent the head *)

Section Culprit.
Context `{Platform}.

Definition possible_culprit : string :=
  "Possible culprit was given access to the response object here.".

(** X14.  The writer is remembered.  On a response that has sent nothing,
    is open and has no call site recorded, a write through [writer] sends
    the head implicitly, with the status and the headers staged so far, and
    records its call site as the possible culprit.  Whatever is called
    afterwards, a later [writeHead] logs that site and its own and throws
    [ERR_HTTP_HEADERS_SENT], leaving the response as it was. *)
Theorem writer_is_remembered (w : World) (site1 : string) (text : string)
    (calls : list (string * Call)) (site2 : string) (status2 : Z)
    (headers2 : Node.OutgoingHttpHeaders) :
  Node.headersSent (res w) = false →
  Node.writableEnded (res w) = false →
  headersSentBy w = None →
  let first := at_site site1 (writer_write text) w in
  let w2 := run calls first.2 in
  let second := at_site site2 (writeHead status2 headers2) w2 in
  first.1 = Return () ∧
  Node.heads (res first.2) =
    Node.heads (res w) ++ [(Node.statusCode (res w), Node.staged (res w))] ∧
  Node.chunks (res first.2) = Node.chunks (res w) ++ [Node.mkChunk text None] ∧
  headersSentBy first.2 = Some (mkError possible_culprit site1) ∧
  second.1 = Throw ERR_HTTP_HEADERS_SENT ∧
  console second.2 =
    (console w2 ++ trace_line (Debug_send w) "writeHead" status2 headers2) ++
    [LogError (mkError possible_culprit site1); LogError (mkError second_attempt site2)] ∧
  res second.2 = res w2.
Proof.
  destruct w as [[sent st m hd ch en] b c s e d].
  cbn [res Node.headersSent Node.writableEnded Node.heads Node.chunks Node.statusCode
       Node.staged headersSentBy Debug_send].
  intros -> -> ->. cbv zeta.
  set (w1 := (at_site site1 (writer_write text) _).2).
  assert (settled (Some (mkError possible_culprit site1)) (hd ++ [(st, m)]) d w1) as Hw1
    by done.
  split_and!; try done.
  all: apply (run_preserved _ (settled_stable _ _ _) calls) in Hw1.
  all: destruct (run calls w1) as [r2 b2 c2 s2 e2 d2].
  all: destruct Hw1 as (Hs & Hb & Hh & Hd); simpl in Hs, Hb, Hh, Hd; subst b2 d2.
  all: by rewrite writeHead_sent.
Qed.

End Culprit.

(** ** Several cookies *)

Section SeveralCookies.
Context `{Platform}.

(** The header [Set-Cookie] that holds the cookies [l]. *)
Definition cookie_header (l : list string) : option Node.header_value :=
  match l with
  | [] => None
  | [c] => Some (Node.One (Node.SStr c))
  | _ => Some (Node.Many (map Node.SStr l))
  end.

Lemma cookie_string_truthy name value options :
  truthy_string (cookie_string name value options) = true.
Proof. unfold cookie_string. by destruct name. Qed.

Lemma setCookie_unsent name value options st m hd ch en b c s e d :
  setCookie name value options (mkWorld (Node.mkResponse false st m hd ch en) b c s e d) =
  (Return (),
   mkWorld (Node.mkResponse false st
              (<["set-cookie" :=
                   appended (m !! "set-cookie") (cookie_string name value options)]> m)
              hd ch en) b c s e d).
Proof.
  unfold setCookie, appendHeader, bind, gets, res_call, Node.setHeader, Node.getHeader.
  cbn [res Node.headersSent Node.staged fst snd].
  change (toLowerCase "Set-Cookie") with "set-cookie".
  do 3 f_equal. unfold appended.
  destruct (m !! "set-cookie") as [[x|l]|]; reflexivity.
Qed.

Lemma appended_cookie_header (prev : list string) (cookie : string) :
  Forall (λ c, truthy_string c = true) prev →
  Some (appended (cookie_header prev) cookie) = cookie_header (prev ++ [cookie]).
Proof.
  intros Hprev. destruct prev as [|p [|q prev]]; [done| |].
  - apply Forall_cons in Hprev as [Hp _]. simpl. by rewrite Hp.
  - simpl. by rewrite map_app.
Qed.

(** A handler that sets the cookies one after the other. *)
Definition setCookies (cookies : list (string * string * CookieOptions)) : M unit :=
  forEach (λ c : string * string * CookieOptions, setCookie c.1.1 c.1.2 c.2) cookies.

Lemma setCookies_accumulate cookies prev w :
  Node.headersSent (res w) = false →
  Forall (λ c, truthy_string c = true) prev →
  Node.getHeader "Set-Cookie" (res w) = cookie_header prev →
  (setCookies cookies w).1 = Return () ∧
  Node.getHeader "Set-Cookie" (res (setCookies cookies w).2) =
    cookie_header (prev ++ map (λ c, cookie_string c.1.1 c.1.2 c.2) cookies).
Proof.
  revert prev w. induction cookies as [|[[name value] options] cookies IH];
    intros prev w Hunsent Hprev Hcur.
  - simpl. by rewrite app_nil_r.
  - destruct w as [[sent st m hd ch en] b c s e d]. simpl in Hunsent. subst sent.
    unfold setCookies. cbn [forEach]. rewrite bind_eval.
    cbn [fst snd]. rewrite setCookie_unsent. cbv beta iota.
    fold (setCookies cookies).
    unfold Node.getHeader in Hcur. cbn [res Node.staged] in Hcur.
    change (toLowerCase "Set-Cookie") with "set-cookie" in Hcur.
    rewrite Hcur.
    match goal with |- context [setCookies cookies ?w] => set (w1 := w) end.
    destruct (IH (prev ++ [cookie_string name value options]) w1) as [IH1 IH2].
    + done.
    + apply Forall_app. split; [done|]. constructor; [|done].
      apply cookie_string_truthy.
    + unfold Node.getHeader. subst w1. cbn [res Node.staged].
      change (toLowerCase "Set-Cookie") with "set-cookie".
      rewrite lookup_insert_eq. by apply appended_cookie_header.
    + split; [done|]. rewrite IH2. by rewrite <- app_assoc.
Qed.

(** X15.  No cookie is lost.  On a response that has not sent its head and
    has no [Set-Cookie] header, setting cookies one after the other returns
    and leaves a [Set-Cookie] header that holds every cookie string, in the
    order of the calls: a string for one cookie, an array for more. *)
Theorem setCookie_keeps_all (cookies : list (string * string * CookieOptions)) (w : World) :
  Node.headersSent (res w) = false →
  Node.getHeader "Set-Cookie" (res w) = None →
  (setCookies cookies w).1 = Return () ∧
  Node.getHeader "Set-Cookie" (res (setCookies cookies w).2) =
    cookie_header (map (λ c, cookie_string c.1.1 c.1.2 c.2) cookies).
Proof.
  intros Hunsent Hnone.
  by apply (setCookies_accumulate cookies [] w).
Qed.

End SeveralCookies.

(** ** The request as the router sees it *)

Section Requests.
Context `{Platform}.

(** X16.  What an accepted request guarantees.  When [parseRequest]
    returns, the response is as it was; host and method are not empty; the
    [host] header of the result is the host; a request of HTTP/2 takes its
    host from [:authority], whatever [host] header it carried, and one of
    HTTP/1 keeps its headers; [urlInfo] is the URL made of [https://], the
    host and the url; the cookies are those of the [cookie] header. *)
Theorem parseRequest_accepts (req : Request) (r r' : Node.Response)
    (pathPrefix0 : string) (expectSecure0 : bool) (st : ParsedRequest) :
  parseRequest req r pathPrefix0 expectSecure0 = (Return st, r') →
  r' = r ∧
  p_host st ≠ "" ∧ p_method st ≠ "" ∧
  req_method req = Some (p_method st) ∧
  p_headers st !! "host" = Some (p_host st) ∧
  (1 < httpVersionMajor req → req_headers req !! ":authority" = Some (p_host st)) ∧
  (httpVersionMajor req ≤ 1 → p_headers st = req_headers req) ∧
  URL_new ("https://" +:+ p_host st +:+ p_url st) = Some (p_urlInfo st) ∧
  parseCookieString (default "" (p_headers st !! "cookie")) = Return (p_cookies st) ∧
  p_expectSecure st = expectSecure0.
Proof.
  assert (∀ u, request_state req u pathPrefix0 expectSecure0 = Return st →
    p_host st ≠ "" ∧ p_method st ≠ "" ∧
    req_method req = Some (p_method st) ∧
    p_headers st !! "host" = Some (p_host st) ∧
    (1 < httpVersionMajor req → req_headers req !! ":authority" = Some (p_host st)) ∧
    (httpVersionMajor req ≤ 1 → p_headers st = req_headers req) ∧
    URL_new ("https://" +:+ p_host st +:+ p_url st) = Some (p_urlInfo st) ∧
    parseCookieString (default "" (p_headers st !! "cookie")) = Return (p_cookies st) ∧
    p_expectSecure st = expectSecure0) as Hstate.
  { intros u. unfold request_state.
    destruct (1 <? httpVersionMajor req) eqn:Hv.
    - apply Z.ltb_lt in Hv.
      destruct (set_host_from_authority (req_headers req) !! "host") as [[|c h]|] eqn:Hh;
        [done| |done].
      destruct (req_method req) as [[|c' m']|]; [done| |done].
      destruct (parseCookieString _) as [cookies0|] eqn:Hc; [|done].
      destruct (URL_new _) as [u0|] eqn:Hu; [|done].
      intros [= <-]. simpl. split_and!; try done.
      + intros _. unfold set_host_from_authority in Hh.
        destruct (req_headers req !! ":authority") as [a|] eqn:Ha.
        * rewrite lookup_insert_eq in Hh. by injection Hh as ->.
        * by rewrite lookup_delete_eq in Hh.
      + lia.
    - apply Z.ltb_ge in Hv.
      destruct (req_headers req !! "host") as [[|c h]|] eqn:Hh; [done| |done].
      destruct (req_method req) as [[|c' m']|]; [done| |done].
      destruct (parseCookieString _) as [cookies0|] eqn:Hc; [|done].
      destruct (URL_new _) as [u0|] eqn:Hu; [|done].
      intros [= <-]. simpl. split_and!; try done. lia. }
  unfold parseRequest.
  destruct (negb (startsWith (req_url req) "/")); [done|].
  destruct (truthy_string pathPrefix0).
  - destruct (decide _).
    { by destruct (Node.writeHead _ _ _) as [[?|?] ?]. }
    destruct (startsWith (req_url req) pathPrefix0).
    + intros [= Hst <-]. split; [done|]. by eapply Hstate.
    + by destruct (Node.writeHead _ _ _) as [[?|?] ?].
  - intros [= Hst <-]. split; [done|]. by eapply Hstate.
Qed.

Lemma query_of_lookup (sp : list (string * string)) (key : string) :
  query_of sp !! key =
  match getAll sp key with
  | [] => None
  | vs => Some vs
  end.
Proof.
  unfold query_of.
  assert (∀ (g : string → list string) (l : list (string * string)),
    (list_to_map (map (λ kv, (kv.1, g kv.1)) l) : gmap string (list string)) !! key =
    if decide (key ∈ l.*1) then Some (g key) else None) as Hlookup.
  { intros g l. induction l as [|[k v] l IH]; [done|]. simpl.
    destruct (decide (k = key)) as [->|Hne].
    - rewrite lookup_insert_eq. rewrite decide_True; [done|]. by left.
    - rewrite lookup_insert_ne by done. rewrite IH.
      destruct (decide (key ∈ l.*1)) as [Hin|Hnin].
      + rewrite decide_True; [done|]. by right.
      + rewrite decide_False; [done|].
        intros [Heq|?]%elem_of_cons; [simpl in Heq; congruence|done]. }
  rewrite Hlookup. unfold getAll.
  destruct (decide (key ∈ sp.*1)) as [Hin|Hnin].
  - apply list_elem_of_fmap in Hin as ([k v] & -> & Hin). simpl.
    assert ((k, v) ∈ filter (λ kv : string * string, kv.1 = k) sp) as Hf.
    { by apply list_elem_of_filter. }
    destruct (filter _ sp) as [|x xs]; [by apply elem_of_nil in Hf|done].
  - destruct (filter (λ kv : string * string, kv.1 = key) sp) as [|[k v] xs] eqn:Hf; [done|].
    exfalso. apply Hnin.
    assert ((k, v) ∈ filter (λ kv : string * string, kv.1 = key) sp) as Hin
      by (rewrite Hf; by left).
    apply list_elem_of_filter in Hin as [Hk Hin]. simpl in Hk. subst k.
    apply list_elem_of_fmap. by exists (key, v).
Qed.

(** X17.  The query parameters of a streamer.  A key of the query string
    maps to all the values given for it, in their order in the query string,
    and so never to an empty array; a name that is no key of the query
    string is absent. *)
Theorem queryParams_all_values (st : ParsedRequest) (routePath0 : list RouteMatch)
    (bodyFormat0 : BodyFormat) (w : World) (this : Streamer) (key : string) :
  (new_Streamer st routePath0 bodyFormat0 w).1 = Return this →
  let values := (filter (λ kv, kv.1 = key) (URL_searchParams (p_urlInfo st))).*2 in
  queryParams this !! key = (if decide (values = []) then None else Some values).
Proof.
  unfold new_Streamer. rewrite bind_eval.
  destruct (safeParse_pathParams _); simpl; intros [= <-]; simpl;
    rewrite query_of_lookup; unfold getAll; by destruct (_.*2).
Qed.

End Requests.

(** ** Listeners and their prefixes *)

Section ListenerPrefixes.
Context `{Platform}.
Import Listeners.

Lemma endsWith_suffix (s suffix : string) :
  endsWith s suffix = true ↔ ∃ before, s = before +:+ suffix.
Proof.
  induction s as [|c s IH]; simpl.
  - destruct (decide ("" = suffix)) as [<-|Hne]; simpl.
    + split; [by exists "" | done].
    + split; [done|]. intros [[|? ?] Heq]; [|done]. by rewrite append_empty_l in Heq.
  - destruct (decide (String c s = suffix)) as [<-|Hne]; simpl.
    + split; [by exists "" | done].
    + rewrite IH. split.
      * intros [before ->]. by exists (String c before).
      * intros [[|c' before] Heq].
        -- by rewrite append_empty_l in Heq.
        -- rewrite append_cons in Heq. injection Heq as -> ->. by exists before.
Qed.

Lemma check_prefix_checked (p0 : option string) (p : string) :
  check_prefix p0 = Some p →
  p = default "" p0 ∧ (p = "" ∨ startsWith p "/" = true) ∧ endsWith p "/" = false.
Proof.
  unfold check_prefix. destruct (_ && _) eqn:Hok; [|done]. intros [= <-].
  apply andb_true_iff in Hok as [Hstart Hend].
  apply negb_true_iff in Hend. split; [done|]. split; [|done].
  apply orb_true_iff in Hstart as [Hempty|?]; [left|by right].
  by destruct (default "" p0).
Qed.

Lemma startListener_made env_PORT e p l :
  startListener env_PORT e p = Return l →
  prefix (options l) = p ∧
  (protocol l = HTTPS ↔
   is_Some (o_secureServerOptions e) ∨
   (truthy_option_string (o_key e) = true ∧ truthy_option_string (o_cert e) = true)).
Proof.
  unfold startListener, new_ListenerHTTPS, new_ListenerHTTP, new_ListenerBase.
  destruct (negb (Bool.eqb _ _)); [done|].
  destruct (o_secureServerOptions e) as [so|] eqn:Hso;
    cbn [secureServerOptions key cert bool_decide orb].
  - rewrite bool_decide_eq_true_2 by eauto. cbn [orb].
    repeat case_match; try discriminate.
    intros [= <-]. simpl. split; [done|]. split; [by left; eauto | done].
  - rewrite bool_decide_eq_false_2 by (by intros [? ?]). cbn [orb].
    destruct (truthy_option_string (o_key e) && truthy_option_string (o_cert e)) eqn:Hkc.
    + apply andb_true_iff in Hkc as [Hk Hc].
      repeat case_match; try discriminate.
      intros [= <-]. simpl. split; [done|]. split; [by right | done].
    + repeat case_match; try discriminate.
      intros [= <-]. simpl. split; [done|]. split; [done|].
      intros [[? [=]]|[Hk Hc]]. by rewrite Hk, Hc in Hkc.
Qed.

Lemma startListeners_each env_PORT checked ls :
  startListeners env_PORT checked = Return ls →
  Forall2 (λ ep l, startListener env_PORT ep.1 ep.2 = Return l) checked ls.
Proof.
  revert ls. induction checked as [|[e p] checked IH]; intros ls; simpl.
  - by intros [= <-].
  - destruct (startListener env_PORT e p) as [x|] eqn:Hx; [|done].
    destruct (startListeners env_PORT checked) as [xs|]; [|done].
    intros [= <-]. constructor; [done | by apply IH].
Qed.

(** X18.  The listeners that [startListening] returns.  There is one
    listener for each element of the options, in their order; its prefix is
    the configured one, or the empty string; the prefix is empty or begins
    with a slash, and it never ends with one; the listener is an HTTPS
    listener exactly when secure-server options, or both a key and a
    certificate, were given. *)
Theorem startListening_listeners (env_PORT : option string)
    (opts : list PartialListenOptions) (ls : list Listener) :
  startListening env_PORT opts = Return ls →
  Forall2 (λ e l,
    prefix (options l) = default "" (o_prefix e) ∧
    (prefix (options l) = "" ∨ startsWith (prefix (options l)) "/" = true) ∧
    (¬ ∃ before, prefix (options l) = before +:+ "/") ∧
    (protocol l = HTTPS ↔
     is_Some (o_secureServerOptions e) ∨
     (truthy_option_string (o_key e) = true ∧ truthy_option_string (o_cert e) = true)))
    opts ls.
Proof.
  unfold startListening.
  destruct (mapM _ opts) as [checked|] eqn:Hchecked; [|done].
  intros Hls%startListeners_each. apply mapM_Some in Hchecked.
  revert ls Hls. induction Hchecked as [|e [e' p] opts checked He _ IH]; intros ls Hls.
  - inversion Hls. constructor.
  - inversion Hls as [|? l ? ls' Hl Hls']; subst. constructor; [|by apply IH].
    destruct (check_prefix (o_prefix e)) as [p'|] eqn:Hp; [|done].
    injection He as <- <-. simpl in Hl.
    apply check_prefix_checked in Hp as (Hdef & Hstart & Hend).
    apply startListener_made in Hl as [-> Hproto].
    split_and!; try done.
    intros Hsuffix%endsWith_suffix. congruence.
Qed.

(** X19.  A checked prefix routes.  Under a prefix that passed the check
    of [startListening], a request for the prefix followed by a path that
    begins with a slash is not refused and not redirected: the response is
    left alone and the request is handled with that path as its url.  This
    holds for the target of the redirect of [parseRequest], the prefix
    followed by a slash. *)
Theorem checked_prefix_routes (p0 : option string) (p u : string) (req : Request)
    (r : Node.Response) (expectSecure0 : bool) :
  check_prefix p0 = Some p →
  startsWith u "/" = true →
  req_url req = p +:+ u →
  parseRequest req r p expectSecure0 = (request_state req u p expectSecure0, r).
Proof.
  intros Hp Hu Hurl. apply check_prefix_checked in Hp as (_ & Hstart & _).
  unfold parseRequest. rewrite Hurl.
  destruct p as [|c p].
  - rewrite append_empty_l, Hu. reflexivity.
  - destruct Hstart as [?|Hstart]; [done|].
    assert (startsWith (String c p +:+ u) "/" = true) as ->.
    { apply startsWith_slice in Hstart. rewrite Hstart.
      change ("/" +:+ ?rest) with (String "/" rest). rewrite append_cons.
      apply (startsWith_app "/"). }
    cbn [negb truthy_string].
    rewrite decide_False.
    + by rewrite startsWith_app, slice_app.
    + intros Heq. rewrite <- (app_empty_r (String c p)) in Heq at 2.
      apply (inj (String.app (String c p))) in Heq. by subst u.
Qed.

End ListenerPrefixes.

(** ** When a listener starts *)

Section ListenerStarts.
Context `{Platform}.
Import Listeners.

(** The port strings with which [server.listen] is given a port it
    accepts. *)
Definition port_accepted (port : string) : Prop :=
  ∀ n, port ≠ "0" → port ≠ "" → ToNumber port = Num n → n ≠ 0 → 1 ≤ n ≤ 65535.

Lemma new_ListenerBase_outcome proto bi config :
  (port_accepted (port config) ∧ ∃ l, new_ListenerBase proto bi config = Return l) ∨
  (¬ port_accepted (port config) ∧
   new_ListenerBase proto bi config = Throw ERR_SOCKET_BAD_PORT).
Proof.
  unfold new_ListenerBase, ListenerBase_listen, port_accepted.
  generalize (port config) (host config). intros port_ host_.
  destruct (decide (port_ = "0")) as [Hp|Hp].
  { left. split; [done|]. simpl. eauto. }
  destruct port_ as [|c s].
  { left. split; [done|]. simpl. eauto. }
  cbn [truthy_string andb].
  destruct (ToNumber (String c s)) as [|n] eqn:Hn.
  { left. split; [done|]. simpl. eauto. }
  cbn [truthy_number]. destruct (n =? 0) eqn:Hz.
  { left. split; [|simpl; eauto]. intros n' _ _ [= <-] ?. lia. }
  cbn [negb]. unfold server_listen, valid_port.
  destruct ((0 <=? n) && (n <=? 65535)) eqn:Hv.
  - left. split; [|eauto]. intros n' _ _ [= <-] _.
    apply andb_true_iff in Hv as [?%Z.leb_le ?%Z.leb_le]. lia.
  - right. split; [|done]. intros Hacc.
    assert (1 ≤ n ≤ 65535) as Hrange by (apply Hacc; [done|done|done|lia]).
    apply andb_false_iff in Hv as [?%Z.leb_gt|?%Z.leb_gt]; lia.
Qed.

(** Every way [startListener] ends. *)
Lemma startListener_outcome env_PORT e p :
  let port := default (default "8080" env_PORT) (o_port e) in
  let listens (result : outcome Listener) :=
    (port_accepted port ∧ ∃ l, result = Return l) ∨
    (¬ port_accepted port ∧ result = Throw ERR_SOCKET_BAD_PORT) in
  let result := startListener env_PORT e p in
  if negb (Bool.eqb (truthy_option_string (o_key e)) (truthy_option_string (o_cert e)))
  then result = Throw (ThrownError (mkError "Both key and cert are required for HTTPS" ""))
  else
    match o_secureServerOptions e with
    | Some _ =>
        if createSecureServer None then listens result
        else result = Throw SecureContextError
    | None =>
        if negb (truthy_option_string (o_key e)) then listens result
        else if negb (file_found (o_key e))
        then result = Throw (AssertionError
                               ("Key file not found at " +:+ default "undefined" (o_key e)))
        else if negb (file_found (o_cert e))
        then result = Throw (AssertionError
                               ("Cert file not found at " +:+ default "undefined" (o_cert e)))
        else
          match readFileSync (default "" (o_key e)) with
          | None => result = Throw (ReadFileError (default "" (o_key e)))
          | Some k =>
              match readFileSync (default "" (o_cert e)) with
              | None => result = Throw (ReadFileError (default "" (o_cert e)))
              | Some c =>
                  if createSecureServer (Some (k, c)) then listens result
                  else result = Throw SecureContextError
              end
          end
    end.
Proof.
  cbv zeta. unfold startListener, new_ListenerHTTPS, new_ListenerHTTP.
  set (config := mkListenOptions _ _ _ _ _ _ _ _).
  change (default (default "8080" env_PORT) (o_port e)) with (port config).
  change (secureServerOptions config) with (o_secureServerOptions e).
  change (key config) with (o_key e). change (cert config) with (o_cert e).
  pose proof (new_ListenerBase_outcome HTTP (bind_info "HTTP" config) config) as Hhttp.
  pose proof (new_ListenerBase_outcome HTTPS (bind_info "HTTPS" config) config) as Hhttps.
  clearbody config.
  destruct (truthy_option_string (o_key e)) eqn:Hk,
           (truthy_option_string (o_cert e)) eqn:Hc; cbn [negb Bool.eqb andb orb]; try done.
  - rewrite orb_true_r.
    destruct (o_secureServerOptions e) as [so|]; [by destruct (createSecureServer None)|].
    destruct (file_found (o_key e)); cbn [negb]; [|done].
    destruct (file_found (o_cert e)); cbn [negb]; [|done].
    destruct (readFileSync (default "" (o_key e))) as [k|]; [|done].
    destruct (readFileSync (default "" (o_cert e))) as [c|]; [|done].
    by destruct (createSecureServer (Some (k, c))).
  - rewrite orb_false_r.
    destruct (o_secureServerOptions e) as [so|].
    + rewrite bool_decide_eq_true_2 by eauto. by destruct (createSecureServer None).
    + by rewrite bool_decide_eq_false_2 by (by intros [? ?]).
Qed.

Lemma startListener_returns env_PORT e p :
  (∃ l, startListener env_PORT e p = Return l) ↔
  truthy_option_string (o_key e) = truthy_option_string (o_cert e) ∧
  (o_secureServerOptions e = None → truthy_option_string (o_key e) = true →
   file_found (o_key e) = true ∧ file_found (o_cert e) = true ∧
   ∃ k c, readFileSync (default "" (o_key e)) = Some k ∧
          readFileSync (default "" (o_cert e)) = Some c ∧
          createSecureServer (Some (k, c)) = true) ∧
  (is_Some (o_secureServerOptions e) → createSecureServer None = true) ∧
  (∀ n, default (default "8080" env_PORT) (o_port e) ≠ "0" →
        default (default "8080" env_PORT) (o_port e) ≠ "" →
        ToNumber (default (default "8080" env_PORT) (o_port e)) = Num n →
        n ≠ 0 → 1 ≤ n ≤ 65535).
Proof.
  pose proof (startListener_outcome env_PORT e p) as Hout. cbv zeta in Hout.
  fold (port_accepted (default (default "8080" env_PORT) (o_port e))).
  destruct (startListener env_PORT e p) as [l0|err].
  all: destruct (truthy_option_string (o_key e)) eqn:Hk,
         (truthy_option_string (o_cert e)) eqn:Hc; cbn [negb Bool.eqb] in Hout;
         try discriminate Hout.
  all: try (split; [by intros [? ?] | by intros [? _]]).
  all: destruct (o_secureServerOptions e) as [so|].
  all: repeat match type of Hout with
       | context [createSecureServer ?o] => destruct (createSecureServer o) eqn:?
       | context [file_found ?o] => destruct (file_found o) eqn:?; cbn [negb] in Hout
       | context [readFileSync ?o] => destruct (readFileSync o) eqn:?
       end;
       try discriminate Hout.
  all: try (destruct Hout as [[Hacc [l Hl]]|[Hacc Hl]]; try discriminate Hl).
  all: split; [intros [l' Hl']; try discriminate Hl' | intros (Hpair & Hfiles & Hsecure & Hport)].
  all: try (exfalso; done).
  all: try (by eexists).
  all: try (split_and!; try done; naive_solver).
  all: try (destruct Hfiles as (? & ? & ? & ? & ? & ? & ?); [done..|]; congruence).
  all: try (specialize (Hsecure ltac:(eauto)); congruence).
Qed.

(** X20.  When a listener starts.  [startListener] returns a listener
    exactly when a key and a certificate are given together or not at all;
    if they are given and there are no secure-server options, both files
    exist, both can be read and [createSecureServer] accepts what was read;
    if there are secure-server options, [createSecureServer] accepts them;
    and the port string is ["0"], or empty, or does not parse to a number
    other than zero, or parses to a number from 1 to 65535.  A key without
    a certificate, or the reverse, is refused with the error about the pair
    even when secure-server options are given; a missing file with an
    [AssertionError] that names the file; what [readFileSync] and
    [createSecureServer] throw is thrown on; and a port that parses to a
    number other than zero outside 1 to 65535 is refused by [server.listen]
    with [ERR_SOCKET_BAD_PORT], once the server has been made. *)
Theorem startListener_starts (env_PORT : option string) (e : PartialListenOptions)
    (p : string) :
  let port := default (default "8080" env_PORT) (o_port e) in
  let result := startListener env_PORT e p in
  ((∃ l, result = Return l) ↔
   truthy_option_string (o_key e) = truthy_option_string (o_cert e) ∧
   (o_secureServerOptions e = None → truthy_option_string (o_key e) = true →
    file_found (o_key e) = true ∧ file_found (o_cert e) = true ∧
    ∃ k c, readFileSync (default "" (o_key e)) = Some k ∧
           readFileSync (default "" (o_cert e)) = Some c ∧
           createSecureServer (Some (k, c)) = true) ∧
   (is_Some (o_secureServerOptions e) → createSecureServer None = true) ∧
   (∀ n, port ≠ "0" → port ≠ "" → ToNumber port = Num n → n ≠ 0 → 1 ≤ n ≤ 65535)) ∧
  (truthy_option_string (o_key e) ≠ truthy_option_string (o_cert e) →
   result = Throw (ThrownError (mkError "Both key and cert are required for HTTPS" ""))) ∧
  (truthy_option_string (o_key e) = true → truthy_option_string (o_cert e) = true →
   o_secureServerOptions e = None →
   (file_found (o_key e) = false →
    result =
      Throw (AssertionError ("Key file not found at " +:+ default "undefined" (o_key e)))) ∧
   (file_found (o_key e) = true → file_found (o_cert e) = false →
    result =
      Throw (AssertionError ("Cert file not found at " +:+ default "undefined" (o_cert e)))) ∧
   (file_found (o_key e) = true → file_found (o_cert e) = true →
    (readFileSync (default "" (o_key e)) = None →
     result = Throw (ReadFileError (default "" (o_key e)))) ∧
    (is_Some (readFileSync (default "" (o_key e))) →
     readFileSync (default "" (o_cert e)) = None →
     result = Throw (ReadFileError (default "" (o_cert e)))) ∧
    (∀ k c, readFileSync (default "" (o_key e)) = Some k →
            readFileSync (default "" (o_cert e)) = Some c →
            createSecureServer (Some (k, c)) = false →
            result = Throw SecureContextError))) ∧
  (truthy_option_string (o_key e) = truthy_option_string (o_cert e) →
   is_Some (o_secureServerOptions e) → createSecureServer None = false →
   result = Throw SecureContextError) ∧
  (o_key e = None → o_cert e = None → o_secureServerOptions e = None →
   ∀ n, port ≠ "0" → port ≠ "" → ToNumber port = Num n → n ≠ 0 → ¬ 1 ≤ n ≤ 65535 →
        result = Throw ERR_SOCKET_BAD_PORT).
Proof.
  cbv zeta. split; [apply startListener_returns|].
  pose proof (startListener_outcome env_PORT e p) as Hout. cbv zeta in Hout.
  split_and!.
  - intros Hne. destruct (truthy_option_string (o_key e)),
      (truthy_option_string (o_cert e)); done.
  - intros Hk Hc Hs. rewrite Hk, Hc, Hs in Hout. cbn [negb Bool.eqb] in Hout.
    split_and!.
    + intros Hf. by rewrite Hf in Hout.
    + intros Hf Hf'. by rewrite Hf, Hf' in Hout.
    + intros Hf Hf'. rewrite Hf, Hf' in Hout. cbn [negb] in Hout. split_and!.
      * intros Hr. by rewrite Hr in Hout.
      * intros [k Hr] Hr'. by rewrite Hr, Hr' in Hout.
      * intros k c Hr Hr' Hs'. by rewrite Hr, Hr', Hs' in Hout.
  - intros Hpair [so Hs] Hs'. rewrite Hpair, Hs, Hs' in Hout.
    by destruct (truthy_option_string (o_cert e)).
  - intros Hk Hc Hs n Hp Hp' Hn Hn0 Hrange. rewrite Hk, Hc, Hs in Hout.
    cbn [truthy_option_string negb Bool.eqb] in Hout.
    destruct Hout as [[Hacc _]|[_ Hl]]; [|done].
    destruct Hrange. by apply Hacc.
Qed.

End ListenerStarts.

(** ** The headers of the head *)

Section HeadHeaders.
Context `{Platform}.

Lemma staged_strings_other m (l : Node.OutgoingHttpHeaders) key :
  (∀ kv, kv ∈ l → toLowerCase kv.1 ≠ key) →
  staged_strings m l !! key = m !! key.
Proof.
  revert m. induction l as [|[k v] l IH]; intros m Hl; [done|].
  unfold staged_strings in *. simpl. rewrite IH.
  - apply lookup_insert_ne. apply (Hl (k, v)). by left.
  - intros kv Hkv. apply Hl. by right.
Qed.

(** X21.  Which headers the head carries.  On a response that has sent
    nothing, [writeHead] with a status from 100 to 999 returns and sends one
    head with that status.  A header staged before, by [setHeader], [appendHeader] or [setCookie],
    is in the head unchanged unless the headers of the call have a property
    of that name, case ignored; a property of the call is in the head with
    the value given, and of several properties whose names differ only in
    case the last one wins. *)
Theorem writeHead_merges (status : Z) (hs : Node.OutgoingHttpHeaders) (w : World) :
  Node.headersSent (res w) = false →
  100 ≤ status ≤ 999 →
  let result := writeHead status hs w in
  result.1 = Return () ∧
  ∃ m, Node.heads (res result.2) = Node.heads (res w) ++ [(status, m)] ∧
       (∀ key, (∀ kv, kv ∈ hs → toLowerCase kv.1 ≠ key) →
               m !! key = Node.staged (res w) !! key) ∧
       (∀ l1 k v l2, hs = l1 ++ (k, v) :: l2 →
                     (∀ kv, kv ∈ l2 → toLowerCase kv.1 ≠ toLowerCase k) →
                     m !! toLowerCase k = Some v).
Proof.
  destruct w as [[sent st m0 hd ch en] b c s e d]. simpl.
  intros -> Hv%valid_status_range.
  change (writeHead status hs ?w) with (at_site s (writeHead status hs) w).
  rewrite writeHead_unsent by done. cbn zeta. cbn [fst snd res Node.heads].
  split; [done|]. eexists. split; [done|]. split.
  - intros key Hkey. by rewrite merge_headers_other, staged_strings_other.
  - intros l1 k v l2 -> Hl2. by apply merge_headers_last.
Qed.

End HeadHeaders.

(** ** How a request is refused, and when listening starts *)

Section Failures.
Context `{Platform}.
Import Listeners.

Lemma request_state_throws req url0 pathPrefix0 expectSecure0 x :
  request_state req url0 pathPrefix0 expectSecure0 = Throw x →
  x = ThrownError (mkError "This should never happen" "") ∨
  (x = URIError ∧
   ∃ headers0, parseCookieString (default "" (headers0 !! "cookie")) = Throw URIError ∧
     headers0 = (if 1 <? httpVersionMajor req
                 then set_host_from_authority (req_headers req)
                 else req_headers req)) ∨
  x = TypeError.
Proof.
  unfold request_state.
  set (headers0 := if 1 <? httpVersionMajor req
                   then set_host_from_authority (req_headers req)
                   else req_headers req).
  destruct (headers0 !! "host") as [[|c h]|];
    [intros [= <-]; by left| |intros [= <-]; by left].
  destruct (req_method req) as [[|c' m']|];
    [intros [= <-]; by left| |intros [= <-]; by left].
  destruct (parseCookieString _) as [cookies0|e] eqn:Hc.
  - destruct (URL_new _); [done|]. intros [= <-]. by do 2 right.
  - intros [= <-]. right. left.
    pose proof (parseCookies_throws _ _ Hc) as ->. split; [done|]. by exists headers0.
Qed.

(** X22.  How [parseRequest] fails.  On a response that has sent nothing,
    when [parseRequest] throws, either it throws the sentinel, under a
    non-empty prefix, after it has sent a head and ended the response; or
    the response is as it was and what is thrown is the error of a request
    that should never happen, a [URIError] for a [cookie] header that cannot
    be decoded, or the [TypeError] of the URL parser. *)
Theorem parseRequest_failures (req : Request) (r r' : Node.Response)
    (pathPrefix0 : string) (expectSecure0 : bool) (x : exn) :
  Node.headersSent r = false →
  parseRequest req r pathPrefix0 expectSecure0 = (Throw x, r') →
  (x = ThrownSTREAM_ENDED ∧ pathPrefix0 ≠ "" ∧
   (req_url req = pathPrefix0 ∨ startsWith (req_url req) pathPrefix0 = false) ∧
   Node.headersSent r' = true ∧ Node.writableEnded r' = true ∧
   length (Node.heads r') = S (length (Node.heads r))) ∨
  (r' = r ∧
   (x = ThrownError (mkError "This should never happen" "") ∨
    (x = URIError ∧
     ∃ headers0, parseCookieString (default "" (headers0 !! "cookie")) = Throw URIError ∧
       headers0 = (if 1 <? httpVersionMajor req
                   then set_host_from_authority (req_headers req)
                   else req_headers req)) ∨
    x = TypeError)).
Proof.
  intros Hunsent. unfold parseRequest.
  assert (∀ status hs c x0 r0,
    Node.valid_status status = true →
    match Node.writeHead status hs r with
    | (Return _, r1) => (Throw (A:=ParsedRequest) ThrownSTREAM_ENDED, Node.end_ c r1)
    | (Throw e, r1) => (Throw e, r1)
    end = (Throw x0, r0) →
    x0 = ThrownSTREAM_ENDED ∧ Node.headersSent r0 = true ∧ Node.writableEnded r0 = true ∧
    length (Node.heads r0) = S (length (Node.heads r))) as Hsent.
  { intros status hs c x0 r0 Hv.
    destruct r as [sent st m hd ch en]. simpl in Hunsent. subst sent.
    unfold Node.writeHead, Node.end_, Node.implicitHeader. simpl. rewrite Hv. simpl.
    destruct en; simpl; intros [= <- <-]; simpl; rewrite length_app; simpl;
      split_and!; try done; lia. }
  destruct (negb (startsWith (req_url req) "/")).
  { intros [= <- <-]. right. split; [done|]. by left. }
  destruct (truthy_string pathPrefix0) eqn:Ht.
  - apply truthy_string_ne in Ht.
    destruct (decide (req_url req = pathPrefix0)) as [Heq|Hne].
    { intros (-> & ? & ? & ?)%Hsent; [|done]. left. split_and!; try done. by left. }
    destruct (startsWith (req_url req) pathPrefix0) eqn:Hstart.
    + intros [= Hst <-]. right. split; [done|]. by eapply request_state_throws.
    + intros (-> & ? & ? & ?)%Hsent; [|done]. left. split_and!; try done. by right.
  - intros [= Hst <-]. right. split; [done|]. by eapply request_state_throws.
Qed.

Lemma startListeners_returns env_PORT checked :
  (∃ ls, startListeners env_PORT checked = Return ls) ↔
  Forall (λ ep, ∃ l, startListener env_PORT ep.1 ep.2 = Return l) checked.
Proof.
  induction checked as [|[e p] checked IH]; simpl.
  - split; [done | eauto].
  - rewrite Forall_cons, <- IH. simpl.
    destruct (startListener env_PORT e p) as [x|err].
    + destruct (startListeners env_PORT checked) as [xs|err'].
      * split; eauto.
      * split; [by intros [? ?] | by intros [_ [? ?]]].
    + split; [by intros [? ?] | by intros [[? ?] _]].
Qed.

Lemma check_prefix_is_Some (p0 : option string) :
  is_Some (check_prefix p0) ↔
  (default "" p0 = "" ∨ startsWith (default "" p0) "/" = true) ∧
  ¬ ∃ before, default "" p0 = before +:+ "/".
Proof.
  rewrite <- endsWith_suffix. unfold check_prefix.
  assert (default "" p0 = "" ↔ truthy_string (default "" p0) = false) as ->.
  { by destruct (default "" p0). }
  destruct (truthy_string (default "" p0)), (startsWith (default "" p0) "/"),
           (endsWith (default "" p0) "/"); simpl.
  all: split; [try by intros [? ?]|]; try (intros _; split; [auto|done]).
  all: try (intros [[?|?] ?]; done); try (intros [_ ?]; done); eauto.
Qed.

(** X23.  When [startListening] returns.  It returns listeners exactly
    when every element of the options has a prefix that is empty or begins
    with a slash and does not end with one; gives key and certificate
    together or not at all; where they are given without secure-server
    options, names files that exist and can be read, with contents that
    [createSecureServer] accepts; where secure-server options are given,
    gives options that [createSecureServer] accepts; and has a port string
    that is ["0"], or empty, or does not parse to a number other than zero,
    or parses to a number from 1 to 65535.  One element that fails makes the
    whole call throw. *)
Theorem startListening_returns (env_PORT : option string) (opts : list PartialListenOptions) :
  (∃ ls, startListening env_PORT opts = Return ls) ↔
  Forall (λ e,
    ((default "" (o_prefix e) = "" ∨ startsWith (default "" (o_prefix e)) "/" = true) ∧
     ¬ ∃ before, default "" (o_prefix e) = before +:+ "/") ∧
    truthy_option_string (o_key e) = truthy_option_string (o_cert e) ∧
    (o_secureServerOptions e = None → truthy_option_string (o_key e) = true →
     file_found (o_key e) = true ∧ file_found (o_cert e) = true ∧
     ∃ k c, readFileSync (default "" (o_key e)) = Some k ∧
            readFileSync (default "" (o_cert e)) = Some c ∧
            createSecureServer (Some (k, c)) = true) ∧
    (is_Some (o_secureServerOptions e) → createSecureServer None = true) ∧
    (∀ n, default (default "8080" env_PORT) (o_port e) ≠ "0" →
          default (default "8080" env_PORT) (o_port e) ≠ "" →
          ToNumber (default (default "8080" env_PORT) (o_port e)) = Num n →
          n ≠ 0 → 1 ≤ n ≤ 65535)) opts.
Proof.
  unfold startListening.
  destruct (mapM (λ e, pair e <$> check_prefix (o_prefix e)) opts) as [checked|] eqn:Hchecked.
  - rewrite startListeners_returns. apply mapM_Some in Hchecked.
    induction Hchecked as [|e [e' p] opts checked He _ IH].
    + split; constructor.
    + rewrite !Forall_cons, IH. simpl.
      destruct (check_prefix (o_prefix e)) as [p'|] eqn:Hp; [|done].
      injection He as <- <-.
      rewrite startListener_returns, <- check_prefix_is_Some, Hp.
      split; [intros [? ?]; split; [split; [eauto|done]|done] | intros [[_ ?] ?]; by split].
  - split; [by intros [? ?]|]. intros Hall. exfalso.
    apply mapM_None, Exists_exists in Hchecked as (e & He & Hnone).
    rewrite Forall_forall in Hall. destruct (Hall e He) as [Hok _].
    apply check_prefix_is_Some in Hok as [p Hp]. by rewrite Hp in Hnone.
Qed.

End Failures.

(** ** The theorems above on concrete requests *)

Lemma cookie_round_trip_witness :
  free_of ";" "sid" ∧ free_of "=" "sid" ∧ utf8 "a b" ∧
  parseCookieString (H:=Sample.platform)
    (cookie_string "sid" "a b"
       (mkCookieOptions (H:=Sample.platform) None None None None None None None)) =
  Return [("sid", "a b")].
Proof.
  assert (utf8 "a b") as Hutf8.
  { repeat (apply utf8_one; [reflexivity|]). apply utf8_empty. }
  split; [reflexivity|]. split; [reflexivity|]. split; [exact Hutf8|].
  exact (cookie_round_trip (H:=Sample.platform) "sid" "a b"
           eq_refl eq_refl eq_refl eq_refl Hutf8).
Defined.

Lemma redirect_restores_url_witness :
  let req :=
    mkRequest "/prefix/a?x=1" 1 (<["host" := "example.org"]> ∅) (Some "GET") [] in
  ∃ st this,
    parseRequest (H:=Sample.platform) req Node.fresh "/prefix" false =
      (Return st, Node.fresh) ∧
    (new_Streamer st [] ignore (initial Node.fresh)).1 = Return this ∧
    (redirect this (url this) (initial Node.fresh)).1 = Return STREAM_ENDED ∧
    ∃ m, Node.heads (res (redirect this (url this) (initial Node.fresh)).2) = [(302, m)] ∧
         m !! "location" = Some (Node.One (Node.SStr "/prefix/a?x=1")).
Proof.
  cbv zeta. eexists. eexists. split; [reflexivity|]. split; [reflexivity|].
  pose proof (redirect_restores_url (H:=Sample.platform)
                (mkRequest "/prefix/a?x=1" 1 (<["host" := "example.org"]> ∅) (Some "GET") [])
                Node.fresh Node.fresh "/prefix" false _ [] ignore
                (initial Node.fresh) (initial Node.fresh) _
                eq_refl eq_refl eq_refl eq_refl) as Hthm.
  cbv zeta in Hthm. destruct Hthm as (Hret & Hhead & _ & _).
  split; [exact Hret | exact Hhead].
Defined.

Lemma sentinel_means_ended_witness :
  let this :=
    mkStreamer (H:=Sample.platform) "example.org" "GET" "https://example.org/"
      "/" ∅ [] "" false [] ignore ∅ ∅ [] in
  (send this (by_sendSimple 200 "ok") (initial Node.fresh)).1 = Return STREAM_ENDED ∧
  Node.writableEnded (res (send this (by_sendSimple 200 "ok") (initial Node.fresh)).2) = true.
Proof.
  cbv zeta. split; [reflexivity|].
  exact (sentinel_means_ended (H:=Sample.platform)
           (mkStreamer (H:=Sample.platform) "example.org" "GET" "https://example.org/"
              "/" ∅ [] "" false [] ignore ∅ ∅ [])
           (by_sendSimple 200 "ok") (initial Node.fresh) STREAM_ENDED eq_refl).
Defined.

Lemma one_response_witness :
  let this :=
    mkStreamer (H:=Sample.platform) "example.org" "GET" "https://example.org/"
      "/" ∅ [] "" false [] ignore ∅ ∅ [] in
  let w1 := (send this (by_sendSimple 200 "ok") (initial Node.fresh)).2 in
  (send this (by_sendSimple 200 "ok") (initial Node.fresh)).1 = Return STREAM_ENDED ∧
  (send this (by_redirect "/") w1).1 = Throw ERR_HTTP_HEADERS_SENT ∧
  res (send this (by_redirect "/") w1).2 = res w1.
Proof.
  cbv zeta. split; [reflexivity|].
  pose proof (one_response (H:=Sample.platform)
                (mkStreamer (H:=Sample.platform) "example.org" "GET" "https://example.org/"
                   "/" ∅ [] "" false [] ignore ∅ ∅ [])
                (by_sendSimple 200 "ok") (by_redirect "/") (initial Node.fresh)
                eq_refl eq_refl eq_refl) as Hthm.
  cbv zeta in Hthm. destruct Hthm as [Hres Hthrow].
  split; [exact Hthrow | exact Hres].
Defined.

Lemma sendJSON_sends_witness :
  let this :=
    mkStreamer (H:=Sample.platform) "example.org" "GET" "https://example.org/"
      "/" ∅ [] "" false [] ignore ∅ ∅ [] in
  let result := sendJSON this 200 (VArr [VNum (Num 1); VUndefined]) (initial Node.fresh) in
  result.1 = Return STREAM_ENDED ∧
  Node.chunks (res result.2) = [Node.mkChunk "[1,null]" (Some Node.utf8)].
Proof.
  cbv zeta.
  pose proof (sendJSON_sends (H:=Sample.platform)
                (mkStreamer (H:=Sample.platform) "example.org" "GET" "https://example.org/"
                   "/" ∅ [] "" false [] ignore ∅ ∅ [])
                200 (VArr [VNum (Num 1); VUndefined]) (initial Node.fresh)
                eq_refl eq_refl) as Hthm.
  cbv zeta in Hthm.
  change (stringify (VArr [VNum (Num 1); VUndefined])) with (Some (Text "[1,null]")) in Hthm.
  assert (100 ≤ 200 ≤ 999) as Hrange by lia.
  destruct Hthm as [Hvalid _]. destruct (Hvalid Hrange) as (Hret & _ & Hchunks & _).
  split; [exact Hret | exact Hchunks].
Defined.

(** [sendJSON] with a status the response object rejects. *)
Example sendJSON_invalid_status :
  let this :=
    mkStreamer (H:=Sample.platform) "example.org" "GET" "https://example.org/"
      "/" ∅ [] "" false [] ignore ∅ ∅ [] in
  let result := sendJSON this 1000 (VStr "x") (initial Node.fresh) in
  result.1 = Throw (ERR_HTTP_INVALID_STATUS_CODE 1000) ∧
  Node.heads (res result.2) = [] ∧ Node.chunks (res result.2) = [] ∧
  Node.writableEnded (res result.2) = false.
Proof. repeat split; reflexivity. Qed.

Lemma head_request_no_body_witness :
  let this :=
    mkStreamer (H:=Sample.platform) "example.org" "HEAD" "https://example.org/"
      "/" ∅ [] "" false [] ignore ∅ ∅ [] in
  method this = "HEAD" ∧
  Node.chunks (res (send this (by_sendJSON 200 (VStr "x")) (initial Node.fresh)).2) = [].
Proof.
  cbv zeta. split; [reflexivity|].
  exact (head_request_no_body (H:=Sample.platform)
           (mkStreamer (H:=Sample.platform) "example.org" "HEAD" "https://example.org/"
              "/" ∅ [] "" false [] ignore ∅ ∅ [])
           (by_sendJSON 200 (VStr "x")) (initial Node.fresh) eq_refl).
Defined.

Lemma sendBuffer_content_length_witness :
  let this :=
    mkStreamer (H:=Sample.platform) "example.org" "GET" "https://example.org/"
      "/" ∅ [] "" false [] ignore ∅ ∅ [] in
  let hs := [("content-type", Node.One (Node.SStr "text/html"));
             ("content-length", Node.One (Node.SStr "99"))] in
  let result := sendBuffer this 200 hs "<html>" (initial Node.fresh) in
  NoDup (map (λ kv : string * Node.header_value, toLowerCase kv.1) hs) ∧
  result.1 = Return STREAM_ENDED ∧
  ∃ m, Node.heads (res result.2) = [(200, m)] ∧
       m !! "content-length" = Some (Node.One (Node.SNum (Num 6))).
Proof.
  cbv zeta.
  assert (NoDup (map (λ kv : string * Node.header_value, toLowerCase kv.1)
                     [("content-type", Node.One (Node.SStr "text/html"));
                      ("content-length", Node.One (Node.SStr "99"))])) as Hnd.
  { apply NoDup_cons. split; [|apply NoDup_singleton].
    intros Hin. apply list_elem_of_singleton in Hin. discriminate Hin. }
  assert (100 ≤ 200 ≤ 999) as Hrange by lia.
  split; [exact Hnd|].
  pose proof (sendBuffer_content_length (H:=Sample.platform)
                (mkStreamer (H:=Sample.platform) "example.org" "GET" "https://example.org/"
                   "/" ∅ [] "" false [] ignore ∅ ∅ [])
                200 [("content-type", Node.One (Node.SStr "text/html"));
                     ("content-length", Node.One (Node.SStr "99"))]
                "<html>" (initial Node.fresh) eq_refl eq_refl Hrange Hnd) as Hthm.
  cbv zeta in Hthm. destruct Hthm as (Hret & Hhead & _).
  split; [exact Hret | exact Hhead].
Defined.

Lemma closed_is_final_witness :
  let w := (sendEmpty 204 [] (initial Node.fresh)).2 in
  let calls : list (string * Call (H:=Sample.platform)) :=
    [("late", call_writer_write "more"); ("later", call_setHeader "x-late" "1");
     ("last", call_emitComment "bye")] in
  Node.writableEnded (res w) = true ∧ res (run calls w) = res w.
Proof.
  cbv zeta. split; [reflexivity|].
  exact (closed_is_final (H:=Sample.platform)
           [("late", call_writer_write "more"); ("later", call_setHeader "x-late" "1");
            ("last", call_emitComment "bye")]
           (sendEmpty 204 [] (initial Node.fresh)).2
           eq_refl eq_refl).
Defined.

Lemma sendSSE_opens_or_nothing_witness :
  (sendSSE (Some (VNum (Num (-1)))) (initial Node.fresh)).2 =
    initial Node.fresh ∧
  (sendSSE (Some (VNum (Num (-1)))) (initial Node.fresh)).1 =
    Throw (ThrownError (mkError invalid_retry "")).
Proof.
  pose proof (sendSSE_opens_or_nothing (Some (VNum (Num (-1))))
                (initial Node.fresh) eq_refl eq_refl) as Hthm.
  cbv zeta in Hthm.
  change (sendSSE (Some (VNum (Num (-1)))) (initial Node.fresh)).1
    with (Throw (A:=SSE) (ThrownError (mkError invalid_retry ""))) in Hthm at 1.
  destruct Hthm as [Hw _]. split; [exact Hw | reflexivity].
Defined.

Lemma event_stream_in_order_witness :
  let events : list Event := [("tick", VNum (Num 1), "7"); ("", VStr "x", "")] in
  let result :=
    bind (sendSSE None)
         (λ sse, bind (emitEvents sse events) (λ _, close)) (initial Node.fresh) in
  result.1 = Return () ∧
  Node.chunks (res result.2) =
    sse_preamble ++
    [Node.mkChunk (event_frame (mkSSE None) "tick" (Text "1") "7") None;
     Node.mkChunk (event_frame (mkSSE None) "" (Text (json_quote "x")) "") None] ∧
  Node.writableEnded (res result.2) = true.
Proof.
  cbv zeta.
  assert (Forall2 (framed (mkSSE None))
            [("tick", VNum (Num 1), "7"); ("", VStr "x", "")]
            [Node.mkChunk (event_frame (mkSSE None) "tick" (Text "1") "7") None;
             Node.mkChunk (event_frame (mkSSE None) "" (Text (json_quote "x")) "") None])
    as Hall.
  { repeat constructor; eexists; split; reflexivity. }
  pose proof (event_stream_in_order None (mkSSE None) _ _
                (initial Node.fresh) eq_refl eq_refl eq_refl Hall) as Hthm.
  cbv zeta in Hthm. destruct Hthm as (Hret & _ & Hchunks & Hended).
  split; [exact Hret|]. split; [exact Hchunks | exact Hended].
Defined.

Lemma event_frame_one_event_witness :
  stringify (VArr [VStr "two"; VStr LF]) =
    Some (Text ("[" +:+ json_quote "two" +:+ "," +:+ json_quote LF +:+ "]")) ∧
  ∃ fields,
    event_frame (mkSSE (Some (Num 1500))) "tick"
      (Text ("[" +:+ json_quote "two" +:+ "," +:+ json_quote LF +:+ "]")) "7" =
      join LF fields +:+ LF +:+ LF ∧
    fields ≠ [] ∧
    Forall (λ f, f ≠ "" ∧ includes f LF = false) fields.
Proof.
  split; [reflexivity|].
  exact (proj1 (event_frame_one_event (mkSSE (Some (Num 1500))) "tick" "7"
                  (VArr [VStr "two"; VStr LF]) _ eq_refl eq_refl eq_refl)).
Defined.

Lemma writer_is_remembered_witness :
  let first := at_site "stream.ts:10" (writer_write "x")
                 (initial Node.fresh) in
  let second := at_site "handler.ts:20" (writeHead 200 []) first.2 in
  headersSentBy first.2 = Some (mkError possible_culprit "stream.ts:10") ∧
  second.1 = Throw ERR_HTTP_HEADERS_SENT ∧
  console second.2 =
    [LogError (mkError possible_culprit "stream.ts:10");
     LogError (mkError second_attempt "handler.ts:20")].
Proof.
  cbv zeta.
  pose proof (writer_is_remembered (H:=Sample.platform) (initial Node.fresh)
                "stream.ts:10" "x" [] "handler.ts:20" 200 []
                eq_refl eq_refl eq_refl) as Hthm.
  cbv zeta in Hthm. destruct Hthm as (_ & _ & _ & Hby & Hthrow & Hconsole & _).
  split; [exact Hby|]. split; [exact Hthrow | exact Hconsole].
Defined.

Lemma setCookie_keeps_all_witness :
  let none := mkCookieOptions (H:=Sample.platform) None None None None None None None in
  let result :=
    setCookies [("a", "1", none); ("b", "2", none); ("c", "3", none)] (initial Node.fresh) in
  result.1 = Return () ∧
  Node.getHeader "Set-Cookie" (res result.2) =
    Some (Node.Many [Node.SStr "a=1"; Node.SStr "b=2"; Node.SStr "c=3"]).
Proof.
  cbv zeta.
  exact (setCookie_keeps_all (H:=Sample.platform)
           [("a", "1", mkCookieOptions (H:=Sample.platform) None None None None None None None);
            ("b", "2", mkCookieOptions (H:=Sample.platform) None None None None None None None);
            ("c", "3", mkCookieOptions (H:=Sample.platform) None None None None None None None)]
           (initial Node.fresh) eq_refl eq_refl).
Defined.

Lemma startListening_listeners_witness :
  let opts :=
    [Listeners.mkPartialListenOptions (Some "3000") None (Some "/wiki") None None None None None;
     Listeners.mkPartialListenOptions None None None None None
       (Some Listeners.secure_server_options) None None] in
  ∃ l1 l2,
    Listeners.startListening (H:=Sample.platform) None opts = Return [l1; l2] ∧
    Listeners.prefix (Listeners.options l1) = "/wiki" ∧
    Listeners.prefix (Listeners.options l2) = "" ∧
    (Listeners.protocol l2 = Listeners.HTTPS ↔
     is_Some (Some Listeners.secure_server_options) ∨
     (false = true ∧ false = true)).
Proof.
  cbv zeta. eexists. eexists. split; [reflexivity|].
  pose proof (startListening_listeners (H:=Sample.platform) None
                [Listeners.mkPartialListenOptions (Some "3000") None (Some "/wiki")
                   None None None None None;
                 Listeners.mkPartialListenOptions None None None None None
                   (Some Listeners.secure_server_options) None None]
                _ eq_refl) as Hthm.
  inversion Hthm as [|e1 l1 opts1 ls1 (Hp1 & _) Hrest]; subst.
  inversion Hrest as [|e2 l2 opts2 ls2 (Hp2 & _ & _ & Hproto) _]; subst.
  split; [exact Hp1|]. split; [exact Hp2 | exact Hproto].
Defined.

Lemma checked_prefix_routes_witness :
  let req := mkRequest "/wiki/" 1 (<["host" := "example.org"]> ∅) (Some "GET") [] in
  Listeners.check_prefix (Some "/wiki") = Some "/wiki" ∧
  parseRequest (H:=Sample.platform) req Node.fresh "/wiki" false =
    (request_state req "/" "/wiki" false, Node.fresh).
Proof.
  cbv zeta. split; [reflexivity|].
  exact (checked_prefix_routes (H:=Sample.platform) (Some "/wiki") "/wiki" "/"
           (mkRequest "/wiki/" 1 (<["host" := "example.org"]> ∅) (Some "GET") [])
           Node.fresh false eq_refl eq_refl eq_refl).
Defined.

Lemma parseRequest_accepts_witness :
  let req :=
    mkRequest "/a" 2 (<[":authority" := "example.org"]> (<["host" := "other.example"]> ∅))
      (Some "GET") [] in
  ∃ st,
    parseRequest (H:=Sample.platform) req Node.fresh "" false = (Return st, Node.fresh) ∧
    p_host st = "example.org" ∧
    p_headers st !! "host" = Some (p_host st).
Proof.
  cbv zeta. eexists. split; [reflexivity|]. split; [reflexivity|].
  exact (proj1 (proj2 (proj2 (proj2 (proj2
           (parseRequest_accepts (H:=Sample.platform)
              (mkRequest "/a" 2
                 (<[":authority" := "example.org"]> (<["host" := "other.example"]> ∅))
                 (Some "GET") [])
              Node.fresh Node.fresh "" false _ eq_refl)))))).
Defined.

Lemma queryParams_all_values_witness :
  let st :=
    mkParsedRequest (H:=Sample.platform)
      (mkRequest "/a?x=1&y=2&x=3" 1 (<["host" := "example.org"]> ∅) (Some "GET") [])
      "/a?x=1&y=2&x=3" "https://example.org/a?x=1&y=2&x=3" "" false "GET" "example.org" []
      (<["host" := "example.org"]> ∅) in
  URL_searchParams (Platform:=Sample.platform) (p_urlInfo st) =
    [("x", "1"); ("y", "2"); ("x", "3")] ∧
  ∃ this,
    (new_Streamer st [] ignore (initial Node.fresh)).1 = Return this ∧
    queryParams this !! "x" = Some ["1"; "3"] ∧
    queryParams this !! "y" = Some ["2"] ∧
    queryParams this !! "z" = None.
Proof.
  cbv zeta. split; [reflexivity|]. eexists. split; [reflexivity|].
  pose proof (λ key,
    queryParams_all_values (H:=Sample.platform)
      (mkParsedRequest (H:=Sample.platform)
         (mkRequest "/a?x=1&y=2&x=3" 1 (<["host" := "example.org"]> ∅) (Some "GET") [])
         "/a?x=1&y=2&x=3" "https://example.org/a?x=1&y=2&x=3" "" false "GET" "example.org" []
         (<["host" := "example.org"]> ∅))
      [] ignore (initial Node.fresh) _ key eq_refl) as Hthm.
  split; [exact (Hthm "x")|]. split; [exact (Hthm "y") | exact (Hthm "z")].
Defined.

Lemma writeHead_merges_witness :
  let none := mkCookieOptions (H:=Sample.platform) None None None None None None None in
  let w := (setCookie "sid" "1" none (initial Node.fresh)).2 in
  let result := writeHead 200 [("Content-Type", Node.One (Node.SStr "text/html"))] w in
  result.1 = Return () ∧
  ∃ m, Node.heads (res result.2) = [(200, m)] ∧
       m !! "set-cookie" = Some (Node.One (Node.SStr "sid=1")) ∧
       m !! "content-type" = Some (Node.One (Node.SStr "text/html")).
Proof.
  cbv zeta.
  assert (100 ≤ 200 ≤ 999) as Hrange by lia.
  pose proof (writeHead_merges 200
                [("Content-Type", Node.One (Node.SStr "text/html"))]
                (setCookie "sid" "1"
                   (mkCookieOptions (H:=Sample.platform) None None None None None None None)
                   (initial Node.fresh)).2 eq_refl Hrange) as Hthm.
  cbv zeta in Hthm. destruct Hthm as (Hret & m & Hheads & Hkept & Hgiven).
  split; [exact Hret|]. exists m. split; [exact Hheads|]. split.
  - rewrite (Hkept "set-cookie"); [reflexivity|].
    intros kv Hkv. apply list_elem_of_singleton in Hkv. subst kv. discriminate.
  - exact (Hgiven [] "Content-Type" (Node.One (Node.SStr "text/html")) [] eq_refl
             (λ kv Hkv, False_ind _ (proj1 (elem_of_nil kv) Hkv))).
Defined.

Lemma parseRequest_failures_witness :
  let req :=
    mkRequest "/a" 1 (<["cookie" := "a=%"]> (<["host" := "example.org"]> ∅)) (Some "GET") [] in
  parseRequest (H:=Sample.platform) req Node.fresh "" false = (Throw URIError, Node.fresh) ∧
  ∃ headers0 : gmap string string,
    parseCookieString (H:=Sample.platform) (default "" (headers0 !! "cookie")) =
      Throw URIError.
Proof.
  cbv zeta.
  assert (parseRequest (H:=Sample.platform)
            (mkRequest "/a" 1 (<["cookie" := "a=%"]> (<["host" := "example.org"]> ∅))
               (Some "GET") [])
            Node.fresh "" false = (Throw URIError, Node.fresh)) as Hreq.
  { reflexivity. }
  split; [exact Hreq|].
  destruct (parseRequest_failures (H:=Sample.platform)
              (mkRequest "/a" 1 (<["cookie" := "a=%"]> (<["host" := "example.org"]> ∅))
                 (Some "GET") [])
              Node.fresh Node.fresh "" false URIError eq_refl Hreq)
    as [(Hx & _)|(_ & [Hx|[(_ & h & Hh & _)|Hx]])];
    [discriminate Hx | discriminate Hx | exists h; exact Hh | discriminate Hx].
Defined.
